(** * A token-bucket rate limiter (src/exe.cpp): shallow embedding and proofs

    The development follows the two classes of the program:

    - [TokenBucket]  (exe.cpp 76-149): one client's quota cell;
    - [RateLimiter]  (exe.cpp 152-420): the registry of cells, the
      statistics counters and the latency sample window.

    Modelling conventions, used throughout.

    - [size_t] and [uint64_t] values are integers in [Z]; every [++], [--] and
      [-] the source performs on them is written with its wrap-around
      ([wrap64]).
    - A [double] is modelled in two ways.  [TokenBucket64] is the quota cell
      with its level and its refill rate as IEEE binary64 numbers (the
      primitive floats, specified by [SpecFloat]): conversions from integers
      round to nearest, ties to even, and sums, products, quotients and
      comparisons are the machine's, with their rounding, infinities and
      NaN.  The admission decision and the range of the level are stated on
      it.  [TokenBucket] and [RateLimiter] model a [double] by an exact
      rational ([Q]); they carry the properties of the registry, the
      counters and the latency window.  The one place where the limiter
      turns a [double] back into an index (the percentile rank) is checked
      against binary64 arithmetic separately ([Binary64]).
    - [std::chrono::steady_clock::now()] and [high_resolution_clock::now()]
      read the environment.  Every operation that reads a clock takes the
      reading as an argument, in clock ticks (nanoseconds).
    - [std::unordered_map<std::string, _>] is a [gmap string _].  A
      [TokenBucket*] obtained from the registry aliases the entry of the
      client it was looked up for; a mutation through the pointer is an
      update of that entry.
    - The mutexes, the clean-up thread and console output are not modelled:
      every public operation is one atomic step of a sequential machine. *)

From Stdlib Require Import ZArith QArith Qround Lqa Lia.
From Stdlib Require Import PrimFloat FloatOps SpecFloat FloatAxioms Uint63.
From stdpp Require Import gmap strings list sorting.

Local Open Scope Z_scope.

(** ** Machine integers *)

Definition SIZE_MAX : Z := 2 ^ 64 - 1.

(** Arithmetic on [size_t] / [uint64_t] is modulo [2^64]. *)
Definition wrap64 (z : Z) : Z := z mod 2 ^ 64.

(** ** Doubles as rationals

    The rational model of [double], used by [TokenBucket] and [RateLimiter]
    below; [TokenBucket64] has the machine's numbers. *)

(** [a < b] on doubles. *)
Definition Qltb (a b : Q) : bool := negb (Qle_bool b a).

(** [a >= b] on doubles. *)
Definition Qgeb (a b : Q) : bool := Qle_bool b a.

(** [std::min(a, b)] is [(b < a) ? b : a]. *)
Definition std_min (a b : Q) : Q := if Qltb b a then b else a.

(** [static_cast<double>(n)] for an unsigned integer [n]. *)
Definition to_double (n : Z) : Q := inject_Z n.

(** [static_cast<size_t>(x)]: the fractional part is discarded (truncation
    toward zero). *)
Definition to_size_t (x : Q) : Z := Z.quot (Qnum x) (Z.pos (Qden x)).

(** ** Clocks *)

(** Both clocks tick in nanoseconds. *)
Definition ticks_per_second : positive := 1000000000.
Definition ticks_per_milli : positive := 1000000.

(** [std::chrono::duration<double>(d).count()]: a tick count in seconds. *)
Definition seconds (d : Z) : Q := d # ticks_per_second.

(** [std::chrono::duration<double, std::milli>(d).count()]. *)
Definition millis (d : Z) : Q := d # ticks_per_milli.

(** ** Statistics structures (exe.cpp 39-73) *)

Record Statistics := mkStatistics {
  st_totalRequests : Z;
  st_acceptedRequests : Z;
  st_rejectedRequests : Z;
  st_totalLatency : Q;
  st_activeClients : Z
}.

(** [Statistics::getAverageLatency]. *)
Definition getAverageLatency (s : Statistics) : Q :=
  if 0 <? st_totalRequests s
  then (st_totalLatency s / to_double (st_totalRequests s))%Q
  else 0%Q.

(** [Statistics::getAcceptanceRate] (46-49) and [getRejectionRate] (51-54),
    in percent. *)
Definition getAcceptanceRate (s : Statistics) : Q :=
  if 0 <? st_totalRequests s
  then (to_double (st_acceptedRequests s) / to_double (st_totalRequests s) * 100)%Q
  else 0%Q.

Definition getRejectionRate (s : Statistics) : Q :=
  if 0 <? st_totalRequests s
  then (to_double (st_rejectedRequests s) / to_double (st_totalRequests s) * 100)%Q
  else 0%Q.

Record ClientStatistics := mkClientStatistics {
  tokensRemaining : Z;
  bucketSize : Z;
  refillRate : Q;
  totalRequests : Z;
  acceptedRequests : Z;
  lastRefill : Z
}.

(** [ClientStatistics::getClientAcceptanceRate] (70-72). *)
Definition getClientAcceptanceRate (cs : ClientStatistics) : Q :=
  if 0 <? totalRequests cs
  then (to_double (acceptedRequests cs) / to_double (totalRequests cs) * 100)%Q
  else 0%Q.

(** ** The quota cell (exe.cpp 76-149) *)

Module TokenBucket.

Record t := mk {
  tokens_ : Q;
  bucketSize_ : Z;
  refillRate_ : Q;
  lastRefill_ : Z;
  totalRequests_ : Z;
  acceptedRequests_ : Z
}.

(** The constructor; [now] is the clock reading it takes. *)
Definition new (now : Z) (bucketSize : Z) (refillRate : Q) : t :=
  {| tokens_ := to_double bucketSize;
     bucketSize_ := bucketSize;
     refillRate_ := refillRate;
     lastRefill_ := now;
     totalRequests_ := 0;
     acceptedRequests_ := 0 |}.

(** [refillTokens] (139-148). *)
Definition refillTokens (now : Z) (b : t) : t :=
  let timePassed := seconds (now - lastRefill_ b) in
  if Qltb 0 timePassed then
    let tokensToAdd := (timePassed * refillRate_ b)%Q in
    {| tokens_ := std_min (tokens_ b + tokensToAdd)%Q (to_double (bucketSize_ b));
       bucketSize_ := bucketSize_ b;
       refillRate_ := refillRate_ b;
       lastRefill_ := now;
       totalRequests_ := totalRequests_ b;
       acceptedRequests_ := acceptedRequests_ b |}
  else b.

(** [consume] (94-107): the verdict and the cell afterwards. *)
Definition consume (now : Z) (tokensNeeded : Z) (b : t) : bool * t :=
  let b1 := refillTokens now b in
  let total := wrap64 (totalRequests_ b1 + 1) in
  if Qgeb (tokens_ b1) (to_double tokensNeeded) then
    (true,
     {| tokens_ := (tokens_ b1 - to_double tokensNeeded)%Q;
        bucketSize_ := bucketSize_ b1;
        refillRate_ := refillRate_ b1;
        lastRefill_ := lastRefill_ b1;
        totalRequests_ := total;
        acceptedRequests_ := wrap64 (acceptedRequests_ b1 + 1) |})
  else
    (false,
     {| tokens_ := tokens_ b1;
        bucketSize_ := bucketSize_ b1;
        refillRate_ := refillRate_ b1;
        lastRefill_ := lastRefill_ b1;
        totalRequests_ := total;
        acceptedRequests_ := acceptedRequests_ b1 |}).

(** [getStatistics] (109-123).  The method is [const] but refills the cell
    through a [const_cast], so the cell afterwards is returned too. *)
Definition getStatistics (now : Z) (b : t) : ClientStatistics * t :=
  let b1 := refillTokens now b in
  ({| tokensRemaining := to_size_t (tokens_ b1);
      bucketSize := bucketSize_ b1;
      refillRate := refillRate_ b1;
      totalRequests := totalRequests_ b1;
      acceptedRequests := acceptedRequests_ b1;
      lastRefill := lastRefill_ b1 |},
   b1).

(** [reset] (125-131). *)
Definition reset (now : Z) (b : t) : t :=
  {| tokens_ := to_double (bucketSize_ b);
     bucketSize_ := bucketSize_ b;
     refillRate_ := refillRate_ b;
     lastRefill_ := now;
     totalRequests_ := 0;
     acceptedRequests_ := 0 |}.

(** [getLastAccess] (133-136). *)
Definition getLastAccess (b : t) : Z := lastRefill_ b.

End TokenBucket.

(** ** Configuration (exe.cpp 25-36) *)

Record RateLimiterConfig := mkConfig {
  defaultBucketSize : Z;
  defaultRefillRate : Q;
  cleanupInterval : Z;          (* seconds *)
  enableMetrics : bool;
  enableLogging : bool;
  maxClients : Z;
  timeoutMs : Z;
  clientLimits : gmap string (Z * Q)
}.

(** The default member initialisers of the structure. *)
Definition default_config : RateLimiterConfig :=
  {| defaultBucketSize := 100;
     defaultRefillRate := 10;
     cleanupInterval := 300;
     enableMetrics := true;
     enableLogging := false;
     maxClients := 10000;
     timeoutMs := 1;
     clientLimits := ∅ |}.

(** [std::sort] on doubles orders by [<=]. *)
#[global] Instance Qle_dec : RelDecision Qle.
Proof.
  refine (fun x y => cast_if (decide (Qle_bool x y = true)));
    abstract (rewrite <- Qle_bool_iff; assumption).
Defined.

(** ** The rate limiter (exe.cpp 152-420) *)

Module RateLimiter.

Record t := mk {
  clients_ : gmap string TokenBucket.t;
  config_ : RateLimiterConfig;
  stats_ : Statistics;
  latencyMeasurements_ : list Q
}.

Definition zero_stats : Statistics :=
  {| st_totalRequests := 0; st_acceptedRequests := 0; st_rejectedRequests := 0;
     st_totalLatency := 0; st_activeClients := 0 |}.

(** [RateLimiter(const RateLimiterConfig&)] (168-171).  A constructor can
    refuse its argument only by throwing; [None] stands for that outcome.
    The body has no [throw]: it copies the configuration and starts the
    clean-up thread. *)
Definition ctor (config : RateLimiterConfig) : option t :=
  Some {| clients_ := ∅; config_ := config; stats_ := zero_stats;
          latencyMeasurements_ := [] |}.

(** [RateLimiter(size_t, double)] (173-177). *)
Definition ctor_sized (bucketSize : Z) (refillRate : Q) : option t :=
  Some {| clients_ := ∅;
          config_ :=
            {| defaultBucketSize := bucketSize;
               defaultRefillRate := refillRate;
               cleanupInterval := cleanupInterval default_config;
               enableMetrics := enableMetrics default_config;
               enableLogging := enableLogging default_config;
               maxClients := maxClients default_config;
               timeoutMs := timeoutMs default_config;
               clientLimits := clientLimits default_config |};
          stats_ := zero_stats;
          latencyMeasurements_ := [] |}.

Definition set_clients (m : gmap string TokenBucket.t) (rl : t) : t :=
  {| clients_ := m; config_ := config_ rl; stats_ := stats_ rl;
     latencyMeasurements_ := latencyMeasurements_ rl |}.

Definition set_activeClients (n : Z) (s : Statistics) : Statistics :=
  {| st_totalRequests := st_totalRequests s;
     st_acceptedRequests := st_acceptedRequests s;
     st_rejectedRequests := st_rejectedRequests s;
     st_totalLatency := st_totalLatency s;
     st_activeClients := n |}.

(** The number of entries, as [clients_.size()] reports it. *)
Definition registry_size (rl : t) : Z := Z.of_nat (size (clients_ rl)).

(** The registry respects the cap. *)
Definition registry_bounded (rl : t) : Prop :=
  registry_size rl <= maxClients (config_ rl).

(** The limits a new cell of [clientId] gets (372-380): the client's override
    if there is one, the defaults otherwise. *)
Definition client_limit (config : RateLimiterConfig) (clientId : string) : Z * Q :=
  match clientLimits config !! clientId with
  | Some limit => limit
  | None => (defaultBucketSize config, defaultRefillRate config)
  end.

(** [getOrCreateBucket] (359-389).  The result is the cell the returned
    pointer designates ([None] for [nullptr]) and the limiter afterwards;
    [now] is the reading the [TokenBucket] constructor takes when a cell is
    created. *)
Definition getOrCreateBucket (now : Z) (clientId : string) (rl : t)
  : option TokenBucket.t * t :=
  match clients_ rl !! clientId with
  | Some b => (Some b, rl)
  | None =>
      if maxClients (config_ rl) <=? registry_size rl then (None, rl)
      else
        let '(bucketSize, refillRate) := client_limit (config_ rl) clientId in
        let bucket := TokenBucket.new now bucketSize refillRate in
        (Some bucket,
         {| clients_ := <[clientId := bucket]> (clients_ rl);
            config_ := config_ rl;
            stats_ := set_activeClients (wrap64 (st_activeClients (stats_ rl) + 1))
                        (stats_ rl);
            latencyMeasurements_ := latencyMeasurements_ rl |})
  end.

(** [bucket ? bucket->consume(count) : false], the body shared by
    [allowRequests] (222-225) and [allowRequestInternal] (354-357).  The
    pointer aliases the entry of [clientId], so the consumed cell is written
    back there. *)
Definition allowRequests (t_create t_consume : Z) (clientId : string)
    (count : Z) (rl : t) : bool * t :=
  let '(bucket, rl1) := getOrCreateBucket t_create clientId rl in
  match bucket with
  | Some b =>
      let '(ok, b') := TokenBucket.consume t_consume count b in
      (ok, set_clients (<[clientId := b']> (clients_ rl1)) rl1)
  | None => (false, rl1)
  end.

Definition allowRequestInternal (t_create t_consume : Z) (clientId : string)
    (rl : t) : bool * t :=
  allowRequests t_create t_consume clientId 1 rl.

(** The sample window of [allowRequest] (201-208): append, then drop the
    oldest sample once more than 1000 are held. *)
Definition push_latency (latency : Q) (samples : list Q) : list Q :=
  let samples' := samples ++ [latency] in
  if (1000 <? Z.of_nat (length samples')) then tail samples' else samples'.

(** The statistics update of [allowRequest] (190-195, 210). *)
Definition record_outcome (allowed : bool) (latency : Q) (s : Statistics)
  : Statistics :=
  {| st_totalRequests := wrap64 (st_totalRequests s + 1);
     st_acceptedRequests :=
       if allowed then wrap64 (st_acceptedRequests s + 1) else st_acceptedRequests s;
     st_rejectedRequests :=
       if allowed then st_rejectedRequests s else wrap64 (st_rejectedRequests s + 1);
     st_totalLatency := (st_totalLatency s + latency)%Q;
     st_activeClients := st_activeClients s |}.

(** [allowRequest] (183-220).  [t_start] and [t_end] are the two readings of
    the high-resolution clock, [t_create] and [t_consume] those of the
    steady clock inside [getOrCreateBucket] and [consume]. *)
Definition allowRequest (t_start t_create t_consume t_end : Z)
    (clientId : string) (rl : t) : bool * t :=
  let '(allowed, rl1) := allowRequestInternal t_create t_consume clientId rl in
  if enableMetrics (config_ rl1) then
    let latency := millis (t_end - t_start) in
    (allowed,
     {| clients_ := clients_ rl1;
        config_ := config_ rl1;
        stats_ := record_outcome allowed latency (stats_ rl1);
        latencyMeasurements_ := push_latency latency (latencyMeasurements_ rl1) |})
  else (allowed, rl1).

(** [updateClientLimit] (227-233). *)
Definition updateClientLimit (clientId : string) (bucketSize : Z)
    (refillRate : Q) (rl : t) : t :=
  {| clients_ := delete clientId (clients_ rl);
     config_ :=
       {| defaultBucketSize := defaultBucketSize (config_ rl);
          defaultRefillRate := defaultRefillRate (config_ rl);
          cleanupInterval := cleanupInterval (config_ rl);
          enableMetrics := enableMetrics (config_ rl);
          enableLogging := enableLogging (config_ rl);
          maxClients := maxClients (config_ rl);
          timeoutMs := timeoutMs (config_ rl);
          clientLimits := <[clientId := (bucketSize, refillRate)]>
                            (clientLimits (config_ rl)) |};
     stats_ := stats_ rl;
     latencyMeasurements_ := latencyMeasurements_ rl |}.

(** [removeClient] (235-240): [erase] reports whether an entry was removed. *)
Definition removeClient (clientId : string) (rl : t) : t :=
  match clients_ rl !! clientId with
  | Some _ =>
      {| clients_ := delete clientId (clients_ rl);
         config_ := config_ rl;
         stats_ := set_activeClients (wrap64 (st_activeClients (stats_ rl) - 1))
                     (stats_ rl);
         latencyMeasurements_ := latencyMeasurements_ rl |}
  | None => rl
  end.

(** [getStatistics] (242-244). *)
Definition getStatistics (rl : t) : Statistics := stats_ rl.

(** [getClientStatistics] (246-256).  The cell's own [getStatistics]
    refills it, so the limiter afterwards is returned too. *)
Definition getClientStatistics (now : Z) (clientId : string) (rl : t)
  : ClientStatistics * t :=
  match clients_ rl !! clientId with
  | Some b =>
      let '(cs, b') := TokenBucket.getStatistics now b in
      (cs, set_clients (<[clientId := b']> (clients_ rl)) rl)
  | None =>
      ({| tokensRemaining := 0;
          bucketSize := defaultBucketSize (config_ rl);
          refillRate := defaultRefillRate (config_ rl);
          totalRequests := 0;
          acceptedRequests := 0;
          lastRefill := now |},
       rl)
  end.

(** [getActiveClients] (258-268); the order is the map's. *)
Definition getActiveClients (rl : t) : list string :=
  (map_to_list (clients_ rl)).*1.

(** The percentiles reported, in the order of the initialiser list
    (285-291): P50, P90, P95, P99, P99.9. *)
Definition P50 : Q := 50.
Definition P90 : Q := 90.
Definition P95 : Q := 95.
Definition P99 : Q := 99.
Definition P999 : Q := 999 # 10.

(** The index computed by the [getPercentile] lambda (281). *)
Definition percentile_index (percentile : Q) (size : nat) : Z :=
  to_size_t ((percentile / 100) * to_double (wrap64 (Z.of_nat size - 1)))%Q.

(** The [getPercentile] lambda (280-283).  [measurements[index]] has no
    defined value outside the vector: [None]. *)
Definition getPercentile (measurements : list Q) (percentile : Q) : option Q :=
  measurements !! Z.to_nat (percentile_index percentile (length measurements)).

(** [getLatencyPercentiles] (270-292).  The method is [const] and sorts a
    copy, so it yields a value only. *)
Definition getLatencyPercentiles (rl : t) : option (list Q) :=
  match latencyMeasurements_ rl with
  | [] => Some [0; 0; 0; 0; 0]%Q
  | _ :: _ =>
      let measurements := merge_sort Qle (latencyMeasurements_ rl) in
      p50 ← getPercentile measurements P50;
      p90 ← getPercentile measurements P90;
      p95 ← getPercentile measurements P95;
      p99 ← getPercentile measurements P99;
      p999 ← getPercentile measurements P999;
      Some [p50; p90; p95; p99; p999]
  end.

(** [cleanup] (294-308): every cell last refilled before the threshold is
    erased, with one decrement of [activeClients] per erased cell. *)
Definition cleanup (now : Z) (rl : t) : t :=
  let threshold := now - cleanupInterval (config_ rl) * Z.pos ticks_per_second in
  let kept :=
    filter (fun kb => ¬ (TokenBucket.getLastAccess kb.2 < threshold)) (clients_ rl) in
  let erased := Z.of_nat (size (clients_ rl)) - Z.of_nat (size kept) in
  {| clients_ := kept;
     config_ := config_ rl;
     stats_ := set_activeClients (wrap64 (st_activeClients (stats_ rl) - erased))
                 (stats_ rl);
     latencyMeasurements_ := latencyMeasurements_ rl |}.

(** [reset] (310-328).  Each cell's [reset] reads the clock itself:
    [clk id] is the reading taken for the cell of [id]. *)
Definition reset (clk : string -> Z) (rl : t) : t :=
  {| clients_ := map_imap (fun id b => Some (TokenBucket.reset (clk id) b)) (clients_ rl);
     config_ := config_ rl;
     stats_ :=
       {| st_totalRequests := 0;
          st_acceptedRequests := 0;
          st_rejectedRequests := 0;
          st_totalLatency := 0;
          st_activeClients := st_activeClients (stats_ rl) |};
     latencyMeasurements_ := [] |}.

(** *** The limiter as a state machine *)

(** The public operations that change the limiter. *)
Inductive op :=
| AllowRequest (t_start t_create t_consume t_end : Z) (clientId : string)
| AllowRequests (t_create t_consume : Z) (clientId : string) (count : Z)
| UpdateClientLimit (clientId : string) (bucketSize : Z) (refillRate : Q)
| RemoveClient (clientId : string)
| GetClientStatistics (now : Z) (clientId : string)
| Cleanup (now : Z)
| Reset (clk : string -> Z).

Definition step (o : op) (rl : t) : t :=
  match o with
  | AllowRequest ts tc tn te id => (allowRequest ts tc tn te id rl).2
  | AllowRequests tc tn id n => (allowRequests tc tn id n rl).2
  | UpdateClientLimit id c r => updateClientLimit id c r rl
  | RemoveClient id => removeClient id rl
  | GetClientStatistics now id => (getClientStatistics now id rl).2
  | Cleanup now => cleanup now rl
  | Reset clk => reset clk rl
  end.

(** The states a limiter constructed from [config] can be in. *)
Inductive reachable (config : RateLimiterConfig) : t -> Prop :=
| reachable_ctor rl : ctor config = Some rl -> reachable config rl
| reachable_step o rl : reachable config rl -> reachable config (step o rl).

End RateLimiter.

(** ** The percentile rank of the specification *)

(** Nearest rank, zero-indexed: [floor((p/100) * (count - 1))]. *)
Definition nearest_rank (p : Q) (count : nat) : nat :=
  Z.to_nat (Qfloor ((p / 100) * inject_Z (Z.of_nat count - 1))%Q).

(** A percentile lies between 0 and 100. *)
Definition is_percentile (p : Q) : Prop := (0 <= p)%Q /\ (p <= 100)%Q.

(** ** The rank computation in IEEE binary64 *)

Module Binary64.

(** [static_cast<size_t>(x)] for a finite [x]: the integer part. *)
Definition to_size_t (x : float) : option Z :=
  match Prim2SF x with
  | S754_zero _ => Some 0
  | S754_finite s m e =>
      let magnitude :=
        match e with
        | Z0 => Z.pos m
        | Z.pos k => Z.pos m * 2 ^ Z.pos k
        | Z.neg k => Z.pos m / 2 ^ Z.pos k
        end in
      Some (if s then - magnitude else magnitude)
  | S754_infinity _ | S754_nan => None
  end.

(** The five percentile constants as the compiler reads them. *)
Definition P50 : float := 50.
Definition P90 : float := 90.
Definition P95 : float := 95.
Definition P99 : float := 99.
Definition P999 : float := 0x1.8f9999999999ap+6.

(** [static_cast<size_t>((percentile / 100.0) * (size - 1))] (281), for a
    vector of [size] elements, [1 <= size < 2^63]. *)
Definition percentile_index (percentile : float) (size : nat) : option Z :=
  to_size_t
    (PrimFloat.mul (PrimFloat.div percentile 100)
       (PrimFloat.of_uint63 (Uint63.of_Z (Z.of_nat size - 1)))).

(** Whether the binary64 index and the exact one agree on every size in
    [1 .. bound]. *)
Definition agrees_upto (percentile : float) (exact : Q) (bound : nat) : bool :=
  forallb
    (fun size =>
       match percentile_index percentile size with
       | Some i => i =? RateLimiter.percentile_index exact size
       | None => false
       end)
    (seq 1 bound).

End Binary64.

(** ** Binary64 rounding

    [SpecFloat] rounds in two steps: the mantissa is shifted right to the
    53 bits of the format ([shifted]), incremented or not according to the
    bits shifted out, and shifted once more if the increment carried; the
    result is packed ([finish]).  The exponent of a number of magnitude
    [2^x] is [fexp64 x]. *)

(** The exponent of the binary64 numbers of magnitude [2^x]:
    [fexp prec emax], with 53 bits of precision and the least exponent
    -1074. *)
Definition fexp64 (x : Z) : Z := Z.max (x - 53) (-1074).

(** The mantissa [m] at exponent [e], shifted right to the exponent of its
    magnitude; the bits shifted out are dropped. *)
Definition shifted (m e : Z) : Z * Z :=
  let n := fexp64 (Zdigits2 m + e) - e in
  if 0 <? n then (m / 2 ^ n, e + n) else (m, e).

(** A rounded mantissa packed as a float: zero, finite, or infinite when
    the exponent is beyond the largest one. *)
Definition finish (s : bool) (m e : Z) : spec_float :=
  match m with
  | Z0 => S754_zero s
  | Z.pos p => if e <=? 971 then S754_finite s p e else S754_infinity s
  | Z.neg _ => S754_nan
  end.

(** The sign of a binary64 value that has one. *)
Definition has_sign (s : bool) (x : spec_float) : Prop :=
  match x with
  | S754_zero s' | S754_infinity s' | S754_finite s' _ _ => s' = s
  | S754_nan => False
  end.

(** Neither an infinity nor a NaN. *)
Definition finite_sf (x : spec_float) : Prop :=
  match x with
  | S754_zero _ | S754_finite _ _ _ => True
  | S754_infinity _ | S754_nan => False
  end.

(** Zero of either sign, positive finite, or plus infinity: [0 <= x]. *)
Definition nonneg_sf (x : spec_float) : Prop :=
  match x with
  | S754_zero _ | S754_finite false _ _ | S754_infinity false => True
  | _ => False
  end.

(** The integer [k] rounded to binary64 (to nearest, ties to even). *)
Definition N64 (k : Z) : spec_float := binary_normalize prec emax k 0 false.

(** ** The quota cell in IEEE binary64 *)

Module TokenBucket64.

(** [static_cast<double>(n)] for an integer [n]: [n] rounded to the nearest
    binary64 value, ties to even. *)
Definition to_double (n : Z) : float := SF2Prim (N64 n).

(** [std::min(a, b)] is [(b < a) ? b : a]. *)
Definition std_min (a b : float) : float := if (b <? a)%float then b else a.

(** [std::chrono::duration<double>(d).count()] for a difference [d] of two
    clock readings: the tick count, converted, divided by [1e9]. *)
Definition seconds (d : Z) : float := (to_double d / 1000000000)%float.

(** [static_cast<size_t>(x)]: the integer part of [x], when that is a
    [size_t]; the conversion has no defined result otherwise. *)
Definition to_size_t (x : float) : option Z :=
  match Binary64.to_size_t x with
  | Some z => if (0 <=? z) && (z <=? SIZE_MAX) then Some z else None
  | None => None
  end.

Record t := mk {
  tokens_ : float;
  bucketSize_ : Z;
  refillRate_ : float;
  lastRefill_ : Z;
  totalRequests_ : Z;
  acceptedRequests_ : Z
}.

(** What [getStatistics] returns. *)
Record view := mkView {
  tokensRemaining : option Z;
  bucketSize : Z;
  refillRate : float;
  totalRequests : Z;
  acceptedRequests : Z;
  lastRefill : Z
}.

(** The constructor (89-92); [now] is the clock reading it takes. *)
Definition new (now : Z) (bucketSize : Z) (refillRate : float) : t :=
  {| tokens_ := to_double bucketSize;
     bucketSize_ := bucketSize;
     refillRate_ := refillRate;
     lastRefill_ := now;
     totalRequests_ := 0;
     acceptedRequests_ := 0 |}.

(** [refillTokens] (139-148). *)
Definition refillTokens (now : Z) (b : t) : t :=
  let timePassed := seconds (now - lastRefill_ b) in
  if (0 <? timePassed)%float then
    let tokensToAdd := (timePassed * refillRate_ b)%float in
    {| tokens_ := std_min (tokens_ b + tokensToAdd)%float (to_double (bucketSize_ b));
       bucketSize_ := bucketSize_ b;
       refillRate_ := refillRate_ b;
       lastRefill_ := now;
       totalRequests_ := totalRequests_ b;
       acceptedRequests_ := acceptedRequests_ b |}
  else b.

(** [consume] (94-107): the verdict and the cell afterwards.  The comparison
    [tokens_ >= tokensNeeded] converts [tokensNeeded] to [double]. *)
Definition consume (now : Z) (tokensNeeded : Z) (b : t) : bool * t :=
  let b1 := refillTokens now b in
  let total := wrap64 (totalRequests_ b1 + 1) in
  if (to_double tokensNeeded <=? tokens_ b1)%float then
    (true,
     {| tokens_ := (tokens_ b1 - to_double tokensNeeded)%float;
        bucketSize_ := bucketSize_ b1;
        refillRate_ := refillRate_ b1;
        lastRefill_ := lastRefill_ b1;
        totalRequests_ := total;
        acceptedRequests_ := wrap64 (acceptedRequests_ b1 + 1) |})
  else
    (false,
     {| tokens_ := tokens_ b1;
        bucketSize_ := bucketSize_ b1;
        refillRate_ := refillRate_ b1;
        lastRefill_ := lastRefill_ b1;
        totalRequests_ := total;
        acceptedRequests_ := acceptedRequests_ b1 |}).

(** [getStatistics] (109-123): the view and the cell afterwards. *)
Definition getStatistics (now : Z) (b : t) : view * t :=
  let b1 := refillTokens now b in
  ({| tokensRemaining := to_size_t (tokens_ b1);
      bucketSize := bucketSize_ b1;
      refillRate := refillRate_ b1;
      totalRequests := totalRequests_ b1;
      acceptedRequests := acceptedRequests_ b1;
      lastRefill := lastRefill_ b1 |},
   b1).

(** [reset] (125-131). *)
Definition reset (now : Z) (b : t) : t :=
  {| tokens_ := to_double (bucketSize_ b);
     bucketSize_ := bucketSize_ b;
     refillRate_ := refillRate_ b;
     lastRefill_ := now;
     totalRequests_ := 0;
     acceptedRequests_ := 0 |}.

(** [getLastAccess] (133-136). *)
Definition getLastAccess (b : t) : Z := lastRefill_ b.

(** The data-model invariant [0 <= tokens <= capacity], with the comparisons
    of the machine and the capacity converted as the program converts it. *)
Definition tokens_in_range (b : t) : Prop :=
  (0 <=? tokens_ b)%float = true /\
  (tokens_ b <=? to_double (bucketSize_ b))%float = true.

(** A difference of two clock readings that fits the clock's 64-bit tick
    count. *)
Definition in_int64 (d : Z) : Prop := - 2 ^ 63 <= d < 2 ^ 63.

(** [consume(1)] at each of the clock readings [nows], in order: the
    verdicts and the final cell. *)
Fixpoint consume_each (nows : list Z) (b : t) : list bool * t :=
  match nows with
  | [] => ([], b)
  | now :: rest =>
      let '(ok, b1) := consume now 1 b in
      let '(oks, b2) := consume_each rest b1 in
      (ok :: oks, b2)
  end.

(** The exact value of a finite level, as a rational in lowest terms. *)
Definition exact (x : float) : option Q :=
  match Prim2SF x with
  | S754_zero _ => Some 0%Q
  | S754_finite s m e =>
      let v := match e with
               | Z0 => inject_Z (Z.pos m)
               | Z.pos k => inject_Z (Z.pos m * 2 ^ Z.pos k)
               | Z.neg k => Z.pos m # 2 ^ k
               end in
      Some (Qred (if s then Qopp v else v))
  | S754_infinity _ | S754_nan => None
  end.

End TokenBucket64.

(** ** Binary64 cells used as test inputs *)

Module Cells64.

(** The default limits, capacity 100 and 10 tokens per second: a cell
    created at tick 0 and emptied by one [consume(100)] at tick 0. *)
Definition drained : TokenBucket64.t :=
  (TokenBucket64.consume 0 100 (TokenBucket64.new 0 100 10)).2.

(** A cell of capacity 5 and rate 1/2 token per second, created at tick 0,
    after one accepted request at tick 0. *)
Definition used_cell : TokenBucket64.t :=
  (TokenBucket64.consume 0 1 (TokenBucket64.new 0 5 0.5)).2.

End Cells64.

(** ** Concrete limiters used as test inputs *)

Module Examples.

(** A limiter in its initial state, from a configuration. *)
Definition fresh (config : RateLimiterConfig) : RateLimiter.t :=
  default
    {| RateLimiter.clients_ := ∅; RateLimiter.config_ := config;
       RateLimiter.stats_ := RateLimiter.zero_stats;
       RateLimiter.latencyMeasurements_ := [] |}
    (RateLimiter.ctor config).

Definition with_maxClients (n : Z) : RateLimiterConfig :=
  {| defaultBucketSize := defaultBucketSize default_config;
     defaultRefillRate := defaultRefillRate default_config;
     cleanupInterval := cleanupInterval default_config;
     enableMetrics := enableMetrics default_config;
     enableLogging := enableLogging default_config;
     maxClients := n;
     timeoutMs := timeoutMs default_config;
     clientLimits := clientLimits default_config |}.

(** One client, ["a"], after one request: one registered cell. *)
Definition one_client : RateLimiter.t :=
  (RateLimiter.allowRequest 0 10 20 30 "a" (fresh default_config)).2.

(** The same, in a registry that holds at most one client. *)
Definition full_registry : RateLimiter.t :=
  (RateLimiter.allowRequest 0 10 20 30 "a" (fresh (with_maxClients 1))).2.

(** A configuration with a zero default capacity, a negative default refill
    rate and an override with zero capacity and zero rate. *)
Definition invalid_config : RateLimiterConfig :=
  {| defaultBucketSize := 0;
     defaultRefillRate := (-1)%Q;
     cleanupInterval := cleanupInterval default_config;
     enableMetrics := enableMetrics default_config;
     enableLogging := enableLogging default_config;
     maxClients := maxClients default_config;
     timeoutMs := timeoutMs default_config;
     clientLimits := {[ "vip" := (0, 0%Q) ]} |}.

(** [n] requests of one client, the [k]-th with all its clock readings at
    tick [k]: the verdicts and the limiter afterwards. *)
Fixpoint requests (n : nat) (tick : Z) (clientId : string) (rl : RateLimiter.t)
  : list bool * RateLimiter.t :=
  match n with
  | O => ([], rl)
  | S n' =>
      let '(ok, rl1) := RateLimiter.allowRequest tick tick tick tick clientId rl in
      let '(oks, rl2) := requests n' (tick + 1) clientId rl1 in
      (ok :: oks, rl2)
  end.

(** The scenario of a limiter of capacity 5 and rate 0. *)
Definition capacity5 : RateLimiter.t :=
  default (fresh default_config) (RateLimiter.ctor_sized 5 0).

(** A limiter holding the three samples 3 ms, 1 ms, 2 ms, in arrival order. *)
Definition three_samples : RateLimiter.t :=
  {| RateLimiter.clients_ := ∅; RateLimiter.config_ := default_config;
     RateLimiter.stats_ := RateLimiter.zero_stats;
     RateLimiter.latencyMeasurements_ := [3; 1; 2]%Q |}.

End Examples.

(** ** Further test inputs *)

Module Samples.

(** A cell of capacity 5 and rate 1/2 token per second, created at tick 0,
    after one accepted request at tick 0. *)
Definition used_cell : TokenBucket.t :=
  (TokenBucket.consume 0 1 (TokenBucket.new 0 5 (1 # 2))).2.

(** One second, in ticks. *)
Definition second : Z := Z.pos ticks_per_second.

(** Two clients: ["a"] seen at tick 10, ["b"] seen 400 seconds later. *)
Definition two_clients : RateLimiter.t :=
  (RateLimiter.allowRequest (400 * second) (400 * second) (400 * second)
     (400 * second + 5) "b" Examples.one_client).2.

(** A limiter with metrics switched off. *)
Definition no_metrics : RateLimiterConfig :=
  {| defaultBucketSize := defaultBucketSize default_config;
     defaultRefillRate := defaultRefillRate default_config;
     cleanupInterval := cleanupInterval default_config;
     enableMetrics := false;
     enableLogging := enableLogging default_config;
     maxClients := maxClients default_config;
     timeoutMs := timeoutMs default_config;
     clientLimits := clientLimits default_config |}.

End Samples.

(** The operations other than [updateClientLimit]. *)
Definition keeps_limits (o : RateLimiter.op) : Prop :=
  match o with
  | RateLimiter.UpdateClientLimit _ _ _ => False
  | _ => True
  end.

(** * Proofs *)

(** ** Comparisons on doubles *)

Lemma Qltb_true (a b : Q) : Qltb a b = true <-> (a < b)%Q.
Proof.
  unfold Qltb. rewrite negb_true_iff, <- not_true_iff_false, Qle_bool_iff.
  split; [apply Qnot_le_lt | apply Qlt_not_le].
Qed.

Lemma Qltb_false (a b : Q) : Qltb a b = false <-> (b <= a)%Q.
Proof. unfold Qltb. rewrite negb_false_iff. apply Qle_bool_iff. Qed.

Lemma Qgeb_true (a b : Q) : Qgeb a b = true <-> (b <= a)%Q.
Proof. apply Qle_bool_iff. Qed.

Lemma Qgeb_false (a b : Q) : Qgeb a b = false <-> (a < b)%Q.
Proof.
  unfold Qgeb. rewrite <- not_true_iff_false, Qle_bool_iff.
  split; [apply Qnot_le_lt | apply Qlt_not_le].
Qed.

Lemma std_min_le_r (a b : Q) : (std_min a b <= b)%Q.
Proof.
  unfold std_min. destruct (Qltb b a) eqn:E; [apply Qle_refl |].
  now apply Qltb_false in E.
Qed.

Lemma std_min_glb (a b c : Q) : (c <= a)%Q -> (c <= b)%Q -> (c <= std_min a b)%Q.
Proof. unfold std_min. now destruct (Qltb b a). Qed.

Lemma seconds_pos (d : Z) : (0 < seconds d)%Q <-> 0 < d.
Proof. unfold seconds, Qlt. simpl. lia. Qed.

Lemma to_double_nonneg (n : Z) : 0 <= n -> (0 <= to_double n)%Q.
Proof. unfold to_double, Qle. simpl. lia. Qed.

Lemma wrap64_small (z : Z) : 0 <= z <= SIZE_MAX -> wrap64 z = z.
Proof. unfold wrap64, SIZE_MAX. intros H. apply Z.mod_small. lia. Qed.

(** ** The quota cell *)

Section TokenBucketProofs.

Implicit Types (b : TokenBucket.t) (now n : Z).

(** The replenishment pass is skipped when no time has passed. *)
Lemma refillTokens_skip now b :
  now <= TokenBucket.lastRefill_ b -> TokenBucket.refillTokens now b = b.
Proof.
  intros H. unfold TokenBucket.refillTokens.
  destruct (Qltb 0 _) eqn:E; [| reflexivity].
  apply Qltb_true in E. apply (proj1 (seconds_pos _)) in E. lia.
Qed.

(** Otherwise it adds [elapsed * refillRate], clamped to the capacity. *)
Lemma refillTokens_fill now b :
  TokenBucket.lastRefill_ b < now ->
  TokenBucket.refillTokens now b =
    {| TokenBucket.tokens_ :=
         std_min (TokenBucket.tokens_ b +
                  seconds (now - TokenBucket.lastRefill_ b) * TokenBucket.refillRate_ b)%Q
                 (to_double (TokenBucket.bucketSize_ b));
       TokenBucket.bucketSize_ := TokenBucket.bucketSize_ b;
       TokenBucket.refillRate_ := TokenBucket.refillRate_ b;
       TokenBucket.lastRefill_ := now;
       TokenBucket.totalRequests_ := TokenBucket.totalRequests_ b;
       TokenBucket.acceptedRequests_ := TokenBucket.acceptedRequests_ b |}.
Proof.
  intros H. unfold TokenBucket.refillTokens.
  destruct (Qltb 0 _) eqn:E; [reflexivity |].
  apply Qltb_false in E.
  assert (0 < seconds (now - TokenBucket.lastRefill_ b))%Q by (apply seconds_pos; lia).
  exfalso. eapply Qlt_not_le; eassumption.
Qed.

(** The pass touches neither the parameters nor the counters. *)
Lemma refillTokens_frame now b :
  TokenBucket.bucketSize_ (TokenBucket.refillTokens now b) = TokenBucket.bucketSize_ b /\
  TokenBucket.refillRate_ (TokenBucket.refillTokens now b) = TokenBucket.refillRate_ b /\
  TokenBucket.totalRequests_ (TokenBucket.refillTokens now b) = TokenBucket.totalRequests_ b /\
  TokenBucket.acceptedRequests_ (TokenBucket.refillTokens now b)
    = TokenBucket.acceptedRequests_ b.
Proof. unfold TokenBucket.refillTokens. destruct (Qltb 0 _); simpl; auto. Qed.

(** One [consume], case by case. *)
Lemma consume_accept now n b :
  (to_double n <= TokenBucket.tokens_ (TokenBucket.refillTokens now b))%Q ->
  TokenBucket.consume now n b =
    (true,
     let b1 := TokenBucket.refillTokens now b in
     {| TokenBucket.tokens_ := (TokenBucket.tokens_ b1 - to_double n)%Q;
        TokenBucket.bucketSize_ := TokenBucket.bucketSize_ b1;
        TokenBucket.refillRate_ := TokenBucket.refillRate_ b1;
        TokenBucket.lastRefill_ := TokenBucket.lastRefill_ b1;
        TokenBucket.totalRequests_ := wrap64 (TokenBucket.totalRequests_ b1 + 1);
        TokenBucket.acceptedRequests_ := wrap64 (TokenBucket.acceptedRequests_ b1 + 1) |}).
Proof.
  intros H. unfold TokenBucket.consume.
  apply Qgeb_true in H. now rewrite H.
Qed.

Lemma consume_reject now n b :
  (TokenBucket.tokens_ (TokenBucket.refillTokens now b) < to_double n)%Q ->
  TokenBucket.consume now n b =
    (false,
     let b1 := TokenBucket.refillTokens now b in
     {| TokenBucket.tokens_ := TokenBucket.tokens_ b1;
        TokenBucket.bucketSize_ := TokenBucket.bucketSize_ b1;
        TokenBucket.refillRate_ := TokenBucket.refillRate_ b1;
        TokenBucket.lastRefill_ := TokenBucket.lastRefill_ b1;
        TokenBucket.totalRequests_ := wrap64 (TokenBucket.totalRequests_ b1 + 1);
        TokenBucket.acceptedRequests_ := TokenBucket.acceptedRequests_ b1 |}).
Proof.
  intros H. unfold TokenBucket.consume.
  apply Qgeb_false in H. now rewrite H.
Qed.

Lemma consume_verdict now n b :
  (TokenBucket.consume now n b).1 = false <->
  (TokenBucket.tokens_ (TokenBucket.refillTokens now b) < to_double n)%Q.
Proof.
  unfold TokenBucket.consume. destruct (Qgeb _ _) eqn:E; simpl.
  - apply Qgeb_true in E. split; [discriminate |].
    intros H. exfalso. eapply Qlt_not_le; eassumption.
  - apply Qgeb_false in E. tauto.
Qed.

End TokenBucketProofs.

(** ** The registry *)

Section RegistryProofs.

Implicit Types (rl : RateLimiter.t) (id : string) (b : TokenBucket.t).

(** The three outcomes of [getOrCreateBucket]. *)
Lemma getOrCreateBucket_found now id rl b :
  RateLimiter.clients_ rl !! id = Some b ->
  RateLimiter.getOrCreateBucket now id rl = (Some b, rl).
Proof. intros H. unfold RateLimiter.getOrCreateBucket. now rewrite H. Qed.

Lemma getOrCreateBucket_full now id rl :
  RateLimiter.clients_ rl !! id = None ->
  maxClients (RateLimiter.config_ rl) <= RateLimiter.registry_size rl ->
  RateLimiter.getOrCreateBucket now id rl = (None, rl).
Proof.
  intros H Hfull. unfold RateLimiter.getOrCreateBucket. rewrite H.
  destruct (Z.leb_spec (maxClients (RateLimiter.config_ rl)) (RateLimiter.registry_size rl));
    [reflexivity | lia].
Qed.

Lemma getOrCreateBucket_create now id rl :
  RateLimiter.clients_ rl !! id = None ->
  RateLimiter.registry_size rl < maxClients (RateLimiter.config_ rl) ->
  RateLimiter.getOrCreateBucket now id rl =
    (let limit := RateLimiter.client_limit (RateLimiter.config_ rl) id in
     let bucket := TokenBucket.new now limit.1 limit.2 in
     (Some bucket,
      {| RateLimiter.clients_ := <[id := bucket]> (RateLimiter.clients_ rl);
         RateLimiter.config_ := RateLimiter.config_ rl;
         RateLimiter.stats_ :=
           RateLimiter.set_activeClients
             (wrap64 (st_activeClients (RateLimiter.stats_ rl) + 1))
             (RateLimiter.stats_ rl);
         RateLimiter.latencyMeasurements_ := RateLimiter.latencyMeasurements_ rl |})).
Proof.
  intros H Hroom. unfold RateLimiter.getOrCreateBucket. rewrite H.
  destruct (Z.leb_spec (maxClients (RateLimiter.config_ rl)) (RateLimiter.registry_size rl));
    [lia |].
  now destruct (RateLimiter.client_limit (RateLimiter.config_ rl) id).
Qed.

(** A returned cell is the registry's entry for the client. *)
Lemma getOrCreateBucket_entry now id rl b rl1 :
  RateLimiter.getOrCreateBucket now id rl = (Some b, rl1) ->
  RateLimiter.clients_ rl1 !! id = Some b.
Proof.
  unfold RateLimiter.getOrCreateBucket.
  destruct (RateLimiter.clients_ rl !! id) as [b0 |] eqn:E.
  - intros [= <- <-]. exact E.
  - destruct (_ <=? _); [discriminate |].
    destruct (RateLimiter.client_limit _ _) as [c r].
    intros [= <- <-]. cbn. apply lookup_insert_eq.
Qed.

(** [nullptr] is returned exactly for a new client at the cap. *)
Lemma getOrCreateBucket_None now id rl :
  (RateLimiter.getOrCreateBucket now id rl).1 = None <->
  RateLimiter.clients_ rl !! id = None /\
  maxClients (RateLimiter.config_ rl) <= RateLimiter.registry_size rl.
Proof.
  unfold RateLimiter.getOrCreateBucket.
  destruct (RateLimiter.clients_ rl !! id) as [b0 |] eqn:E; cbn.
  - split; [discriminate | intros [? _]; discriminate].
  - destruct (Z.leb_spec (maxClients (RateLimiter.config_ rl)) (RateLimiter.registry_size rl)).
    + cbn. tauto.
    + destruct (RateLimiter.client_limit _ _). cbn. split; [discriminate | lia].
Qed.

(** [getOrCreateBucket] changes neither the configuration nor the samples,
    and the registry grows by at most the requested client. *)
Lemma getOrCreateBucket_config now id rl :
  RateLimiter.config_ (RateLimiter.getOrCreateBucket now id rl).2 = RateLimiter.config_ rl.
Proof.
  unfold RateLimiter.getOrCreateBucket.
  destruct (RateLimiter.clients_ rl !! id); [reflexivity |].
  destruct (_ <=? _); [reflexivity |].
  now destruct (RateLimiter.client_limit _ _).
Qed.

Lemma getOrCreateBucket_other now id id' rl :
  id <> id' ->
  RateLimiter.clients_ (RateLimiter.getOrCreateBucket now id rl).2 !! id'
  = RateLimiter.clients_ rl !! id'.
Proof.
  intros Hne. unfold RateLimiter.getOrCreateBucket.
  destruct (RateLimiter.clients_ rl !! id); [reflexivity |].
  destruct (_ <=? _); [reflexivity |].
  destruct (RateLimiter.client_limit _ _). cbn. now apply lookup_insert_ne.
Qed.

Lemma getOrCreateBucket_bounded now id rl :
  RateLimiter.registry_bounded rl ->
  RateLimiter.registry_bounded (RateLimiter.getOrCreateBucket now id rl).2.
Proof.
  unfold RateLimiter.registry_bounded, RateLimiter.registry_size, RateLimiter.getOrCreateBucket.
  intros Hb.
  destruct (RateLimiter.clients_ rl !! id) eqn:E; [exact Hb |].
  destruct (Z.leb_spec (maxClients (RateLimiter.config_ rl))
              (RateLimiter.registry_size rl)) as [Hfull | Hroom]; [exact Hb |].
  destruct (RateLimiter.client_limit _ _). cbn.
  rewrite map_size_insert_None by exact E.
  unfold RateLimiter.registry_size in Hroom. lia.
Qed.

End RegistryProofs.

(** ** Admission *)

Section AdmissionProofs.

Implicit Types (rl : RateLimiter.t) (id : string) (b : TokenBucket.t).

Lemma allowRequests_unfold tc tn id n rl :
  RateLimiter.allowRequests tc tn id n rl =
    match (RateLimiter.getOrCreateBucket tc id rl).1 with
    | Some b =>
        ((TokenBucket.consume tn n b).1,
         RateLimiter.set_clients
           (<[id := (TokenBucket.consume tn n b).2]>
              (RateLimiter.clients_ (RateLimiter.getOrCreateBucket tc id rl).2))
           (RateLimiter.getOrCreateBucket tc id rl).2)
    | None => (false, (RateLimiter.getOrCreateBucket tc id rl).2)
    end.
Proof.
  unfold RateLimiter.allowRequests.
  destruct (RateLimiter.getOrCreateBucket tc id rl) as [[b |] rl1]; cbn; [| reflexivity].
  now destruct (TokenBucket.consume tn n b).
Qed.

(** A new client at the cap: nothing is consumed and nothing changes. *)
Lemma allowRequests_full tc tn id n rl :
  RateLimiter.clients_ rl !! id = None ->
  maxClients (RateLimiter.config_ rl) <= RateLimiter.registry_size rl ->
  RateLimiter.allowRequests tc tn id n rl = (false, rl).
Proof.
  intros H Hfull. rewrite allowRequests_unfold.
  now rewrite (getOrCreateBucket_full tc id rl H Hfull).
Qed.

Lemma allowRequests_config tc tn id n rl :
  RateLimiter.config_ (RateLimiter.allowRequests tc tn id n rl).2 = RateLimiter.config_ rl.
Proof.
  rewrite allowRequests_unfold.
  pose proof (getOrCreateBucket_config tc id rl) as Hc.
  destruct (RateLimiter.getOrCreateBucket tc id rl).1; exact Hc.
Qed.

Lemma allowRequests_samples tc tn id n rl :
  RateLimiter.latencyMeasurements_ (RateLimiter.allowRequests tc tn id n rl).2
  = RateLimiter.latencyMeasurements_ rl.
Proof.
  rewrite allowRequests_unfold. unfold RateLimiter.getOrCreateBucket.
  destruct (RateLimiter.clients_ rl !! id); cbn; [reflexivity |].
  destruct (_ <=? _); cbn; [reflexivity |].
  now destruct (RateLimiter.client_limit _ _).
Qed.

Lemma allowRequests_bounded tc tn id n rl :
  RateLimiter.registry_bounded rl ->
  RateLimiter.registry_bounded (RateLimiter.allowRequests tc tn id n rl).2.
Proof.
  intros Hb. rewrite allowRequests_unfold.
  pose proof (getOrCreateBucket_bounded tc id rl Hb) as Hb1.
  destruct (RateLimiter.getOrCreateBucket tc id rl) as [[b |] rl1] eqn:E; cbn in *;
    [| exact Hb1].
  apply getOrCreateBucket_entry in E.
  unfold RateLimiter.registry_bounded, RateLimiter.registry_size in *. cbn.
  now rewrite map_size_insert_Some by (rewrite E; eauto).
Qed.

(** The statistics branch of [allowRequest] affects neither the verdict nor
    the registry. *)
Lemma allowRequest_verdict ts tc tn te id rl :
  (RateLimiter.allowRequest ts tc tn te id rl).1
  = (RateLimiter.allowRequests tc tn id 1 rl).1.
Proof.
  unfold RateLimiter.allowRequest, RateLimiter.allowRequestInternal.
  destruct (RateLimiter.allowRequests tc tn id 1 rl) as [allowed rl1].
  now destruct (enableMetrics _).
Qed.

Lemma allowRequest_clients ts tc tn te id rl :
  RateLimiter.clients_ (RateLimiter.allowRequest ts tc tn te id rl).2
  = RateLimiter.clients_ (RateLimiter.allowRequests tc tn id 1 rl).2.
Proof.
  unfold RateLimiter.allowRequest, RateLimiter.allowRequestInternal.
  destruct (RateLimiter.allowRequests tc tn id 1 rl) as [allowed rl1].
  now destruct (enableMetrics _).
Qed.

Lemma allowRequest_config ts tc tn te id rl :
  RateLimiter.config_ (RateLimiter.allowRequest ts tc tn te id rl).2 = RateLimiter.config_ rl.
Proof.
  pose proof (allowRequests_config tc tn id 1 rl) as Hc.
  unfold RateLimiter.allowRequest, RateLimiter.allowRequestInternal.
  destruct (RateLimiter.allowRequests tc tn id 1 rl) as [allowed rl1].
  now destruct (enableMetrics _).
Qed.

Lemma allowRequest_activeClients ts tc tn te id rl :
  st_activeClients (RateLimiter.stats_ (RateLimiter.allowRequest ts tc tn te id rl).2)
  = st_activeClients (RateLimiter.stats_ (RateLimiter.getOrCreateBucket tc id rl).2).
Proof.
  unfold RateLimiter.allowRequest, RateLimiter.allowRequestInternal.
  rewrite allowRequests_unfold.
  destruct (RateLimiter.getOrCreateBucket tc id rl).1; cbn;
    now destruct (enableMetrics _).
Qed.

(** C4. [allowRequest] returns the verdict of [consume(1)] on the client's
    cell when [getOrCreateBucket] yields one, and [false] when it yields
    none, which happens exactly for a new client in a registry at
    [maxClients].  So it returns [false] in exactly two cases, both reported
    by the same value: a new client at the cap, or a cell (found or created)
    whose level after the replenishment pass is below 1. *)
Theorem allowRequest_false_cases ts tc tn te id rl :
  let verdict := (RateLimiter.allowRequest ts tc tn te id rl).1 in
  let bucket := (RateLimiter.getOrCreateBucket tc id rl).1 in
  verdict = match bucket with
            | Some b => (TokenBucket.consume tn 1 b).1
            | None => false
            end /\
  (bucket = None <->
     RateLimiter.clients_ rl !! id = None /\
     maxClients (RateLimiter.config_ rl) <= RateLimiter.registry_size rl) /\
  (verdict = false <->
     (RateLimiter.clients_ rl !! id = None /\
      maxClients (RateLimiter.config_ rl) <= RateLimiter.registry_size rl) \/
     (exists b, bucket = Some b /\
        (TokenBucket.tokens_ (TokenBucket.refillTokens tn b) < to_double 1)%Q)) /\
  (verdict = true <->
     exists b, bucket = Some b /\
       (to_double 1 <= TokenBucket.tokens_ (TokenBucket.refillTokens tn b))%Q).
Proof.
  intros verdict bucket.
  assert (Hv : verdict = match bucket with
                         | Some b => (TokenBucket.consume tn 1 b).1
                         | None => false
                         end).
  { subst verdict bucket. rewrite allowRequest_verdict, allowRequests_unfold.
    now destruct (RateLimiter.getOrCreateBucket tc id rl).1. }
  pose proof (getOrCreateBucket_None tc id rl) as Hnone. fold bucket in Hnone.
  split; [exact Hv |]. split; [exact Hnone |].
  rewrite Hv. clear Hv. destruct bucket as [b |].
  - pose proof (consume_verdict tn 1 b) as Hc. split.
    + split.
      * intros H. right. exists b. split; [reflexivity | now apply Hc].
      * intros [[Hnew Hfull] | (b' & [= <-] & Hlow)]; [| now apply Hc].
        assert (Some b = None) by now apply Hnone. discriminate.
    + split.
      * intros H. exists b. split; [reflexivity |].
        destruct (Qlt_le_dec (TokenBucket.tokens_ (TokenBucket.refillTokens tn b))
                    (to_double 1)) as [Hlow | Hok]; [| exact Hok].
        apply Hc in Hlow. congruence.
      * intros (b' & [= <-] & Hok).
        apply not_false_iff_true. intros E.
        apply Hc in E. eapply Qlt_not_le; eassumption.
  - split.
    + split; [intros _; left; now apply Hnone |]. reflexivity.
    + split; [discriminate | intros (b' & [=] & _)].
Qed.

End AdmissionProofs.

Lemma allowRequest_false_cases_witness :
  (RateLimiter.allowRequest 40 50 60 70 "b" Examples.full_registry).1 = false.
Proof.
  rewrite (proj1 (allowRequest_false_cases 40 50 60 70 "b" Examples.full_registry)).
  vm_compute. reflexivity.
Defined.

(** The scenario of the specification: capacity 5, rate 0, six requests of
    client ["x"], then its statistics. *)
Example scenario_capacity5 :
  let '(verdicts, rl) := Examples.requests 6 1 "x" Examples.capacity5 in
  let view := (RateLimiter.getClientStatistics 10 "x" rl).1 in
  verdicts = [true; true; true; true; true; false] /\
  tokensRemaining view = 0 /\ totalRequests view = 6 /\ acceptedRequests view = 5 /\
  st_totalRequests (RateLimiter.getStatistics rl) = 6 /\
  st_acceptedRequests (RateLimiter.getStatistics rl) = 5 /\
  st_rejectedRequests (RateLimiter.getStatistics rl) = 1 /\
  st_activeClients (RateLimiter.getStatistics rl) = 1.
Proof. vm_compute. repeat split. Qed.

(** ** Invariants of the reachable states *)

Section Invariants.

Implicit Types (rl : RateLimiter.t) (id : string) (o : RateLimiter.op).

Lemma reset_lookup clk rl id :
  RateLimiter.clients_ (RateLimiter.reset clk rl) !! id
  = TokenBucket.reset (clk id) <$> RateLimiter.clients_ rl !! id.
Proof.
  unfold RateLimiter.reset. cbn. rewrite map_lookup_imap.
  now destruct (RateLimiter.clients_ rl !! id).
Qed.

Lemma reset_dom clk rl :
  dom (RateLimiter.clients_ (RateLimiter.reset clk rl)) = dom (RateLimiter.clients_ rl).
Proof.
  apply set_eq. intros id. rewrite !elem_of_dom, reset_lookup.
  apply fmap_is_Some.
Qed.

Lemma reset_size clk rl :
  RateLimiter.registry_size (RateLimiter.reset clk rl) = RateLimiter.registry_size rl.
Proof.
  unfold RateLimiter.registry_size. f_equal.
  rewrite <- !size_dom. now rewrite reset_dom.
Qed.

Lemma cleanup_size now rl :
  RateLimiter.registry_size (RateLimiter.cleanup now rl) <= RateLimiter.registry_size rl.
Proof.
  unfold RateLimiter.registry_size, RateLimiter.cleanup. cbn.
  apply inj_le, map_subseteq_size, map_filter_subseteq.
Qed.

Lemma getClientStatistics_size now id rl :
  RateLimiter.registry_size (RateLimiter.getClientStatistics now id rl).2
  = RateLimiter.registry_size rl.
Proof.
  unfold RateLimiter.registry_size, RateLimiter.getClientStatistics.
  destruct (RateLimiter.clients_ rl !! id) as [b |] eqn:E; [| reflexivity].
  destruct (TokenBucket.getStatistics now b) as [cs b']. cbn.
  now rewrite map_size_insert_Some by (rewrite E; eauto).
Qed.

Lemma getClientStatistics_config now id rl :
  RateLimiter.config_ (RateLimiter.getClientStatistics now id rl).2 = RateLimiter.config_ rl.
Proof.
  unfold RateLimiter.getClientStatistics.
  destruct (RateLimiter.clients_ rl !! id) as [b |]; [| reflexivity].
  now destruct (TokenBucket.getStatistics now b).
Qed.

Lemma removeClient_size id rl :
  RateLimiter.registry_size (RateLimiter.removeClient id rl) <= RateLimiter.registry_size rl.
Proof.
  unfold RateLimiter.registry_size, RateLimiter.removeClient.
  destruct (RateLimiter.clients_ rl !! id) eqn:E; [| lia]. cbn.
  apply inj_le, map_subseteq_size, delete_subseteq.
Qed.

Lemma removeClient_config id rl :
  RateLimiter.config_ (RateLimiter.removeClient id rl) = RateLimiter.config_ rl.
Proof.
  unfold RateLimiter.removeClient. now destruct (RateLimiter.clients_ rl !! id).
Qed.

(** No operation changes [maxClients]. *)
Lemma step_maxClients o rl :
  maxClients (RateLimiter.config_ (RateLimiter.step o rl))
  = maxClients (RateLimiter.config_ rl).
Proof.
  destruct o; cbn [RateLimiter.step].
  - now rewrite allowRequest_config.
  - now rewrite allowRequests_config.
  - reflexivity.
  - now rewrite removeClient_config.
  - now rewrite getClientStatistics_config.
  - reflexivity.
  - reflexivity.
Qed.

(** Every operation keeps the registry within the cap. *)
Lemma step_bounded o rl :
  RateLimiter.registry_bounded rl -> RateLimiter.registry_bounded (RateLimiter.step o rl).
Proof.
  intros Hb. unfold RateLimiter.registry_bounded.
  rewrite step_maxClients. unfold RateLimiter.registry_bounded in Hb.
  destruct o; cbn [RateLimiter.step].
  - pose proof (allowRequests_bounded t_create t_consume clientId 1 rl Hb) as H.
    unfold RateLimiter.registry_bounded in H. rewrite allowRequests_config in H.
    unfold RateLimiter.registry_size in *. now rewrite allowRequest_clients.
  - pose proof (allowRequests_bounded t_create t_consume clientId count rl Hb) as H.
    unfold RateLimiter.registry_bounded in H. now rewrite allowRequests_config in H.
  - etransitivity; [| exact Hb].
    unfold RateLimiter.registry_size, RateLimiter.updateClientLimit. cbn.
    apply inj_le, map_subseteq_size, delete_subseteq.
  - etransitivity; [apply removeClient_size | exact Hb].
  - now rewrite getClientStatistics_size.
  - etransitivity; [apply cleanup_size | exact Hb].
  - now rewrite reset_size.
Qed.

Lemma reachable_bounded (config : RateLimiterConfig) rl :
  0 <= maxClients config ->
  RateLimiter.reachable config rl ->
  maxClients (RateLimiter.config_ rl) = maxClients config /\
  RateLimiter.registry_bounded rl.
Proof.
  intros Hmax Hreach. induction Hreach as [rl Hctor | o rl Hreach [IHc IHb]].
  - injection Hctor as <-. split; [reflexivity |].
    unfold RateLimiter.registry_bounded, RateLimiter.registry_size. cbn.
    rewrite map_size_empty. exact Hmax.
  - split; [now rewrite step_maxClients | now apply step_bounded].
Qed.

(** The sample window never holds more than 1000 samples. *)
Lemma push_latency_length (latency : Q) (samples : list Q) :
  (length samples <= 1000)%nat ->
  (length (RateLimiter.push_latency latency samples) <= 1000)%nat.
Proof.
  intros H. unfold RateLimiter.push_latency.
  destruct (Z.ltb_spec 1000 (Z.of_nat (length (samples ++ [latency])))) as [Hlt | Hge].
  - destruct samples as [| x l]; cbn [app tail length] in *; [lia |].
    rewrite length_app. cbn [length]. lia.
  - lia.
Qed.

Lemma step_samples o rl :
  (length (RateLimiter.latencyMeasurements_ rl) <= 1000)%nat ->
  (length (RateLimiter.latencyMeasurements_ (RateLimiter.step o rl)) <= 1000)%nat.
Proof.
  intros H. destruct o; cbn [RateLimiter.step].
  - pose proof (allowRequests_samples t_create t_consume clientId 1 rl) as Hs.
    unfold RateLimiter.allowRequest, RateLimiter.allowRequestInternal.
    destruct (RateLimiter.allowRequests t_create t_consume clientId 1 rl) as [ok rl1].
    cbn in Hs. destruct (enableMetrics _); cbn.
    + apply push_latency_length. now rewrite Hs.
    + now rewrite Hs.
  - now rewrite allowRequests_samples.
  - exact H.
  - unfold RateLimiter.removeClient. now destruct (RateLimiter.clients_ rl !! clientId).
  - unfold RateLimiter.getClientStatistics.
    destruct (RateLimiter.clients_ rl !! clientId) as [b |]; [| exact H].
    now destruct (TokenBucket.getStatistics now b).
  - exact H.
  - cbn. lia.
Qed.

Lemma reachable_samples (config : RateLimiterConfig) rl :
  RateLimiter.reachable config rl ->
  (length (RateLimiter.latencyMeasurements_ rl) <= 1000)%nat.
Proof.
  induction 1 as [rl Hctor | o rl _ IH].
  - injection Hctor as <-. cbn. lia.
  - now apply step_samples.
Qed.

End Invariants.

(** C3. A limiter never holds more than [maxClients] cells.  In a registry
    that is at the cap, [getOrCreateBucket] for a client without a cell
    returns [nullptr] and leaves the limiter exactly as it was, so no cell is
    created and no other client's cell is evicted; for a client with a cell
    it returns that cell, whatever the cap. *)
Theorem registry_cap :
  (forall (config : RateLimiterConfig) (rl : RateLimiter.t),
     0 <= maxClients config ->
     RateLimiter.reachable config rl ->
     RateLimiter.registry_size rl <= maxClients config) /\
  (forall (now : Z) (id : string) (rl : RateLimiter.t),
     RateLimiter.clients_ rl !! id = None ->
     maxClients (RateLimiter.config_ rl) <= RateLimiter.registry_size rl ->
     RateLimiter.getOrCreateBucket now id rl = (None, rl)) /\
  (forall (now : Z) (id : string) (rl : RateLimiter.t) (b : TokenBucket.t),
     RateLimiter.clients_ rl !! id = Some b ->
     RateLimiter.getOrCreateBucket now id rl = (Some b, rl)).
Proof.
  split; [| split].
  - intros config rl Hmax Hreach.
    destruct (reachable_bounded config rl Hmax Hreach) as [Hc Hb].
    unfold RateLimiter.registry_bounded in Hb. now rewrite Hc in Hb.
  - intros now id rl. apply getOrCreateBucket_full.
  - intros now id rl b. apply getOrCreateBucket_found.
Qed.

Lemma registry_cap_witness :
  RateLimiter.registry_size Examples.full_registry <= 1.
Proof.
  apply (proj1 registry_cap (Examples.with_maxClients 1)).
  - cbn. lia.
  - exact (RateLimiter.reachable_step _ (RateLimiter.AllowRequest 0 10 20 30 "a") _
             (RateLimiter.reachable_ctor _ _ eq_refl)).
Defined.

(** ** Statistics queries, limit updates and reset *)

Section QueryProofs.

Implicit Types (rl : RateLimiter.t) (id : string) (b : TokenBucket.t).

Lemma updateClientLimit_lookup id c r rl :
  RateLimiter.clients_ (RateLimiter.updateClientLimit id c r rl) !! id = None.
Proof. cbn. apply lookup_delete_eq. Qed.

Lemma updateClientLimit_limit id c r rl :
  RateLimiter.client_limit (RateLimiter.config_ (RateLimiter.updateClientLimit id c r rl)) id
  = (c, r).
Proof. unfold RateLimiter.client_limit. cbn. now rewrite lookup_insert_eq. Qed.

Lemma updateClientLimit_size_registered id c r rl b :
  RateLimiter.clients_ rl !! id = Some b ->
  RateLimiter.registry_size (RateLimiter.updateClientLimit id c r rl)
  = RateLimiter.registry_size rl - 1.
Proof.
  intros H. unfold RateLimiter.registry_size. cbn.
  rewrite map_size_delete_Some by (rewrite H; eauto).
  assert (size (RateLimiter.clients_ rl) <> 0%nat).
  { intros Hz. apply map_size_empty_inv in Hz. rewrite Hz in H. discriminate. }
  lia.
Qed.

(** [cleanup] erases as many cells as it decrements [activeClients]. *)
Lemma cleanup_activeClients now rl :
  st_activeClients (RateLimiter.stats_ (RateLimiter.cleanup now rl))
  = wrap64 (st_activeClients (RateLimiter.stats_ rl)
            - (RateLimiter.registry_size rl
               - RateLimiter.registry_size (RateLimiter.cleanup now rl))).
Proof. reflexivity. Qed.

End QueryProofs.

(** C8. For a client without a cell, [getClientStatistics] returns the
    default view (no tokens remaining, no requests, the process-default
    capacity and refill rate) and leaves the limiter as it is; there is no
    failure outcome.  For a registered client it returns the snapshot its
    cell's [getStatistics] takes. *)
Theorem getClientStatistics_view :
  (forall (now : Z) (id : string) (rl : RateLimiter.t),
     RateLimiter.clients_ rl !! id = None ->
     RateLimiter.getClientStatistics now id rl =
       ({| tokensRemaining := 0;
           bucketSize := defaultBucketSize (RateLimiter.config_ rl);
           refillRate := defaultRefillRate (RateLimiter.config_ rl);
           totalRequests := 0;
           acceptedRequests := 0;
           lastRefill := now |},
        rl)) /\
  (forall (now : Z) (id : string) (rl : RateLimiter.t) (b : TokenBucket.t),
     RateLimiter.clients_ rl !! id = Some b ->
     (RateLimiter.getClientStatistics now id rl).1 = (TokenBucket.getStatistics now b).1 /\
     RateLimiter.clients_ (RateLimiter.getClientStatistics now id rl).2 !! id
       = Some (TokenBucket.getStatistics now b).2).
Proof.
  split.
  - intros now id rl H. unfold RateLimiter.getClientStatistics. now rewrite H.
  - intros now id rl b H. unfold RateLimiter.getClientStatistics. rewrite H.
    destruct (TokenBucket.getStatistics now b) as [cs b']. cbn.
    split; [reflexivity | apply lookup_insert_eq].
Qed.

Lemma getClientStatistics_view_witness :
  (RateLimiter.getClientStatistics 40 "b" Examples.one_client).1
  = {| tokensRemaining := 0; bucketSize := 100; refillRate := 10;
       totalRequests := 0; acceptedRequests := 0; lastRefill := 40 |}.
Proof.
  now rewrite (proj1 getClientStatistics_view 40 "b" Examples.one_client eq_refl).
Defined.

(** C5 as stated does not hold: after [reset], [getStatistics] still
    reports the one registered client in [activeClients]. *)
Lemma reset_all_zero_counterexample :
  let s := RateLimiter.getStatistics
             (RateLimiter.reset (fun _ => 50) Examples.one_client) in
  ~ (st_totalRequests s = 0 /\ st_acceptedRequests s = 0 /\
     st_rejectedRequests s = 0 /\ st_activeClients s = 0).
Proof. cbv zeta. intros (_ & _ & _ & H). vm_compute in H. discriminate H. Qed.

(** C5, amended. [reset] resets every registered cell (level back to the
    capacity, both counters zero), zeroes the aggregator's request counters
    and its latency total, and clears the samples; it changes neither which
    clients are registered, nor the configuration with its override table,
    nor [activeClients].  Immediately afterwards [getStatistics] reports zero
    total, accepted and rejected requests and zero average latency, with
    [activeClients] as before, and [getLatencyPercentiles] reports five
    zeros. *)
Theorem reset_effect (clk : string -> Z) (rl : RateLimiter.t) :
  let rl' := RateLimiter.reset clk rl in
  (forall id, RateLimiter.clients_ rl' !! id
              = TokenBucket.reset (clk id) <$> RateLimiter.clients_ rl !! id) /\
  (forall id b', RateLimiter.clients_ rl' !! id = Some b' ->
     TokenBucket.tokens_ b' = to_double (TokenBucket.bucketSize_ b') /\
     TokenBucket.totalRequests_ b' = 0 /\
     TokenBucket.acceptedRequests_ b' = 0) /\
  dom (RateLimiter.clients_ rl') = dom (RateLimiter.clients_ rl) /\
  RateLimiter.config_ rl' = RateLimiter.config_ rl /\
  RateLimiter.getStatistics rl' =
    {| st_totalRequests := 0; st_acceptedRequests := 0; st_rejectedRequests := 0;
       st_totalLatency := 0;
       st_activeClients := st_activeClients (RateLimiter.stats_ rl) |} /\
  getAverageLatency (RateLimiter.getStatistics rl') = 0%Q /\
  RateLimiter.latencyMeasurements_ rl' = [] /\
  RateLimiter.getLatencyPercentiles rl' = Some [0; 0; 0; 0; 0]%Q.
Proof.
  cbv zeta. split; [| split; [| split; [| repeat split]]].
  - intros id. apply reset_lookup.
  - intros id b'. rewrite reset_lookup.
    destruct (RateLimiter.clients_ rl !! id) as [b |]; [| discriminate].
    intros [= <-]. repeat split.
  - apply reset_dom.
Qed.

Lemma reset_effect_witness :
  RateLimiter.clients_ (RateLimiter.reset (fun _ => 50) Examples.one_client) !! "a"
  = Some (TokenBucket.new 50 100 10).
Proof.
  rewrite (proj1 (reset_effect (fun _ => 50) Examples.one_client) "a").
  reflexivity.
Defined.

(** C9 as stated does not hold: in a registry at [maxClients] that
    has no cell for ["b"], the [getOrCreateBucket] that follows
    [updateClientLimit] for ["b"] constructs nothing. *)
Lemma updateClientLimit_fresh_cell_counterexample :
  (RateLimiter.getOrCreateBucket 40 "b"
     (RateLimiter.updateClientLimit "b" 5 1 Examples.full_registry)).1 = None.
Proof. vm_compute. reflexivity. Qed.

(** C9, amended. [updateClientLimit] stores [(capacity, refillRate)] in the
    override table and removes the client's cell, if any, leaving the other
    cells alone.  If the registry then holds fewer than [maxClients] cells,
    as it does whenever the client had a cell in a registry within its cap,
    the next [getOrCreateBucket] for the client constructs and registers a
    cell with that capacity and rate, a full level and both counters zero;
    otherwise it returns [nullptr] and constructs nothing. *)
Theorem updateClientLimit_effect
    (id : string) (capacity : Z) (rate : Q) (rl : RateLimiter.t) (now : Z) :
  let rl1 := RateLimiter.updateClientLimit id capacity rate rl in
  let fresh :=
    {| TokenBucket.tokens_ := to_double capacity;
       TokenBucket.bucketSize_ := capacity;
       TokenBucket.refillRate_ := rate;
       TokenBucket.lastRefill_ := now;
       TokenBucket.totalRequests_ := 0;
       TokenBucket.acceptedRequests_ := 0 |} in
  clientLimits (RateLimiter.config_ rl1) !! id = Some (capacity, rate) /\
  RateLimiter.clients_ rl1 !! id = None /\
  (forall id', id' <> id ->
     RateLimiter.clients_ rl1 !! id' = RateLimiter.clients_ rl !! id') /\
  (RateLimiter.registry_size rl1 < maxClients (RateLimiter.config_ rl1) ->
     (RateLimiter.getOrCreateBucket now id rl1).1 = Some fresh /\
     RateLimiter.clients_ (RateLimiter.getOrCreateBucket now id rl1).2 !! id = Some fresh) /\
  (is_Some (RateLimiter.clients_ rl !! id) -> RateLimiter.registry_bounded rl ->
     RateLimiter.registry_size rl1 < maxClients (RateLimiter.config_ rl1)) /\
  (maxClients (RateLimiter.config_ rl1) <= RateLimiter.registry_size rl1 ->
     RateLimiter.getOrCreateBucket now id rl1 = (None, rl1)).
Proof.
  cbv zeta. split; [| split; [| split; [| split; [| split]]]].
  - cbn. apply lookup_insert_eq.
  - apply updateClientLimit_lookup.
  - intros id' Hne. cbn. now apply lookup_delete_ne.
  - intros Hroom.
    rewrite (getOrCreateBucket_create now id _ (updateClientLimit_lookup id capacity rate rl)
               Hroom).
    rewrite updateClientLimit_limit. cbn.
    split; [reflexivity | apply lookup_insert_eq].
  - intros [b Hb] Hbound.
    rewrite (updateClientLimit_size_registered id capacity rate rl b Hb).
    unfold RateLimiter.registry_bounded in Hbound. cbn. lia.
  - intros Hfull.
    apply getOrCreateBucket_full; [apply updateClientLimit_lookup | exact Hfull].
Qed.

Lemma updateClientLimit_effect_witness :
  (RateLimiter.getOrCreateBucket 40 "a"
     (RateLimiter.updateClientLimit "a" 5 (1 # 2) Examples.one_client)).1
  = Some (TokenBucket.new 40 5 (1 # 2)).
Proof.
  apply (proj1 (proj2 (proj2 (proj2
           (updateClientLimit_effect "a" 5 (1 # 2) Examples.one_client 40))))).
  vm_compute. reflexivity.
Defined.

(** C10. [updateClientLimit] erases a registered client's cell and leaves
    [activeClients] as it is, whereas [removeClient] and [cleanup] decrement
    it once per erased cell.  Starting from a limiter whose [activeClients]
    equals the number of registered cells, [updateClientLimit] on a
    registered client followed by a request of that client leaves
    [activeClients] one above the number of cells. *)
Theorem updateClientLimit_activeClients_drift
    (ts tc tn te : Z) (id : string) (capacity : Z) (rate : Q)
    (rl : RateLimiter.t) (b : TokenBucket.t) :
  RateLimiter.clients_ rl !! id = Some b ->
  st_activeClients (RateLimiter.stats_ rl) = RateLimiter.registry_size rl ->
  RateLimiter.registry_bounded rl ->
  RateLimiter.registry_size rl < SIZE_MAX ->
  let rl1 := RateLimiter.updateClientLimit id capacity rate rl in
  let rl2 := (RateLimiter.allowRequest ts tc tn te id rl1).2 in
  st_activeClients (RateLimiter.stats_ rl1) = st_activeClients (RateLimiter.stats_ rl) /\
  RateLimiter.registry_size rl1 = RateLimiter.registry_size rl - 1 /\
  RateLimiter.registry_size rl2 = RateLimiter.registry_size rl /\
  st_activeClients (RateLimiter.stats_ rl2) = RateLimiter.registry_size rl2 + 1 /\
  st_activeClients (RateLimiter.stats_ (RateLimiter.removeClient id rl))
    = RateLimiter.registry_size (RateLimiter.removeClient id rl) /\
  (forall now,
     st_activeClients (RateLimiter.stats_ (RateLimiter.cleanup now rl))
     = RateLimiter.registry_size (RateLimiter.cleanup now rl)).
Proof.
  intros Hreg Hactive Hbound Hmax. cbv zeta.
  pose proof (updateClientLimit_size_registered id capacity rate rl b Hreg) as Hsize1.
  pose proof (updateClientLimit_lookup id capacity rate rl) as Hgone.
  assert (Hpos : 1 <= RateLimiter.registry_size rl).
  { unfold RateLimiter.registry_size in *. lia. }
  assert (Hroom : RateLimiter.registry_size (RateLimiter.updateClientLimit id capacity rate rl)
                  < maxClients (RateLimiter.config_
                                  (RateLimiter.updateClientLimit id capacity rate rl))).
  { rewrite Hsize1. unfold RateLimiter.registry_bounded in Hbound. cbn. lia. }
  pose proof (getOrCreateBucket_create tc id _ Hgone Hroom) as Hcreate.
  assert (Hsize2 : RateLimiter.registry_size
                     (RateLimiter.allowRequest ts tc tn te id
                        (RateLimiter.updateClientLimit id capacity rate rl)).2
                   = RateLimiter.registry_size rl).
  { unfold RateLimiter.registry_size at 1.
    rewrite allowRequest_clients, allowRequests_unfold, Hcreate. cbn.
    rewrite map_size_insert_Some by (rewrite lookup_insert_eq; eauto).
    rewrite map_size_insert_None by apply lookup_delete_eq.
    unfold RateLimiter.registry_size in Hsize1 |- *. cbn in Hsize1. lia. }
  split; [reflexivity |]. split; [exact Hsize1 |]. split; [exact Hsize2 |].
  split; [| split].
  - rewrite Hsize2, allowRequest_activeClients, Hcreate. cbn.
    rewrite Hactive. apply wrap64_small. unfold SIZE_MAX in *. lia.
  - unfold RateLimiter.removeClient, RateLimiter.registry_size. rewrite Hreg. cbn.
    rewrite Hactive.
    rewrite map_size_delete_Some by (rewrite Hreg; eauto).
    unfold RateLimiter.registry_size in *.
    rewrite wrap64_small; unfold SIZE_MAX in *; lia.
  - intros now. rewrite cleanup_activeClients, Hactive.
    pose proof (cleanup_size now rl) as Hle.
    assert (0 <= RateLimiter.registry_size (RateLimiter.cleanup now rl))
      by (unfold RateLimiter.registry_size; lia).
    rewrite wrap64_small; unfold SIZE_MAX in *; lia.
Qed.

Lemma updateClientLimit_activeClients_drift_witness :
  let rl2 := (RateLimiter.allowRequest 50 60 70 80 "a"
                (RateLimiter.updateClientLimit "a" 5 1 Examples.one_client)).2 in
  st_activeClients (RateLimiter.stats_ rl2) = RateLimiter.registry_size rl2 + 1.
Proof.
  refine (proj1 (proj2 (proj2 (proj2
            (updateClientLimit_activeClients_drift 50 60 70 80 "a" 5 1
               Examples.one_client (TokenBucket.consume 20 1 (TokenBucket.new 10 100 10)).2
               _ _ _ _))))).
  - vm_compute. reflexivity.
  - vm_compute. reflexivity.
  - unfold RateLimiter.registry_bounded. vm_compute. discriminate.
  - vm_compute. reflexivity.
Defined.

(** ** Construction *)

(** C7 as stated does not hold: the constructor accepts a
    configuration with a zero default capacity, a negative default refill
    rate and an all-zero override. *)
Lemma ctor_rejects_invalid_counterexample :
  RateLimiter.ctor Examples.invalid_config <> None /\
  RateLimiter.ctor_sized 0 (-1) <> None.
Proof. split; discriminate. Qed.

(** C7, amended. Construction validates nothing: each constructor accepts
    every configuration, holds it unchanged, and starts with no cell, zero
    counters and no samples; the limits of a client's first cell are read
    from that configuration as they were given. *)
Theorem ctor_accepts_all :
  (forall config : RateLimiterConfig,
     RateLimiter.ctor config =
       Some {| RateLimiter.clients_ := ∅;
               RateLimiter.config_ := config;
               RateLimiter.stats_ := RateLimiter.zero_stats;
               RateLimiter.latencyMeasurements_ := [] |}) /\
  (forall (capacity : Z) (rate : Q),
     exists rl, RateLimiter.ctor_sized capacity rate = Some rl /\
       defaultBucketSize (RateLimiter.config_ rl) = capacity /\
       defaultRefillRate (RateLimiter.config_ rl) = rate /\
       RateLimiter.clients_ rl = ∅) /\
  (forall (config : RateLimiterConfig) (rl : RateLimiter.t) (now : Z) (id : string),
     RateLimiter.ctor config = Some rl ->
     0 < maxClients config ->
     (RateLimiter.getOrCreateBucket now id rl).1
     = Some (TokenBucket.new now (RateLimiter.client_limit config id).1
               (RateLimiter.client_limit config id).2)).
Proof.
  split; [| split].
  - reflexivity.
  - intros capacity rate. eexists. split; [reflexivity |]. repeat split.
  - intros config rl now id [= <-] Hmax.
    rewrite getOrCreateBucket_create; [reflexivity | apply lookup_empty |].
    unfold RateLimiter.registry_size. cbn. rewrite map_size_empty. exact Hmax.
Qed.

Lemma ctor_accepts_all_witness :
  (RateLimiter.getOrCreateBucket 7 "vip" (Examples.fresh Examples.invalid_config)).1
  = Some (TokenBucket.new 7 0 0).
Proof.
  apply (proj2 (proj2 ctor_accepts_all) Examples.invalid_config _ 7 "vip" eq_refl).
  reflexivity.
Defined.

(** ** Latency percentiles *)

#[local] Instance Qle_total : Total Qle.
Proof.
  intros x y. destruct (Qlt_le_dec x y) as [H | H]; [left | right; exact H].
  now apply Qlt_le_weak.
Qed.

Section PercentileProofs.

(** On a non-negative double the cast to [size_t] is the floor. *)
Lemma to_size_t_floor (x : Q) : (0 <= x)%Q -> to_size_t x = Qfloor x.
Proof.
  destruct x as [num den]. unfold Qle, to_size_t, Qfloor. cbn. intros H.
  apply Z.quot_div_nonneg; lia.
Qed.

Lemma scaled_rank_bounds (p : Q) (k : Z) :
  is_percentile p -> 0 <= k ->
  (0 <= (p / 100) * inject_Z k)%Q /\ ((p / 100) * inject_Z k <= inject_Z k)%Q.
Proof.
  intros [Hlo Hhi] Hk.
  assert (Hk' : (0 <= inject_Z k)%Q) by now apply (to_double_nonneg k).
  assert (Hfrac : (0 <= p / 100)%Q /\ (p / 100 <= 1)%Q).
  { split.
    - apply Qle_shift_div_l; [reflexivity | lra].
    - apply Qle_shift_div_r; [reflexivity | lra]. }
  destruct Hfrac as [Hf0 Hf1]. split.
  - now apply Qmult_le_0_compat.
  - apply Qle_trans with (1 * inject_Z k)%Q.
    + now apply Qmult_le_compat_r.
    + rewrite Qmult_1_l. apply Qle_refl.
Qed.

(** The index the lambda computes is the nearest rank, and lies inside the
    vector. *)
Lemma percentile_index_rank (p : Q) (size : nat) :
  is_percentile p ->
  (1 <= size)%nat -> Z.of_nat size <= SIZE_MAX ->
  Z.to_nat (RateLimiter.percentile_index p size) = nearest_rank p size /\
  (nearest_rank p size < size)%nat.
Proof.
  intros Hp Hsize Hmax.
  unfold RateLimiter.percentile_index, nearest_rank, to_double.
  rewrite wrap64_small by (unfold SIZE_MAX in *; lia).
  destruct (scaled_rank_bounds p (Z.of_nat size - 1) Hp) as [Hlo Hhi]; [lia |].
  rewrite to_size_t_floor by exact Hlo. split; [reflexivity |].
  apply Qfloor_resp_le in Hhi. rewrite Qfloor_Z in Hhi.
  apply Qfloor_resp_le in Hlo. change (Qfloor 0) with 0 in Hlo.
  lia.
Qed.

Lemma getPercentile_rank (measurements : list Q) (p : Q) :
  is_percentile p ->
  measurements <> [] -> Z.of_nat (length measurements) <= SIZE_MAX ->
  exists v,
    measurements !! nearest_rank p (length measurements) = Some v /\
    RateLimiter.getPercentile measurements p = Some v.
Proof.
  intros Hp Hne Hmax.
  assert (Hlen : (1 <= length measurements)%nat).
  { destruct measurements; [congruence | cbn; lia]. }
  destruct (percentile_index_rank p (length measurements) Hp Hlen Hmax) as [Hidx Hlt].
  destruct (lookup_lt_is_Some_2 measurements _ Hlt) as [v Hv].
  exists v. split; [exact Hv |].
  unfold RateLimiter.getPercentile. now rewrite Hidx.
Qed.

Lemma five_percentiles :
  is_percentile RateLimiter.P50 /\ is_percentile RateLimiter.P90 /\
  is_percentile RateLimiter.P95 /\ is_percentile RateLimiter.P99 /\
  is_percentile RateLimiter.P999.
Proof. repeat split; unfold Qle; cbn; lia. Qed.

(** On every vector the limiter can hold, the index computed in binary64
    arithmetic is the exact one. *)
Lemma binary64_agrees_upto (percentile : float) (exact : Q) (bound size : nat) :
  Binary64.agrees_upto percentile exact bound = true ->
  (1 <= size <= bound)%nat ->
  Binary64.percentile_index percentile size
  = Some (RateLimiter.percentile_index exact size).
Proof.
  unfold Binary64.agrees_upto. rewrite forallb_forall. intros Hall Hsize.
  specialize (Hall size). rewrite in_seq in Hall.
  destruct (Binary64.percentile_index percentile size) as [i |].
  - f_equal. apply Z.eqb_eq, Hall. lia.
  - discriminate Hall. lia.
Qed.

Lemma binary64_percentile_index (size : nat) :
  (1 <= size <= 1000)%nat ->
  Binary64.percentile_index Binary64.P50 size
    = Some (RateLimiter.percentile_index RateLimiter.P50 size) /\
  Binary64.percentile_index Binary64.P90 size
    = Some (RateLimiter.percentile_index RateLimiter.P90 size) /\
  Binary64.percentile_index Binary64.P95 size
    = Some (RateLimiter.percentile_index RateLimiter.P95 size) /\
  Binary64.percentile_index Binary64.P99 size
    = Some (RateLimiter.percentile_index RateLimiter.P99 size) /\
  Binary64.percentile_index Binary64.P999 size
    = Some (RateLimiter.percentile_index RateLimiter.P999 size).
Proof.
  intros Hsize.
  repeat split; apply (binary64_agrees_upto _ _ 1000); try exact Hsize;
    vm_compute; reflexivity.
Qed.

End PercentileProofs.

(** C6. On an empty sample buffer [getLatencyPercentiles] returns five
    zeros.  On a buffer of [count >= 1] samples it returns, for [p] in
    50, 90, 95, 99, 99.9 in this order, the element at zero-indexed rank
    [floor((p/100) * (count - 1))] of the buffer sorted in ascending order;
    every one of the five ranks lies inside the buffer.  The query yields
    values only: it is a function of the limiter and has no successor state,
    so the buffer is as it was. *)
Theorem latency_percentiles (rl : RateLimiter.t) :
  Z.of_nat (length (RateLimiter.latencyMeasurements_ rl)) <= SIZE_MAX ->
  let samples := RateLimiter.latencyMeasurements_ rl in
  let count := length samples in
  let sorted := merge_sort Qle samples in
  Sorted Qle sorted /\
  sorted ≡ₚ samples /\
  (samples = [] ->
     RateLimiter.getLatencyPercentiles rl = Some [0; 0; 0; 0; 0]%Q) /\
  (samples <> [] ->
     exists v50 v90 v95 v99 v999,
       sorted !! nearest_rank RateLimiter.P50 count = Some v50 /\
       sorted !! nearest_rank RateLimiter.P90 count = Some v90 /\
       sorted !! nearest_rank RateLimiter.P95 count = Some v95 /\
       sorted !! nearest_rank RateLimiter.P99 count = Some v99 /\
       sorted !! nearest_rank RateLimiter.P999 count = Some v999 /\
       RateLimiter.getLatencyPercentiles rl = Some [v50; v90; v95; v99; v999]).
Proof.
  intros Hmax samples count sorted.
  assert (Hperm : sorted ≡ₚ samples) by apply merge_sort_Permutation.
  split; [apply Sorted_merge_sort; apply _ |]. split; [exact Hperm |]. split.
  - intros Hempty. unfold RateLimiter.getLatencyPercentiles.
    fold samples. now rewrite Hempty.
  - intros Hne.
    assert (Hlen : length sorted = count) by now rewrite Hperm.
    assert (Hsorted : sorted <> []).
    { intros Hnil. apply Hne. apply Permutation_nil_r. now rewrite <- Hnil. }
    assert (Hmax' : Z.of_nat (length sorted) <= SIZE_MAX) by now rewrite Hlen.
    destruct five_percentiles as (H50 & H90 & H95 & H99 & H999).
    destruct (getPercentile_rank sorted _ H50 Hsorted Hmax') as (v50 & Hr50 & Hg50).
    destruct (getPercentile_rank sorted _ H90 Hsorted Hmax') as (v90 & Hr90 & Hg90).
    destruct (getPercentile_rank sorted _ H95 Hsorted Hmax') as (v95 & Hr95 & Hg95).
    destruct (getPercentile_rank sorted _ H99 Hsorted Hmax') as (v99 & Hr99 & Hg99).
    destruct (getPercentile_rank sorted _ H999 Hsorted Hmax') as (v999 & Hr999 & Hg999).
    rewrite Hlen in Hr50, Hr90, Hr95, Hr99, Hr999.
    exists v50, v90, v95, v99, v999. repeat (split; [assumption |]).
    unfold RateLimiter.getLatencyPercentiles. fold samples.
    destruct samples as [| x l] eqn:Es; [congruence |].
    fold sorted. rewrite Hg50, Hg90, Hg95, Hg99, Hg999. reflexivity.
Qed.

Lemma latency_percentiles_witness :
  RateLimiter.getLatencyPercentiles Examples.three_samples = Some [2; 2; 2; 2; 2]%Q.
Proof.
  assert (Hmax : Z.of_nat (length (RateLimiter.latencyMeasurements_ Examples.three_samples))
                 <= SIZE_MAX) by (vm_compute; discriminate).
  destruct (latency_percentiles Examples.three_samples Hmax) as (_ & _ & _ & Hranks).
  destruct Hranks as (v50 & v90 & v95 & v99 & v999 & H50 & H90 & H95 & H99 & H999 & Hres);
    [discriminate |].
  rewrite Hres.
  vm_compute in H50, H90, H95, H99, H999. congruence.
Defined.

(** In every reachable state the rank computed in binary64 arithmetic is the
    nearest rank of the specification. *)
Lemma binary64_rank_reachable (config : RateLimiterConfig) (rl : RateLimiter.t) :
  RateLimiter.reachable config rl ->
  RateLimiter.latencyMeasurements_ rl <> [] ->
  let count := length (RateLimiter.latencyMeasurements_ rl) in
  Binary64.percentile_index Binary64.P50 count
    = Some (Z.of_nat (nearest_rank RateLimiter.P50 count)) /\
  Binary64.percentile_index Binary64.P90 count
    = Some (Z.of_nat (nearest_rank RateLimiter.P90 count)) /\
  Binary64.percentile_index Binary64.P95 count
    = Some (Z.of_nat (nearest_rank RateLimiter.P95 count)) /\
  Binary64.percentile_index Binary64.P99 count
    = Some (Z.of_nat (nearest_rank RateLimiter.P99 count)) /\
  Binary64.percentile_index Binary64.P999 count
    = Some (Z.of_nat (nearest_rank RateLimiter.P999 count)).
Proof.
  intros Hreach Hne count.
  pose proof (reachable_samples config rl Hreach) as Hle. fold count in Hle.
  assert (Hpos : (1 <= count)%nat).
  { subst count. destruct (RateLimiter.latencyMeasurements_ rl); [congruence | cbn; lia]. }
  assert (Hmax : Z.of_nat count <= SIZE_MAX) by (unfold SIZE_MAX; lia).
  assert (Hexact : forall p, is_percentile p ->
            RateLimiter.percentile_index p count = Z.of_nat (nearest_rank p count)).
  { intros p Hp.
    destruct (percentile_index_rank p count Hp Hpos Hmax) as [<- _].
    rewrite Z2Nat.id; [reflexivity |].
    unfold RateLimiter.percentile_index, to_double.
    rewrite wrap64_small by (unfold SIZE_MAX in *; lia).
    destruct (scaled_rank_bounds p (Z.of_nat count - 1) Hp) as [Hlo _]; [lia |].
    rewrite to_size_t_floor by exact Hlo.
    apply Qfloor_resp_le in Hlo. exact Hlo. }
  destruct five_percentiles as (H50 & H90 & H95 & H99 & H999).
  destruct (binary64_percentile_index count) as (B50 & B90 & B95 & B99 & B999); [lia |].
  rewrite <- !Hexact by assumption. auto.
Qed.

(** * Further properties of the quota cell *)

Section CellProperties.

Implicit Types (b : TokenBucket.t) (now n : Z).

Lemma seconds_nonneg (d : Z) : 0 <= d -> (0 <= seconds d)%Q.
Proof. unfold seconds, Qle. cbn. lia. Qed.

End CellProperties.

Section CellBounds.

Implicit Types (b : TokenBucket.t) (now n : Z).

Lemma refillTokens_lastRefill now b :
  TokenBucket.lastRefill_ (TokenBucket.refillTokens now b)
  = Z.max now (TokenBucket.lastRefill_ b).
Proof.
  destruct (Z_lt_le_dec (TokenBucket.lastRefill_ b) now) as [H | H].
  - rewrite (refillTokens_fill now b H). cbn. lia.
  - rewrite (refillTokens_skip now b H). lia.
Qed.

Lemma consume_lastRefill now n b :
  TokenBucket.lastRefill_ (TokenBucket.consume now n b).2
  = TokenBucket.lastRefill_ (TokenBucket.refillTokens now b).
Proof. unfold TokenBucket.consume. now destruct (Qgeb _ _). Qed.

Lemma to_double_lt (m n : Z) : m < n -> (to_double m < to_double n)%Q.
Proof. unfold to_double. now rewrite <- Zlt_Qlt. Qed.

Lemma to_double_le (m n : Z) : m <= n -> (to_double m <= to_double n)%Q.
Proof. unfold to_double. now rewrite <- Zle_Qle. Qed.

End CellBounds.

(** X4. The refill time of a cell never moves backward under [consume] and
    [getStatistics]: afterwards it is the later of the old refill time and the
    clock reading, also when the clock reading lies in the past. *)
Theorem lastRefill_monotone (now n : Z) (b : TokenBucket.t) :
  TokenBucket.lastRefill_ (TokenBucket.consume now n b).2
    = Z.max now (TokenBucket.lastRefill_ b) /\
  TokenBucket.lastRefill_ (TokenBucket.getStatistics now b).2
    = Z.max now (TokenBucket.lastRefill_ b) /\
  TokenBucket.getLastAccess b
    <= TokenBucket.getLastAccess (TokenBucket.consume now n b).2.
Proof.
  rewrite consume_lastRefill. cbn. unfold TokenBucket.getLastAccess.
  rewrite consume_lastRefill, !refillTokens_lastRefill. lia.
Qed.

(** X5. Below the counter limit, [consume] keeps
    [acceptedRequests <= totalRequests], and the number of rejected requests
    [totalRequests - acceptedRequests] grows by one exactly on a rejection. *)
Theorem consume_counters (now n : Z) (b : TokenBucket.t) :
  0 <= TokenBucket.acceptedRequests_ b <= TokenBucket.totalRequests_ b ->
  TokenBucket.totalRequests_ b < SIZE_MAX ->
  let r := TokenBucket.consume now n b in
  0 <= TokenBucket.acceptedRequests_ r.2 <= TokenBucket.totalRequests_ r.2 /\
  TokenBucket.totalRequests_ r.2 - TokenBucket.acceptedRequests_ r.2
  = TokenBucket.totalRequests_ b - TokenBucket.acceptedRequests_ b
    + (if r.1 then 0 else 1).
Proof.
  intros Hcount Hmax. cbv zeta.
  destruct (refillTokens_frame now b) as (_ & _ & Htot & Hacc).
  unfold TokenBucket.consume. destruct (Qgeb _ _); cbn;
    rewrite ?Htot, ?Hacc, !wrap64_small by (unfold SIZE_MAX in *; lia); lia.
Qed.

Lemma consume_counters_witness :
  let r := TokenBucket.consume 7 9 Samples.used_cell in
  TokenBucket.totalRequests_ r.2 - TokenBucket.acceptedRequests_ r.2 = 1.
Proof.
  cbv zeta.
  rewrite (proj2 (consume_counters 7 9 Samples.used_cell
                    ltac:(vm_compute; split; discriminate) ltac:(vm_compute; reflexivity))).
  vm_compute. reflexivity.
Defined.

(** * Further properties of the limiter *)

Section LimiterProperties.

Implicit Types (rl : RateLimiter.t) (id : string) (o : RateLimiter.op).

(** The request counters and the latency total of a [Statistics] value. *)
Lemma getOrCreateBucket_counters now id rl :
  let s := RateLimiter.stats_ rl in
  let s' := RateLimiter.stats_ (RateLimiter.getOrCreateBucket now id rl).2 in
  st_totalRequests s' = st_totalRequests s /\
  st_acceptedRequests s' = st_acceptedRequests s /\
  st_rejectedRequests s' = st_rejectedRequests s /\
  st_totalLatency s' = st_totalLatency s.
Proof.
  cbv zeta. unfold RateLimiter.getOrCreateBucket.
  destruct (RateLimiter.clients_ rl !! id); [auto |].
  destruct (_ <=? _); [auto |].
  destruct (RateLimiter.client_limit _ _). cbn. auto.
Qed.

Lemma allowRequests_counters tc tn id n rl :
  let s := RateLimiter.stats_ rl in
  let s' := RateLimiter.stats_ (RateLimiter.allowRequests tc tn id n rl).2 in
  st_totalRequests s' = st_totalRequests s /\
  st_acceptedRequests s' = st_acceptedRequests s /\
  st_rejectedRequests s' = st_rejectedRequests s /\
  st_totalLatency s' = st_totalLatency s.
Proof.
  cbv zeta. rewrite allowRequests_unfold.
  pose proof (getOrCreateBucket_counters tc id rl) as H. cbv zeta in H.
  now destruct (RateLimiter.getOrCreateBucket tc id rl).1.
Qed.

Lemma allowRequests_other tc tn id id' n rl :
  id <> id' ->
  RateLimiter.clients_ (RateLimiter.allowRequests tc tn id n rl).2 !! id'
  = RateLimiter.clients_ rl !! id'.
Proof.
  intros Hne. rewrite allowRequests_unfold.
  pose proof (getOrCreateBucket_other tc id id' rl Hne) as H.
  destruct (RateLimiter.getOrCreateBucket tc id rl).1; cbn; [| exact H].
  now rewrite lookup_insert_ne.
Qed.

Lemma allowRequests_size tc tn id n rl :
  RateLimiter.registry_size (RateLimiter.allowRequests tc tn id n rl).2
  = RateLimiter.registry_size (RateLimiter.getOrCreateBucket tc id rl).2.
Proof.
  rewrite allowRequests_unfold. unfold RateLimiter.registry_size.
  destruct (RateLimiter.getOrCreateBucket tc id rl) as [[b |] rl1] eqn:E; cbn;
    [| reflexivity].
  apply getOrCreateBucket_entry in E.
  now rewrite map_size_insert_Some by (rewrite E; eauto).
Qed.

Lemma allowRequests_activeClients tc tn id n rl :
  st_activeClients (RateLimiter.stats_ (RateLimiter.allowRequests tc tn id n rl).2)
  = st_activeClients (RateLimiter.stats_ (RateLimiter.getOrCreateBucket tc id rl).2).
Proof.
  rewrite allowRequests_unfold.
  now destruct (RateLimiter.getOrCreateBucket tc id rl).1.
Qed.

(** Creating a cell counts it; finding one or refusing one does not. *)
Lemma getOrCreateBucket_counted now id rl :
  maxClients (RateLimiter.config_ rl) <= SIZE_MAX ->
  st_activeClients (RateLimiter.stats_ rl) = RateLimiter.registry_size rl ->
  st_activeClients (RateLimiter.stats_ (RateLimiter.getOrCreateBucket now id rl).2)
  = RateLimiter.registry_size (RateLimiter.getOrCreateBucket now id rl).2.
Proof.
  intros Hmax Hinv. unfold RateLimiter.getOrCreateBucket.
  destruct (RateLimiter.clients_ rl !! id) eqn:E; [exact Hinv |].
  destruct (Z.leb_spec (maxClients (RateLimiter.config_ rl))
              (RateLimiter.registry_size rl)) as [Hfull | Hroom]; [exact Hinv |].
  destruct (RateLimiter.client_limit _ _). cbn.
  unfold RateLimiter.registry_size in *. cbn.
  rewrite map_size_insert_None by exact E. rewrite Hinv.
  rewrite wrap64_small; unfold SIZE_MAX in *; lia.
Qed.

Lemma wrap64_add_l (x y : Z) : wrap64 (wrap64 x + y) = wrap64 (x + y).
Proof. unfold wrap64. apply Zplus_mod_idemp_l. Qed.

Lemma wrap64_add_r (x y : Z) : wrap64 (x + wrap64 y) = wrap64 (x + y).
Proof. unfold wrap64. apply Zplus_mod_idemp_r. Qed.

Lemma record_outcome_balance (allowed : bool) (latency : Q) (s : Statistics) :
  st_totalRequests s = wrap64 (st_acceptedRequests s + st_rejectedRequests s) ->
  st_totalRequests (RateLimiter.record_outcome allowed latency s)
  = wrap64 (st_acceptedRequests (RateLimiter.record_outcome allowed latency s)
            + st_rejectedRequests (RateLimiter.record_outcome allowed latency s)).
Proof.
  intros H. destruct allowed; cbn; rewrite H.
  - rewrite !wrap64_add_l. f_equal. lia.
  - rewrite wrap64_add_l, wrap64_add_r. f_equal. lia.
Qed.

Lemma wrap64_range (z : Z) : 0 <= wrap64 z <= SIZE_MAX.
Proof.
  unfold wrap64, SIZE_MAX.
  pose proof (Z.mod_pos_bound z (2 ^ 64) ltac:(lia)). lia.
Qed.

(** The balance of the global counters, with their ranges. *)
Lemma step_balance o rl :
  (st_totalRequests (RateLimiter.stats_ rl)
   = wrap64 (st_acceptedRequests (RateLimiter.stats_ rl)
             + st_rejectedRequests (RateLimiter.stats_ rl)) /\
   0 <= st_acceptedRequests (RateLimiter.stats_ rl) <= SIZE_MAX /\
   0 <= st_rejectedRequests (RateLimiter.stats_ rl) <= SIZE_MAX) ->
  st_totalRequests (RateLimiter.stats_ (RateLimiter.step o rl))
  = wrap64 (st_acceptedRequests (RateLimiter.stats_ (RateLimiter.step o rl))
            + st_rejectedRequests (RateLimiter.stats_ (RateLimiter.step o rl))) /\
  0 <= st_acceptedRequests (RateLimiter.stats_ (RateLimiter.step o rl)) <= SIZE_MAX /\
  0 <= st_rejectedRequests (RateLimiter.stats_ (RateLimiter.step o rl)) <= SIZE_MAX.
Proof.
  intros (Hbal & Hacc & Hrej). destruct o; cbn [RateLimiter.step].
  - pose proof (allowRequests_counters t_create t_consume clientId 1 rl) as Hc.
    cbv zeta in Hc. destruct Hc as (Ht & Ha & Hr & _).
    unfold RateLimiter.allowRequest, RateLimiter.allowRequestInternal.
    destruct (RateLimiter.allowRequests t_create t_consume clientId 1 rl) as [ok rl1].
    cbn [snd] in *. destruct (enableMetrics _); cbn [snd RateLimiter.stats_].
    + split; [apply record_outcome_balance; congruence |].
      destruct ok; cbn; rewrite ?Ha, ?Hr; auto using wrap64_range.
    + rewrite Ht, Ha, Hr. auto.
  - pose proof (allowRequests_counters t_create t_consume clientId count rl) as Hc.
    cbv zeta in Hc. destruct Hc as (Ht & Ha & Hr & _). rewrite Ht, Ha, Hr. auto.
  - cbn. auto.
  - unfold RateLimiter.removeClient.
    destruct (RateLimiter.clients_ rl !! clientId); cbn; auto.
  - unfold RateLimiter.getClientStatistics.
    destruct (RateLimiter.clients_ rl !! clientId) as [b |]; [| auto].
    destruct (TokenBucket.getStatistics now b). cbn. auto.
  - cbn. auto.
  - cbn. unfold SIZE_MAX. split; [reflexivity | lia].
Qed.

End LimiterProperties.

(** X8. The global request counters balance in every state a limiter can
    reach: [totalRequests] is [acceptedRequests + rejectedRequests] modulo
    [2^64], and exactly their sum as long as the sum fits an [uint64_t]. *)
Theorem statistics_balance (config : RateLimiterConfig) (rl : RateLimiter.t) :
  RateLimiter.reachable config rl ->
  let s := RateLimiter.getStatistics rl in
  st_totalRequests s = wrap64 (st_acceptedRequests s + st_rejectedRequests s) /\
  (st_acceptedRequests s + st_rejectedRequests s <= SIZE_MAX ->
   st_totalRequests s = st_acceptedRequests s + st_rejectedRequests s).
Proof.
  intros Hreach. cbv zeta. unfold RateLimiter.getStatistics.
  assert (H : st_totalRequests (RateLimiter.stats_ rl)
              = wrap64 (st_acceptedRequests (RateLimiter.stats_ rl)
                        + st_rejectedRequests (RateLimiter.stats_ rl)) /\
              0 <= st_acceptedRequests (RateLimiter.stats_ rl) <= SIZE_MAX /\
              0 <= st_rejectedRequests (RateLimiter.stats_ rl) <= SIZE_MAX).
  { induction Hreach as [rl Hctor | o rl _ IH].
    - injection Hctor as <-. cbn. unfold SIZE_MAX. split; [reflexivity | lia].
    - now apply step_balance. }
  destruct H as (Hbal & Hacc & Hrej). split; [exact Hbal |].
  intros Hfit. rewrite Hbal. apply wrap64_small. lia.
Qed.

Lemma statistics_balance_witness :
  st_totalRequests (RateLimiter.getStatistics Samples.two_clients)
  = wrap64 (st_acceptedRequests (RateLimiter.getStatistics Samples.two_clients)
            + st_rejectedRequests (RateLimiter.getStatistics Samples.two_clients)).
Proof.
  refine (proj1 (statistics_balance default_config Samples.two_clients _)).
  exact (RateLimiter.reachable_step _
           (RateLimiter.AllowRequest (400 * Samples.second) (400 * Samples.second)
              (400 * Samples.second) (400 * Samples.second + 5) "b") _
           (RateLimiter.reachable_step _ (RateLimiter.AllowRequest 0 10 20 30 "a") _
              (RateLimiter.reachable_ctor _ _ eq_refl))).
Defined.

(** X9. [allowRequests], the multi-token variant, stays out of the global
    statistics: whatever it decides, the request counters, the latency total
    and the latency samples are as before. *)
Theorem allowRequests_no_statistics
    (tc tn : Z) (id : string) (count : Z) (rl : RateLimiter.t) :
  let rl' := (RateLimiter.allowRequests tc tn id count rl).2 in
  st_totalRequests (RateLimiter.stats_ rl') = st_totalRequests (RateLimiter.stats_ rl) /\
  st_acceptedRequests (RateLimiter.stats_ rl') = st_acceptedRequests (RateLimiter.stats_ rl) /\
  st_rejectedRequests (RateLimiter.stats_ rl') = st_rejectedRequests (RateLimiter.stats_ rl) /\
  st_totalLatency (RateLimiter.stats_ rl') = st_totalLatency (RateLimiter.stats_ rl) /\
  RateLimiter.latencyMeasurements_ rl' = RateLimiter.latencyMeasurements_ rl /\
  RateLimiter.config_ rl' = RateLimiter.config_ rl.
Proof.
  cbv zeta.
  pose proof (allowRequests_counters tc tn id count rl) as H. cbv zeta in H.
  destruct H as (Ht & Ha & Hr & Hl).
  repeat split; try assumption.
  - apply allowRequests_samples.
  - apply allowRequests_config.
Qed.

(** X10. Requests of one client never touch another client's cell:
    [allowRequest] and [allowRequests] for [id] leave the entry of every
    other id, present or absent, as it was. *)
Theorem allowRequest_isolation
    (ts tc tn te : Z) (id id' : string) (count : Z) (rl : RateLimiter.t) :
  id <> id' ->
  RateLimiter.clients_ (RateLimiter.allowRequest ts tc tn te id rl).2 !! id'
    = RateLimiter.clients_ rl !! id' /\
  RateLimiter.clients_ (RateLimiter.allowRequests tc tn id count rl).2 !! id'
    = RateLimiter.clients_ rl !! id'.
Proof.
  intros Hne. rewrite allowRequest_clients.
  split; now apply allowRequests_other.
Qed.

Lemma allowRequest_isolation_witness :
  RateLimiter.clients_
    (RateLimiter.allowRequest 40 50 60 70 "b" Examples.one_client).2 !! "a"
  = RateLimiter.clients_ Examples.one_client !! "a".
Proof.
  apply (allowRequest_isolation 40 50 60 70 "b" "a" 1 Examples.one_client).
  discriminate.
Defined.

Section RegistryProperties.

Implicit Types (rl : RateLimiter.t) (id : string) (o : RateLimiter.op).

Lemma cleanup_lookup now rl id (b : TokenBucket.t) :
  RateLimiter.clients_ (RateLimiter.cleanup now rl) !! id = Some b <->
  RateLimiter.clients_ rl !! id = Some b /\
  now - cleanupInterval (RateLimiter.config_ rl) * Z.pos ticks_per_second
    <= TokenBucket.getLastAccess b.
Proof.
  unfold RateLimiter.cleanup. cbn. rewrite map_lookup_filter_Some. cbn.
  split; intros [H1 H2]; (split; [exact H1 | lia]).
Qed.

Lemma getActiveClients_elem rl id :
  id ∈ RateLimiter.getActiveClients rl <-> is_Some (RateLimiter.clients_ rl !! id).
Proof.
  unfold RateLimiter.getActiveClients. rewrite list_elem_of_fmap. split.
  - intros ([k b] & -> & Hin). apply elem_of_map_to_list in Hin. cbn. eauto.
  - intros [b Hb]. exists (id, b). split; [reflexivity |].
    now apply elem_of_map_to_list.
Qed.

Lemma removeClient_lookup id rl :
  RateLimiter.clients_ (RateLimiter.removeClient id rl) !! id = None.
Proof.
  unfold RateLimiter.removeClient.
  destruct (RateLimiter.clients_ rl !! id) eqn:E; [apply lookup_delete_eq | exact E].
Qed.

Lemma removeClient_size_registered id rl (b : TokenBucket.t) :
  RateLimiter.clients_ rl !! id = Some b ->
  RateLimiter.registry_size (RateLimiter.removeClient id rl)
  = RateLimiter.registry_size rl - 1 /\
  1 <= RateLimiter.registry_size rl.
Proof.
  intros H. unfold RateLimiter.registry_size, RateLimiter.removeClient. rewrite H. cbn.
  rewrite map_size_delete_Some by (rewrite H; eauto).
  assert (size (RateLimiter.clients_ rl) <> 0%nat).
  { intros Hz. apply map_size_empty_inv in Hz. rewrite Hz in H. discriminate. }
  lia.
Qed.

End RegistryProperties.

(** X11. Every operation other than [updateClientLimit] keeps
    [activeClients] equal to the number of registered cells, in a registry
    within its cap. *)
Theorem activeClients_tracks_registry (o : RateLimiter.op) (rl : RateLimiter.t) :
  keeps_limits o ->
  maxClients (RateLimiter.config_ rl) <= SIZE_MAX ->
  RateLimiter.registry_bounded rl ->
  st_activeClients (RateLimiter.stats_ rl) = RateLimiter.registry_size rl ->
  st_activeClients (RateLimiter.stats_ (RateLimiter.step o rl))
  = RateLimiter.registry_size (RateLimiter.step o rl).
Proof.
  intros Hkeep Hmax Hbound Hinv.
  assert (Hsize : 0 <= RateLimiter.registry_size rl <= SIZE_MAX).
  { unfold RateLimiter.registry_bounded in Hbound.
    unfold RateLimiter.registry_size in *. lia. }
  destruct o; cbn [RateLimiter.step]; cbn in Hkeep; try contradiction.
  - rewrite allowRequest_activeClients.
    unfold RateLimiter.registry_size at 1. rewrite allowRequest_clients.
    fold (RateLimiter.registry_size
            (RateLimiter.allowRequests t_create t_consume clientId 1 rl).2).
    rewrite allowRequests_size. now apply getOrCreateBucket_counted.
  - rewrite allowRequests_activeClients, allowRequests_size.
    now apply getOrCreateBucket_counted.
  - destruct (RateLimiter.clients_ rl !! clientId) as [b |] eqn:E.
    + destruct (removeClient_size_registered clientId rl b E) as [Hs Hpos].
      rewrite Hs. unfold RateLimiter.removeClient. rewrite E. cbn.
      rewrite Hinv. apply wrap64_small. lia.
    + unfold RateLimiter.removeClient. rewrite E. exact Hinv.
  - rewrite getClientStatistics_size. unfold RateLimiter.getClientStatistics.
    destruct (RateLimiter.clients_ rl !! clientId) as [b |]; [| exact Hinv].
    now destruct (TokenBucket.getStatistics now b).
  - rewrite cleanup_activeClients, Hinv.
    pose proof (cleanup_size now rl) as Hle.
    assert (0 <= RateLimiter.registry_size (RateLimiter.cleanup now rl))
      by (unfold RateLimiter.registry_size; lia).
    rewrite wrap64_small; lia.
  - rewrite reset_size. exact Hinv.
Qed.

Lemma activeClients_tracks_registry_witness :
  st_activeClients (RateLimiter.stats_ (RateLimiter.removeClient "a" Samples.two_clients))
  = RateLimiter.registry_size (RateLimiter.removeClient "a" Samples.two_clients).
Proof.
  apply (activeClients_tracks_registry (RateLimiter.RemoveClient "a") Samples.two_clients).
  - exact I.
  - vm_compute. discriminate.
  - unfold RateLimiter.registry_bounded. vm_compute. discriminate.
  - vm_compute. reflexivity.
Defined.



(** X13. [cleanup] keeps exactly the cells whose last refill is not older
    than [cleanupInterval]: a cell is registered afterwards if and only if it
    was registered before with its refill time at or after the threshold, and
    it is then unchanged; the ids of the erased cells are gone from
    [getActiveClients]. *)
Theorem cleanup_keeps_recent (now : Z) (rl : RateLimiter.t) (id : string) :
  let threshold :=
    now - cleanupInterval (RateLimiter.config_ rl) * Z.pos ticks_per_second in
  (forall b, RateLimiter.clients_ (RateLimiter.cleanup now rl) !! id = Some b <->
             RateLimiter.clients_ rl !! id = Some b /\
             threshold <= TokenBucket.getLastAccess b) /\
  (forall b, RateLimiter.clients_ rl !! id = Some b ->
             TokenBucket.getLastAccess b < threshold ->
             id ∉ RateLimiter.getActiveClients (RateLimiter.cleanup now rl)).
Proof.
  cbv zeta. split.
  - intros b. apply cleanup_lookup.
  - intros b Hreg Hidle. rewrite getActiveClients_elem. intros [b' Hb'].
    apply cleanup_lookup in Hb'. destruct Hb' as [Hb' Hrecent].
    assert (b' = b) by congruence. subst b'. lia.
Qed.

Lemma cleanup_keeps_recent_witness :
  "a" ∉ RateLimiter.getActiveClients
          (RateLimiter.cleanup (500 * Samples.second) Samples.two_clients).
Proof.
  apply (proj2 (cleanup_keeps_recent (500 * Samples.second) Samples.two_clients "a")
           (TokenBucket.consume 20 1 (TokenBucket.new 10 100 10)).2).
  - vm_compute. reflexivity.
  - vm_compute. reflexivity.
Defined.

(** X14. [getActiveClients] lists exactly the registered ids, each once, so
    its length is the registry size. *)
Theorem getActiveClients_exact (rl : RateLimiter.t) :
  (forall id, id ∈ RateLimiter.getActiveClients rl
              <-> is_Some (RateLimiter.clients_ rl !! id)) /\
  NoDup (RateLimiter.getActiveClients rl) /\
  Z.of_nat (length (RateLimiter.getActiveClients rl)) = RateLimiter.registry_size rl.
Proof.
  split; [intros id; apply getActiveClients_elem |]. split.
  - apply NoDup_fst_map_to_list.
  - unfold RateLimiter.getActiveClients, RateLimiter.registry_size.
    now rewrite length_fmap, length_map_to_list.
Qed.

(** X15. [removeClient] is a no-op for a client without a cell; otherwise
    the cell is gone, the other cells stay, and in a registry within its cap
    the client's next [getOrCreateBucket] constructs a new, full cell with the
    client's limits. *)
Theorem removeClient_effect (now : Z) (id : string) (rl : RateLimiter.t) :
  (RateLimiter.clients_ rl !! id = None -> RateLimiter.removeClient id rl = rl) /\
  RateLimiter.clients_ (RateLimiter.removeClient id rl) !! id = None /\
  (forall id', id' <> id ->
     RateLimiter.clients_ (RateLimiter.removeClient id rl) !! id'
     = RateLimiter.clients_ rl !! id') /\
  (is_Some (RateLimiter.clients_ rl !! id) ->
   RateLimiter.registry_bounded rl ->
   (RateLimiter.getOrCreateBucket now id (RateLimiter.removeClient id rl)).1
   = Some (TokenBucket.new now
             (RateLimiter.client_limit (RateLimiter.config_ rl) id).1
             (RateLimiter.client_limit (RateLimiter.config_ rl) id).2)).
Proof.
  split; [| split; [| split]].
  - intros H. unfold RateLimiter.removeClient. now rewrite H.
  - apply removeClient_lookup.
  - intros id' Hne. unfold RateLimiter.removeClient.
    destruct (RateLimiter.clients_ rl !! id); [| reflexivity].
    cbn. now apply lookup_delete_ne.
  - intros [b Hb] Hbound.
    destruct (removeClient_size_registered id rl b Hb) as [Hs _].
    rewrite getOrCreateBucket_create.
    + cbn. now rewrite removeClient_config.
    + apply removeClient_lookup.
    + rewrite Hs, removeClient_config.
      unfold RateLimiter.registry_bounded in Hbound. lia.
Qed.

Lemma removeClient_effect_witness :
  (RateLimiter.getOrCreateBucket 77 "a" (RateLimiter.removeClient "a" Examples.full_registry)).1
  = Some (TokenBucket.new 77 100 10).
Proof.
  apply (proj2 (proj2 (proj2 (removeClient_effect 77 "a" Examples.full_registry)))).
  - vm_compute. eauto.
  - unfold RateLimiter.registry_bounded. vm_compute. discriminate.
Defined.

Section FirstRequest.

(** A new cell is full at its first replenishment pass, whenever it comes. *)
Lemma refillTokens_new (t_create now capacity : Z) (rate : Q) :
  (0 <= rate)%Q ->
  (TokenBucket.tokens_ (TokenBucket.refillTokens now (TokenBucket.new t_create capacity rate))
   == to_double capacity)%Q.
Proof.
  intros Hrate.
  destruct (Z_lt_le_dec t_create now) as [H | H].
  - rewrite refillTokens_fill by exact H. cbn.
    assert (0 <= seconds (now - t_create) * rate)%Q.
    { apply Qmult_le_0_compat; [apply seconds_nonneg; lia | exact Hrate]. }
    apply Qle_antisym; [apply std_min_le_r | apply std_min_glb; [lra | apply Qle_refl]].
  - rewrite refillTokens_skip by exact H. reflexivity.
Qed.

End FirstRequest.

(** X16. The first request of a client without a cell, in a registry with
    room, is decided by the client's capacity alone: with a non-negative
    refill rate it is accepted if and only if the capacity is at least 1,
    whatever the clock readings. *)
Theorem allowRequest_first (ts tc tn te : Z) (id : string) (rl : RateLimiter.t) :
  RateLimiter.clients_ rl !! id = None ->
  RateLimiter.registry_size rl < maxClients (RateLimiter.config_ rl) ->
  (0 <= (RateLimiter.client_limit (RateLimiter.config_ rl) id).2)%Q ->
  (RateLimiter.allowRequest ts tc tn te id rl).1
  = (1 <=? (RateLimiter.client_limit (RateLimiter.config_ rl) id).1).
Proof.
  intros Hnew Hroom Hrate.
  rewrite allowRequest_verdict, allowRequests_unfold.
  rewrite (getOrCreateBucket_create tc id rl Hnew Hroom). cbn [fst].
  set (limit := RateLimiter.client_limit (RateLimiter.config_ rl) id) in *.
  pose proof (refillTokens_new tc tn limit.1 limit.2 Hrate) as Hfull.
  destruct (Z.leb_spec 1 limit.1) as [Hcap | Hcap].
  - rewrite consume_accept; [reflexivity |].
    rewrite Hfull. now apply to_double_le.
  - rewrite consume_reject; [reflexivity |].
    rewrite Hfull. now apply to_double_lt.
Qed.

Lemma allowRequest_first_witness :
  (RateLimiter.allowRequest 1 2 3 4 "vip" (Examples.fresh Examples.invalid_config)).1 = false.
Proof.
  rewrite (allowRequest_first 1 2 3 4 "vip" (Examples.fresh Examples.invalid_config)).
  - reflexivity.
  - reflexivity.
  - vm_compute. reflexivity.
  - vm_compute. discriminate.
Defined.

(** X17. The latency window is first-in first-out and bounded: a sample is
    appended at the end; a window already holding 1000 samples loses its
    oldest one; and no reachable limiter holds more than 1000 samples. *)
Theorem latency_window :
  (forall (latency : Q) (samples : list Q),
     (length samples < 1000)%nat ->
     RateLimiter.push_latency latency samples = samples ++ [latency]) /\
  (forall (latency oldest : Q) (samples : list Q),
     length (oldest :: samples) = 1000%nat ->
     RateLimiter.push_latency latency (oldest :: samples) = samples ++ [latency]) /\
  (forall (config : RateLimiterConfig) (rl : RateLimiter.t),
     RateLimiter.reachable config rl ->
     (length (RateLimiter.latencyMeasurements_ rl) <= 1000)%nat).
Proof.
  split; [| split].
  - intros latency samples Hlen. unfold RateLimiter.push_latency.
    destruct (Z.ltb_spec 1000 (Z.of_nat (length (samples ++ [latency]))))
      as [Hlt | Hge]; [| reflexivity].
    rewrite length_app in Hlt. cbn in Hlt. lia.
  - intros latency oldest samples Hlen. unfold RateLimiter.push_latency.
    destruct (Z.ltb_spec 1000 (Z.of_nat (length ((oldest :: samples) ++ [latency]))))
      as [Hlt | Hge]; [reflexivity |].
    rewrite length_app in Hge. cbn [length] in *. lia.
  - apply reachable_samples.
Qed.

Lemma latency_window_witness :
  RateLimiter.push_latency 4 [3; 1; 2]%Q = [3; 1; 2; 4]%Q.
Proof.
  apply (proj1 latency_window 4%Q [3; 1; 2]%Q). vm_compute. lia.
Defined.

(** X18. With metrics enabled, a request refused because the registry is
    full is still counted: the registry, the configuration and
    [activeClients] stay as they are, while [totalRequests] and
    [rejectedRequests] advance by one and the latency is recorded. *)
Theorem allowRequest_full_counted
    (ts tc tn te : Z) (id : string) (rl : RateLimiter.t) :
  RateLimiter.clients_ rl !! id = None ->
  maxClients (RateLimiter.config_ rl) <= RateLimiter.registry_size rl ->
  enableMetrics (RateLimiter.config_ rl) = true ->
  let rl' := (RateLimiter.allowRequest ts tc tn te id rl).2 in
  RateLimiter.clients_ rl' = RateLimiter.clients_ rl /\
  RateLimiter.config_ rl' = RateLimiter.config_ rl /\
  st_activeClients (RateLimiter.stats_ rl') = st_activeClients (RateLimiter.stats_ rl) /\
  st_totalRequests (RateLimiter.stats_ rl')
    = wrap64 (st_totalRequests (RateLimiter.stats_ rl) + 1) /\
  st_rejectedRequests (RateLimiter.stats_ rl')
    = wrap64 (st_rejectedRequests (RateLimiter.stats_ rl) + 1) /\
  st_acceptedRequests (RateLimiter.stats_ rl')
    = st_acceptedRequests (RateLimiter.stats_ rl) /\
  RateLimiter.latencyMeasurements_ rl'
    = RateLimiter.push_latency (millis (te - ts)) (RateLimiter.latencyMeasurements_ rl).
Proof.
  intros Hnew Hfull Hmetrics. cbv zeta.
  unfold RateLimiter.allowRequest, RateLimiter.allowRequestInternal.
  rewrite (allowRequests_full tc tn id 1 rl Hnew Hfull). rewrite Hmetrics. cbn.
  repeat split.
Qed.

Lemma allowRequest_full_counted_witness :
  st_rejectedRequests
    (RateLimiter.stats_ (RateLimiter.allowRequest 40 50 60 70 "b" Examples.full_registry).2)
  = 1.
Proof.
  rewrite (proj1 (proj2 (proj2 (proj2 (proj2
             (allowRequest_full_counted 40 50 60 70 "b" Examples.full_registry
                eq_refl ltac:(vm_compute; discriminate) eq_refl)))))).
  vm_compute. reflexivity.
Defined.

Section RateProofs.

Lemma to_double_pos (n : Z) : 0 < n -> (0 < to_double n)%Q.
Proof. intros H. apply (to_double_lt 0 n H). Qed.

End RateProofs.

(** A counter between 0 and the total is between 0 and 100 percent of it. *)
Lemma percent_bounds (a t : Z) :
  0 < t -> 0 <= a <= t ->
  (0 <= to_double a / to_double t * 100)%Q /\ (to_double a / to_double t * 100 <= 100)%Q.
Proof.
  intros Hpos [Ha Hle].
  pose proof (to_double_pos _ Hpos) as Ht.
  pose proof (to_double_nonneg _ Ha) as Ha'.
  pose proof (to_double_le _ _ Hle) as Hat.
  assert (Hfrac : (0 <= to_double a / to_double t)%Q /\ (to_double a / to_double t <= 1)%Q).
  { split.
    - apply Qle_shift_div_l; [exact Ht | lra].
    - apply Qle_shift_div_r; [exact Ht | lra]. }
  lra.
Qed.

(** X19. The acceptance and rejection rates never divide by zero: without
    requests both are 0, and so is the average latency; with requests, a
    counter between 0 and [totalRequests] gives a rate between 0 and 100
    percent. *)
Theorem rates_bounded (s : Statistics) :
  (st_totalRequests s = 0 ->
   getAcceptanceRate s = 0%Q /\ getRejectionRate s = 0%Q /\ getAverageLatency s = 0%Q) /\
  (0 <= st_acceptedRequests s <= st_totalRequests s ->
   (0 <= getAcceptanceRate s)%Q /\ (getAcceptanceRate s <= 100)%Q) /\
  (0 <= st_rejectedRequests s <= st_totalRequests s ->
   (0 <= getRejectionRate s)%Q /\ (getRejectionRate s <= 100)%Q).
Proof.
  unfold getAcceptanceRate, getRejectionRate, getAverageLatency.
  split; [| split].
  - intros ->. cbn. auto.
  - intros Hacc. destruct (Z.ltb_spec 0 (st_totalRequests s)) as [Hpos | _];
      [now apply percent_bounds | split; discriminate].
  - intros Hrej. destruct (Z.ltb_spec 0 (st_totalRequests s)) as [Hpos | _];
      [now apply percent_bounds | split; discriminate].
Qed.

Lemma rates_bounded_witness :
  (getAcceptanceRate (RateLimiter.getStatistics Samples.two_clients) <= 100)%Q.
Proof.
  apply (proj1 (proj2 (rates_bounded (RateLimiter.getStatistics Samples.two_clients)))).
  split; vm_compute; discriminate.
Defined.

Section PercentileOrder.

Lemma StronglySorted_Qle_lookup (l : list Q) :
  StronglySorted Qle l ->
  forall (i j : nat) (x y : Q),
    (i <= j)%nat -> l !! i = Some x -> l !! j = Some y -> (x <= y)%Q.
Proof.
  induction 1 as [| a l Hsorted IH Hall]; intros i j x y Hij Hi Hj.
  - discriminate.
  - destruct i as [| i], j as [| j]; cbn in Hi, Hj.
    + injection Hi as <-. injection Hj as <-. apply Qle_refl.
    + injection Hi as <-. rewrite Forall_forall in Hall.
      apply Hall. now apply list_elem_of_lookup_2 in Hj.
    + lia.
    + apply (IH i j); [lia | assumption | assumption].
Qed.

Lemma nearest_rank_mono (p q : Q) (count : nat) :
  (p <= q)%Q -> (1 <= count)%nat ->
  (nearest_rank p count <= nearest_rank q count)%nat.
Proof.
  intros Hpq Hcount. unfold nearest_rank.
  assert (Hk : (0 <= inject_Z (Z.of_nat count - 1))%Q).
  { apply (to_double_nonneg (Z.of_nat count - 1)). lia. }
  assert (Hfrac : (p / 100 <= q / 100)%Q).
  { unfold Qdiv. apply Qmult_le_compat_r; [exact Hpq | discriminate]. }
  pose proof (Qmult_le_compat_r _ _ _ Hfrac Hk) as Hle.
  apply Qfloor_resp_le in Hle. lia.
Qed.

Lemma percentiles_ascending :
  (RateLimiter.P50 <= RateLimiter.P90)%Q /\ (RateLimiter.P90 <= RateLimiter.P95)%Q /\
  (RateLimiter.P95 <= RateLimiter.P99)%Q /\ (RateLimiter.P99 <= RateLimiter.P999)%Q.
Proof. repeat split; discriminate. Qed.

End PercentileOrder.

(** X20. On a non-empty buffer the five percentiles are samples of the
    buffer, never interpolated, and come out in non-decreasing order:
    P50 <= P90 <= P95 <= P99 <= P99.9. *)
Theorem latency_percentiles_ordered (rl : RateLimiter.t) (v50 v90 v95 v99 v999 : Q) :
  Z.of_nat (length (RateLimiter.latencyMeasurements_ rl)) <= SIZE_MAX ->
  RateLimiter.latencyMeasurements_ rl <> [] ->
  RateLimiter.getLatencyPercentiles rl = Some [v50; v90; v95; v99; v999] ->
  ((v50 <= v90)%Q /\ (v90 <= v95)%Q /\ (v95 <= v99)%Q /\ (v99 <= v999)%Q) /\
  Forall (fun v => v ∈ RateLimiter.latencyMeasurements_ rl) [v50; v90; v95; v99; v999].
Proof.
  intros Hmax Hne Hres.
  set (samples := RateLimiter.latencyMeasurements_ rl) in *.
  set (sorted := merge_sort Qle samples).
  assert (Hperm : sorted ≡ₚ samples) by apply merge_sort_Permutation.
  assert (Hstrong : StronglySorted Qle sorted).
  { apply StronglySorted_merge_sort; [intros x y z; apply Qle_trans | apply _]. }
  assert (Hlen : length sorted = length samples) by now rewrite Hperm.
  assert (Hcount : (1 <= length samples)%nat).
  { destruct samples; [congruence | cbn; lia]. }
  assert (Hsorted : sorted <> []).
  { intros Hnil. rewrite Hnil in Hlen. cbn in Hlen. lia. }
  assert (Hmax' : Z.of_nat (length sorted) <= SIZE_MAX) by now rewrite Hlen.
  destruct five_percentiles as (H50 & H90 & H95 & H99 & H999).
  destruct (getPercentile_rank sorted _ H50 Hsorted Hmax') as (w50 & Hr50 & Hg50).
  destruct (getPercentile_rank sorted _ H90 Hsorted Hmax') as (w90 & Hr90 & Hg90).
  destruct (getPercentile_rank sorted _ H95 Hsorted Hmax') as (w95 & Hr95 & Hg95).
  destruct (getPercentile_rank sorted _ H99 Hsorted Hmax') as (w99 & Hr99 & Hg99).
  destruct (getPercentile_rank sorted _ H999 Hsorted Hmax') as (w999 & Hr999 & Hg999).
  unfold RateLimiter.getLatencyPercentiles in Hres. fold samples in Hres.
  destruct samples as [| s0 rest] eqn:Es; [congruence |].
  fold sorted in Hres. rewrite Hg50, Hg90, Hg95, Hg99, Hg999 in Hres. cbn in Hres.
  injection Hres as <- <- <- <- <-.
  rewrite Hlen in Hr50, Hr90, Hr95, Hr99, Hr999.
  destruct percentiles_ascending as (A1 & A2 & A3 & A4).
  split.
  - repeat split.
    + exact (StronglySorted_Qle_lookup sorted Hstrong _ _ _ _
               (nearest_rank_mono _ _ _ A1 Hcount) Hr50 Hr90).
    + exact (StronglySorted_Qle_lookup sorted Hstrong _ _ _ _
               (nearest_rank_mono _ _ _ A2 Hcount) Hr90 Hr95).
    + exact (StronglySorted_Qle_lookup sorted Hstrong _ _ _ _
               (nearest_rank_mono _ _ _ A3 Hcount) Hr95 Hr99).
    + exact (StronglySorted_Qle_lookup sorted Hstrong _ _ _ _
               (nearest_rank_mono _ _ _ A4 Hcount) Hr99 Hr999).
  - repeat (apply Forall_cons_2;
            [rewrite <- Hperm; eapply list_elem_of_lookup_2; eassumption |]).
    apply Forall_nil_2.
Qed.

Lemma latency_percentiles_ordered_witness :
  Forall (fun v => v ∈ RateLimiter.latencyMeasurements_ Examples.three_samples)
    [2; 2; 2; 2; 2]%Q.
Proof.
  apply (latency_percentiles_ordered Examples.three_samples 2 2 2 2 2).
  - vm_compute. discriminate.
  - discriminate.
  - vm_compute. reflexivity.
Defined.

(** X21. A client's acceptance rate is 0 without requests, and otherwise a
    percentage between 0 and 100 when the snapshot's counters are in the
    order [0 <= acceptedRequests <= totalRequests]. *)
Theorem client_rate_bounds (cs : ClientStatistics) :
  (totalRequests cs = 0 -> getClientAcceptanceRate cs = 0%Q) /\
  (0 <= acceptedRequests cs <= totalRequests cs ->
   (0 <= getClientAcceptanceRate cs)%Q /\ (getClientAcceptanceRate cs <= 100)%Q).
Proof.
  unfold getClientAcceptanceRate. split.
  - now intros ->.
  - intros [Hacc Hle].
    destruct (Z.ltb_spec 0 (totalRequests cs)) as [Hpos | _]; [| split; discriminate].
    pose proof (to_double_pos _ Hpos) as Ht.
    pose proof (to_double_nonneg _ Hacc) as Ha.
    pose proof (to_double_le _ _ Hle) as Hat.
    assert (Hfrac : (0 <= to_double (acceptedRequests cs) / to_double (totalRequests cs))%Q
                    /\ (to_double (acceptedRequests cs) / to_double (totalRequests cs) <= 1)%Q).
    { split.
      - apply Qle_shift_div_l; [exact Ht | lra].
      - apply Qle_shift_div_r; [exact Ht | lra]. }
    lra.
Qed.

Lemma client_rate_bounds_witness :
  (getClientAcceptanceRate
     (TokenBucket.getStatistics 30 (TokenBucket.consume 7 9 Samples.used_cell).2).1
   <= 100)%Q.
Proof.
  apply (proj2 (client_rate_bounds
                  (TokenBucket.getStatistics 30 (TokenBucket.consume 7 9 Samples.used_cell).2).1)).
  split; vm_compute; discriminate.
Defined.

(** X23. For every vector of 1 to 1000 samples, the index that
    [getPercentile] computes in IEEE binary64 arithmetic is the nearest rank
    [floor((p/100) * (size - 1))] computed exactly, for each of the five
    percentiles. *)
Theorem binary64_rank_exact (size : nat) :
  (1 <= size <= 1000)%nat ->
  Binary64.percentile_index Binary64.P50 size
    = Some (Z.of_nat (nearest_rank RateLimiter.P50 size)) /\
  Binary64.percentile_index Binary64.P90 size
    = Some (Z.of_nat (nearest_rank RateLimiter.P90 size)) /\
  Binary64.percentile_index Binary64.P95 size
    = Some (Z.of_nat (nearest_rank RateLimiter.P95 size)) /\
  Binary64.percentile_index Binary64.P99 size
    = Some (Z.of_nat (nearest_rank RateLimiter.P99 size)) /\
  Binary64.percentile_index Binary64.P999 size
    = Some (Z.of_nat (nearest_rank RateLimiter.P999 size)).
Proof.
  intros Hsize.
  assert (Hmax : Z.of_nat size <= SIZE_MAX) by (unfold SIZE_MAX; lia).
  assert (Hexact : forall p, is_percentile p ->
            RateLimiter.percentile_index p size = Z.of_nat (nearest_rank p size)).
  { intros p Hp.
    destruct (percentile_index_rank p size Hp (proj1 Hsize) Hmax) as [<- _].
    rewrite Z2Nat.id; [reflexivity |].
    unfold RateLimiter.percentile_index, to_double.
    rewrite wrap64_small by (unfold SIZE_MAX in *; lia).
    destruct (scaled_rank_bounds p (Z.of_nat size - 1) Hp) as [Hlo _]; [lia |].
    rewrite to_size_t_floor by exact Hlo.
    apply Qfloor_resp_le in Hlo. exact Hlo. }
  destruct five_percentiles as (H50 & H90 & H95 & H99 & H999).
  destruct (binary64_percentile_index size Hsize) as (B50 & B90 & B95 & B99 & B999).
  rewrite <- !Hexact by assumption. auto.
Qed.

Lemma binary64_rank_exact_witness :
  Binary64.percentile_index Binary64.P95 21 = Some 19.
Proof.
  rewrite (proj1 (proj2 (proj2 (binary64_rank_exact 21 ltac:(lia))))).
  vm_compute. reflexivity.
Defined.

(** * Binary64 arithmetic

    The facts about [SpecFloat]'s rounding that the quota cell needs: how
    many bits a mantissa has, what a right shift keeps, that rounding keeps
    the sign and the magnitude, gives floats in canonical form, and never
    rounds a value below a representable one above it. *)

Section Digits.

Lemma digits2_pos_bounds (p : positive) :
  2 ^ (Z.pos (digits2_pos p) - 1) <= Z.pos p < 2 ^ Z.pos (digits2_pos p).
Proof.
  induction p as [p IH | p IH |]; cbn [digits2_pos].
  - rewrite Pos2Z.inj_succ, Z.pow_succ_r by lia.
    replace (Z.succ (Z.pos (digits2_pos p)) - 1) with (Z.succ (Z.pos (digits2_pos p) - 1)) by lia.
    rewrite Z.pow_succ_r by lia. lia.
  - rewrite Pos2Z.inj_succ, Z.pow_succ_r by lia.
    replace (Z.succ (Z.pos (digits2_pos p)) - 1) with (Z.succ (Z.pos (digits2_pos p) - 1)) by lia.
    rewrite Z.pow_succ_r by lia. lia.
  - cbn. lia.
Qed.

Lemma Zdigits2_bounds (m : Z) :
  0 < m -> 2 ^ (Zdigits2 m - 1) <= m < 2 ^ Zdigits2 m.
Proof. destruct m as [| p | p]; try lia. intros _. apply digits2_pos_bounds. Qed.

Lemma Zdigits2_nonneg (m : Z) : 0 <= Zdigits2 m.
Proof. destruct m; cbn; lia. Qed.

Lemma Zdigits2_pos (m : Z) : 0 < m -> 0 < Zdigits2 m.
Proof. destruct m; cbn; lia. Qed.

Lemma Zdigits2_unique (m k : Z) :
  2 ^ (k - 1) <= m < 2 ^ k -> 0 < m -> Zdigits2 m = k.
Proof.
  intros Hk Hm. pose proof (Zdigits2_bounds m Hm) as Hd.
  pose proof (Zdigits2_pos m Hm) as Hp.
  assert (0 < k).
  { destruct (Z_lt_le_dec 0 k) as [|Hneg]; [assumption |].
    assert (2 ^ k <= 2 ^ 0) by (destruct (Z.eq_dec k 0) as [-> |];
      [lia | rewrite Z.pow_neg_r by lia; cbn; lia]).
    cbn in *. lia. }
  destruct (Z.lt_trichotomy (Zdigits2 m) k) as [Hlt | [Heq | Hgt]]; [| exact Heq |].
  - assert (2 ^ Zdigits2 m <= 2 ^ (k - 1)) by (apply Z.pow_le_mono_r; lia). lia.
  - assert (2 ^ k <= 2 ^ (Zdigits2 m - 1)) by (apply Z.pow_le_mono_r; lia). lia.
Qed.

Lemma Zdigits2_le (a b : Z) : 0 <= a <= b -> Zdigits2 a <= Zdigits2 b.
Proof.
  intros [Ha Hab]. destruct (Z.eq_dec a 0) as [-> | Hne]; [apply Zdigits2_nonneg |].
  assert (Hpa : 0 < a) by lia. assert (Hpb : 0 < b) by lia.
  pose proof (Zdigits2_bounds a Hpa). pose proof (Zdigits2_bounds b Hpb).
  pose proof (Zdigits2_pos a Hpa). pose proof (Zdigits2_pos b Hpb).
  destruct (Z_lt_le_dec (Zdigits2 b) (Zdigits2 a)) as [Hlt |]; [| assumption].
  assert (2 ^ Zdigits2 b <= 2 ^ (Zdigits2 a - 1)) by (apply Z.pow_le_mono_r; lia). lia.
Qed.

Lemma Zdigits2_mul_pow2 (m n : Z) :
  0 < m -> 0 <= n -> Zdigits2 (m * 2 ^ n) = Zdigits2 m + n.
Proof.
  intros Hm Hn. pose proof (Zdigits2_bounds m Hm) as Hd.
  pose proof (Zdigits2_pos m Hm) as Hp.
  assert (0 < 2 ^ n) by (apply Z.pow_pos_nonneg; lia).
  apply Zdigits2_unique; [| nia].
  replace (Zdigits2 m + n - 1) with (Zdigits2 m - 1 + n) by lia.
  rewrite !Z.pow_add_r by lia. nia.
Qed.

Lemma Zdigits2_div_pow2 (m n : Z) :
  0 <= m -> 0 <= n -> Zdigits2 (m / 2 ^ n) = Z.max 0 (Zdigits2 m - n).
Proof.
  intros Hm Hn. assert (Hpow : 0 < 2 ^ n) by (apply Z.pow_pos_nonneg; lia).
  destruct (Z.eq_dec m 0) as [-> | Hne].
  { rewrite Z.div_0_l by lia. cbn. lia. }
  assert (Hpm : 0 < m) by lia.
  pose proof (Zdigits2_bounds m Hpm) as Hd. pose proof (Zdigits2_pos m Hpm) as Hp.
  destruct (Z_lt_le_dec n (Zdigits2 m)) as [Hlt | Hge].
  - rewrite Z.max_r by lia.
    assert (Hsplit : 2 ^ Zdigits2 m = 2 ^ (Zdigits2 m - n) * 2 ^ n).
    { rewrite <- Z.pow_add_r by lia. f_equal. lia. }
    assert (Hsplit' : 2 ^ (Zdigits2 m - 1) = 2 ^ (Zdigits2 m - n - 1) * 2 ^ n).
    { rewrite <- Z.pow_add_r by lia. f_equal. lia. }
    assert (Hq : 2 ^ (Zdigits2 m - n - 1) <= m / 2 ^ n < 2 ^ (Zdigits2 m - n)).
    { split.
      - apply Z.div_le_lower_bound; [lia |]. rewrite Z.mul_comm, <- Hsplit'. apply Hd.
      - apply Z.div_lt_upper_bound; [lia |]. rewrite Z.mul_comm, <- Hsplit. apply Hd. }
    apply Zdigits2_unique; [exact Hq |].
    assert (0 < 2 ^ (Zdigits2 m - n - 1)) by (apply Z.pow_pos_nonneg; lia). lia.
  - rewrite Z.max_l by lia.
    assert (2 ^ Zdigits2 m <= 2 ^ n) by (apply Z.pow_le_mono_r; lia).
    rewrite Z.div_small by lia. reflexivity.
Qed.

Lemma Zdigits2_succ (m : Z) : 0 <= m -> Zdigits2 (m + 1) <= Zdigits2 m + 1.
Proof.
  intros Hm. destruct (Z.eq_dec m 0) as [-> | Hne]; [vm_compute; discriminate |].
  assert (Hpm : 0 < m) by lia.
  pose proof (Zdigits2_bounds m Hpm) as Hd. pose proof (Zdigits2_pos m Hpm) as Hp.
  pose proof (Zdigits2_bounds (m + 1) ltac:(lia)) as Hd'.
  destruct (Z_lt_le_dec (Zdigits2 m + 1) (Zdigits2 (m + 1))) as [Hlt |]; [| assumption].
  assert (2 ^ (Zdigits2 m + 1) <= 2 ^ (Zdigits2 (m + 1) - 1)) by (apply Z.pow_le_mono_r; lia).
  rewrite Z.pow_add_r in * by lia. lia.
Qed.

End Digits.

Section Shifts.

Lemma iter_pos_eq {A : Type} (f : A -> A) (n : positive) (x : A) :
  SpecFloat.iter_pos f n x = Pos.iter f x n.
Proof.
  revert x. induction n as [n IH | n IH |]; intros x; cbn.
  - rewrite !IH. now rewrite <- !Pos.iter_swap.
  - now rewrite !IH.
  - reflexivity.
Qed.

Lemma Pos_iter_xO (p n : positive) : Z.pos (Pos.iter xO p n) = Z.pos p * 2 ^ Z.pos n.
Proof.
  induction n as [| n IH] using Pos.peano_ind.
  - cbn. lia.
  - rewrite Pos.iter_succ, Pos2Z.inj_xO, IH, Pos2Z.inj_succ, Z.pow_succ_r by lia. lia.
Qed.

Lemma shr_1_m (mrs : shr_record) :
  0 <= shr_m mrs -> shr_m (shr_1 mrs) = shr_m mrs / 2.
Proof.
  destruct mrs as [m r s]. cbn [shr_m]. intros Hm.
  destruct m as [| p | p]; [reflexivity | | lia].
  destruct p as [p | p |]; cbn [shr_1 shr_m].
  - rewrite Pos2Z.inj_xI. apply Z.div_unique with 1; lia.
  - rewrite Pos2Z.inj_xO. apply Z.div_unique with 0; lia.
  - reflexivity.
Qed.

Lemma iter_shr_m (mrs : shr_record) (n : positive) :
  0 <= shr_m mrs -> shr_m (Pos.iter shr_1 mrs n) = shr_m mrs / 2 ^ Z.pos n.
Proof.
  intros Hm. induction n as [| n IH] using Pos.peano_ind.
  - cbn [Pos.iter]. rewrite shr_1_m by exact Hm. reflexivity.
  - rewrite Pos.iter_succ, shr_1_m.
    + rewrite IH, Pos2Z.inj_succ, Z.pow_succ_r, Z.div_div by lia. f_equal. lia.
    + rewrite IH. apply Z.div_pos; [exact Hm | apply Z.pow_pos_nonneg; lia].
Qed.

Lemma iter_shr_exact (m : Z) (n : positive) :
  0 <= m ->
  Pos.iter shr_1 {| shr_m := m * 2 ^ Z.pos n; shr_r := false; shr_s := false |} n
  = {| shr_m := m; shr_r := false; shr_s := false |}.
Proof.
  intros Hm. revert m Hm. induction n as [| n IH] using Pos.peano_ind; intros m Hm.
  - cbn [Pos.iter]. change (2 ^ 1) with 2.
    destruct m as [| p | p]; [reflexivity | | lia].
    rewrite Z.mul_comm. reflexivity.
  - rewrite Pos.iter_succ, Pos2Z.inj_succ, Z.pow_succ_r by lia.
    replace (m * (2 * 2 ^ Z.pos n)) with (m * 2 * 2 ^ Z.pos n) by lia.
    rewrite IH by lia.
    destruct m as [| p | p]; [reflexivity | | lia].
    rewrite Z.mul_comm. reflexivity.
Qed.

End Shifts.

Section Rounding.

Lemma fexp_eq (x : Z) : fexp prec emax x = fexp64 x.
Proof. reflexivity. Qed.

Lemma shifted_nonneg (m e : Z) : 0 <= m -> 0 <= (shifted m e).1.
Proof.
  intros Hm. unfold shifted.
  destruct (Z.ltb_spec 0 (fexp64 (Zdigits2 m + e) - e)); cbn; [| exact Hm].
  apply Z.div_pos; [exact Hm | apply Z.pow_pos_nonneg; lia].
Qed.

Lemma shr_fexp_shifted (m e : Z) (l : location) :
  0 <= m ->
  (shr_m (shr_fexp prec emax m e l).1, (shr_fexp prec emax m e l).2) = shifted m e.
Proof.
  intros Hm. unfold shr_fexp, shifted, shr. rewrite fexp_eq.
  assert (Hrec : shr_m (shr_record_of_loc m l) = m) by (destruct l as [| []]; reflexivity).
  destruct (fexp64 (Zdigits2 m + e) - e) as [| n | n] eqn:En; cbn [fst snd Z.ltb Z.compare].
  - now rewrite Hrec.
  - rewrite iter_pos_eq, iter_shr_m by (rewrite Hrec; exact Hm). now rewrite Hrec.
  - now rewrite Hrec.
Qed.

Lemma shr_fexp_exact (m e : Z) :
  0 <= m ->
  (let n := fexp64 (Zdigits2 m + e) - e in n <= 0 \/ m mod 2 ^ n = 0) ->
  shr_fexp prec emax m e loc_Exact
  = ({| shr_m := (shifted m e).1; shr_r := false; shr_s := false |}, (shifted m e).2).
Proof.
  intros Hm Hdiv. unfold shr_fexp, shifted, shr. rewrite fexp_eq. cbv zeta in Hdiv.
  destruct (fexp64 (Zdigits2 m + e) - e) as [| n | n] eqn:En; cbn [fst snd Z.ltb Z.compare].
  - reflexivity.
  - destruct Hdiv as [Hle | Hmod]; [lia |].
    rewrite iter_pos_eq. cbn [shr_record_of_loc].
    assert (Hpow : 0 < 2 ^ Z.pos n) by (apply Z.pow_pos_nonneg; lia).
    assert (Hm' : m = m / 2 ^ Z.pos n * 2 ^ Z.pos n).
    { rewrite (Z.div_mod m (2 ^ Z.pos n)) at 1 by lia. rewrite Hmod. lia. }
    rewrite Hm' at 1. rewrite iter_shr_exact; [reflexivity |].
    apply Z.div_pos; lia.
  - reflexivity.
Qed.

Lemma round_nearest_even_cases (m : Z) (l : location) :
  round_nearest_even m l = m \/ round_nearest_even m l = m + 1.
Proof. destruct l as [| []]; cbn; auto. destruct (Z.even m); auto. Qed.

Lemma binary_round_aux_char (s : bool) (m e : Z) (l : location) :
  0 <= m ->
  exists m2,
    (m2 = (shifted m e).1 \/ m2 = (shifted m e).1 + 1) /\
    binary_round_aux prec emax s m e l
    = finish s (shifted m2 (shifted m e).2).1 (shifted m2 (shifted m e).2).2.
Proof.
  intros Hm. unfold binary_round_aux.
  pose proof (shr_fexp_shifted m e l Hm) as H1.
  destruct (shr_fexp prec emax m e l) as [mrs1 e1]. cbn [fst snd] in H1.
  set (m2 := round_nearest_even (shr_m mrs1) (loc_of_shr_record mrs1)).
  assert (H1m : shr_m mrs1 = (shifted m e).1) by now rewrite <- H1.
  assert (H1e : e1 = (shifted m e).2) by now rewrite <- H1.
  pose proof (shifted_nonneg m e Hm) as Hm1.
  assert (Hm2 : m2 = (shifted m e).1 \/ m2 = (shifted m e).1 + 1).
  { subst m2. rewrite <- H1m. apply round_nearest_even_cases. }
  exists m2. split; [exact Hm2 |].
  assert (Hm2' : 0 <= m2) by lia.
  pose proof (shr_fexp_shifted m2 e1 loc_Exact Hm2') as H2.
  destruct (shr_fexp prec emax m2 e1 loc_Exact) as [mrs2 e2]. cbn [fst snd] in H2.
  subst e1. rewrite <- H2. cbn [fst snd]. unfold finish.
  destruct (shr_m mrs2); reflexivity.
Qed.

Lemma binary_round_aux_exact (s : bool) (m e : Z) :
  0 <= m ->
  (let n := fexp64 (Zdigits2 m + e) - e in n <= 0 \/ m mod 2 ^ n = 0) ->
  binary_round_aux prec emax s m e loc_Exact
  = finish s (shifted (shifted m e).1 (shifted m e).2).1
             (shifted (shifted m e).1 (shifted m e).2).2.
Proof.
  intros Hm Hdiv. unfold binary_round_aux.
  rewrite (shr_fexp_exact m e Hm Hdiv). cbn [shr_m loc_of_shr_record round_nearest_even].
  pose proof (shifted_nonneg m e Hm) as Hm1.
  pose proof (shr_fexp_shifted (shifted m e).1 (shifted m e).2 loc_Exact Hm1) as H2.
  destruct (shr_fexp prec emax (shifted m e).1 (shifted m e).2 loc_Exact) as [mrs2 e2].
  cbn [fst snd] in H2. rewrite <- H2. cbn [fst snd]. unfold finish.
  destruct (shr_m mrs2); reflexivity.
Qed.

End Rounding.

Section Shapes.

Lemma shifted_exp (m e : Z) : (shifted m e).2 = Z.max e (fexp64 (Zdigits2 m + e)).
Proof.
  unfold shifted. destruct (Z.ltb_spec 0 (fexp64 (Zdigits2 m + e) - e)); cbn; lia.
Qed.

Lemma shifted_floor (m e : Z) :
  0 <= m ->
  (shifted m e).1 * 2 ^ ((shifted m e).2 - e) <= m /\
  m < ((shifted m e).1 + 1) * 2 ^ ((shifted m e).2 - e) /\
  e <= (shifted m e).2.
Proof.
  intros Hm. unfold shifted.
  destruct (Z.ltb_spec 0 (fexp64 (Zdigits2 m + e) - e)) as [Hn | Hn]; cbn [fst snd].
  - set (n := fexp64 (Zdigits2 m + e) - e) in *.
    replace (e + n - e) with n by lia.
    assert (Hpow : 0 < 2 ^ n) by (apply Z.pow_pos_nonneg; lia).
    pose proof (Z.div_mod m (2 ^ n) ltac:(lia)) as Hdm.
    pose proof (Z.mod_pos_bound m (2 ^ n) Hpow) as Hmod.
    split; [| split]; [nia | nia | lia].
  - replace (e - e) with 0 by lia. cbn. lia.
Qed.

Lemma finish_shape (s : bool) (m e : Z) : 0 <= m -> has_sign s (finish s m e).
Proof.
  intros Hm. unfold finish. destruct m as [| p | p]; [reflexivity | | lia].
  destruct (e <=? 971); reflexivity.
Qed.

Lemma binary_round_aux_sign (s : bool) (m e : Z) (l : location) :
  0 <= m -> has_sign s (binary_round_aux prec emax s m e l).
Proof.
  intros Hm. destruct (binary_round_aux_char s m e l Hm) as (m2 & Hm2 & ->).
  pose proof (shifted_nonneg m e Hm).
  apply finish_shape, shifted_nonneg. lia.
Qed.

Lemma shl_align_char (p : positive) (e e' : Z) :
  Z.pos (shl_align p e e').1 = Z.pos p * 2 ^ (e - (shl_align p e e').2) /\
  (shl_align p e e').2 = Z.min e e'.
Proof.
  unfold shl_align. destruct (e' - e) as [| d | d] eqn:Ed; cbn [fst snd].
  - replace (e - e) with 0 by lia. cbn. lia.
  - replace (e - e) with 0 by lia. cbn. lia.
  - rewrite Pos_iter_xO. replace (e - e') with (Z.pos d) by lia. lia.
Qed.

(** [binary_round] is [binary_round_aux] on the left-aligned mantissa. *)
Lemma binary_round_char (s : bool) (p : positive) (e : Z) :
  let ez := Z.min e (fexp64 (Z.pos (digits2_pos p) + e)) in
  binary_round prec emax s p e
  = binary_round_aux prec emax s (Z.pos p * 2 ^ (e - ez)) ez loc_Exact.
Proof.
  cbv zeta. unfold binary_round. rewrite fexp_eq.
  destruct (shl_align_char p e (fexp64 (Z.pos (digits2_pos p) + e))) as [Hm He].
  destruct (shl_align p e _) as [mz ez]. cbn [fst snd] in *. subst ez.
  now rewrite Hm.
Qed.

Lemma binary_round_sign (s : bool) (p : positive) (e : Z) :
  has_sign s (binary_round prec emax s p e).
Proof.
  rewrite binary_round_char. apply binary_round_aux_sign.
  apply Z.mul_nonneg_nonneg; [lia | apply Z.pow_nonneg; lia].
Qed.

End Shapes.

Section Comparisons.

Lemma compare_cont_Eq (p q : positive) : Pos.compare_cont Eq p q = (p ?= q)%positive.
Proof. reflexivity. Qed.

Ltac order_cases :=
  repeat match goal with
    | |- context [Z.compare ?a ?b] => destruct (Z.compare_spec a b)
    | H : context [Z.compare ?a ?b] |- _ => destruct (Z.compare_spec a b)
    | |- context [Pos.compare ?a ?b] => destruct (Pos.compare_spec a b)
    | H : context [Pos.compare ?a ?b] |- _ => destruct (Pos.compare_spec a b)
    end.

Ltac sf_solve :=
  cbn in *; rewrite ?compare_cont_Eq in *;
  try congruence; try tauto;
  order_cases; cbn in *; try congruence; try tauto; try lia.

Lemma SFleb_refl (x : spec_float) : x <> S754_nan -> SFleb x x = true.
Proof.
  intros Hx. unfold SFleb. destruct x as [[] | [] | | [] m e]; cbn; try congruence;
    now rewrite ?compare_cont_Eq, Z.compare_refl, Pos.compare_refl.
Qed.

Lemma SFltb_SFleb (x y : spec_float) : SFltb x y = true -> SFleb y x = false.
Proof.
  unfold SFltb, SFleb. intros H.
  destruct x as [[] | [] | | [] mx ex], y as [[] | [] | | [] my ey]; sf_solve.
Qed.

Lemma SFleb_total (x y : spec_float) :
  x <> S754_nan -> y <> S754_nan -> SFltb y x = false -> SFleb x y = true.
Proof.
  unfold SFltb, SFleb. intros Hx Hy H.
  destruct x as [[] | [] | | [] mx ex], y as [[] | [] | | [] my ey]; sf_solve.
Qed.

Lemma SFleb_trans (x y z : spec_float) :
  SFleb x y = true -> SFleb y z = true -> SFleb x z = true.
Proof.
  unfold SFleb. intros Hxy Hyz.
  destruct x as [[] | [] | | [] mx ex], y as [[] | [] | | [] my ey],
           z as [[] | [] | | [] mz ez]; sf_solve.
Qed.

Lemma SFleb_zero_nonneg (x : spec_float) :
  SFleb (S754_zero false) x = true <-> nonneg_sf x.
Proof.
  unfold SFleb. destruct x as [[] | [] | | [] m e]; cbn; intuition discriminate.
Qed.

Lemma SFltb_zero_neg (x : spec_float) :
  has_sign true x -> SFltb (S754_zero false) x = false.
Proof.
  unfold SFltb. destruct x as [[] | [] | | [] m e]; cbn; try tauto; discriminate.
Qed.

Lemma SFleb_not_nan (x y : spec_float) :
  SFleb x y = true -> x <> S754_nan /\ y <> S754_nan.
Proof.
  unfold SFleb. destruct x, y; cbn; try discriminate; split; discriminate.
Qed.

Lemma nonneg_not_nan (x : spec_float) : nonneg_sf x -> x <> S754_nan.
Proof. destruct x; cbn; intros H; (discriminate || contradiction). Qed.

Lemma has_sign_nonneg (x : spec_float) : has_sign false x -> nonneg_sf x.
Proof. destruct x as [[] | [] | | [] m e]; cbn; try tauto; discriminate. Qed.



End Comparisons.

Section Integers.

Lemma finish_pos (s : bool) (m e : Z) :
  0 < m -> e <= 971 -> finish s m e = S754_finite s (Z.to_pos m) e.
Proof.
  intros Hm He. unfold finish. destruct m as [| p | p]; try lia.
  destruct (Z.leb_spec e 971); [reflexivity | lia].
Qed.

Lemma shifted_id (m e : Z) :
  fexp64 (Zdigits2 m + e) <= e -> shifted m e = (m, e).
Proof.
  intros H. unfold shifted.
  destruct (Z.ltb_spec 0 (fexp64 (Zdigits2 m + e) - e)); [lia | reflexivity].
Qed.

Lemma Zdigits2_below (k b : Z) : 0 < k < 2 ^ b -> 0 <= b -> Zdigits2 k <= b.
Proof.
  intros [Hk Hlt] Hb. pose proof (Zdigits2_bounds k Hk) as [Hlo _].
  destruct (Z_lt_le_dec b (Zdigits2 k)) as [Hgt |]; [| assumption].
  assert (2 ^ b <= 2 ^ (Zdigits2 k - 1)) by (apply Z.pow_le_mono_r; lia). lia.
Qed.

(** An integer below [2^53] is represented exactly, with a 53-bit
    mantissa. *)
Lemma N64_small (k : Z) :
  1 <= k < 2 ^ 53 ->
  N64 k = S754_finite false (Z.to_pos (k * 2 ^ (53 - Zdigits2 k))) (Zdigits2 k - 53).
Proof.
  intros Hk. destruct k as [| p | p]; try lia.
  pose proof (Zdigits2_below (Z.pos p) 53 ltac:(lia) ltac:(lia)) as Hd.
  pose proof (Zdigits2_pos (Z.pos p) ltac:(lia)) as Hd0.
  unfold N64. cbn [binary_normalize]. rewrite binary_round_char.
  cbn [Zdigits2] in *. set (d := Z.pos (digits2_pos p)) in *.
  replace (Z.min 0 (fexp64 (d + 0))) with (d - 53) by (unfold fexp64; lia).
  replace (0 - (d - 53)) with (53 - d) by lia.
  set (M := Z.pos p * 2 ^ (53 - d)).
  assert (HM : 0 < M) by (subst M; apply Z.mul_pos_pos; [lia | apply Z.pow_pos_nonneg; lia]).
  assert (HdM : Zdigits2 M = 53).
  { subst M. rewrite Zdigits2_mul_pow2 by lia. cbn [Zdigits2]. fold d. lia. }
  assert (Hid : shifted M (d - 53) = (M, d - 53)).
  { apply shifted_id. rewrite HdM. unfold fexp64. lia. }
  rewrite binary_round_aux_exact.
  - rewrite Hid. cbn [fst snd]. rewrite Hid. cbn [fst snd].
    apply finish_pos; lia.
  - lia.
  - cbv zeta. left. rewrite HdM. unfold fexp64. lia.
Qed.

Lemma N64_repr (k : Z) :
  1 <= k <= 2 ^ 53 ->
  exists mk ek, N64 k = S754_finite false mk ek /\ -52 <= ek /\
                Z.pos mk * 2 ^ (ek + 52) = k * 2 ^ 52.
Proof.
  intros Hk. destruct (Z.eq_dec k (2 ^ 53)) as [-> | Hne].
  { eexists _, _. split; [vm_compute; reflexivity |]. split; [lia | reflexivity]. }
  assert (Hk' : 1 <= k < 2 ^ 53) by lia.
  pose proof (Zdigits2_below k 53 ltac:(lia) ltac:(lia)) as Hd.
  pose proof (Zdigits2_pos k ltac:(lia)) as Hd0.
  exists (Z.to_pos (k * 2 ^ (53 - Zdigits2 k))), (Zdigits2 k - 53).
  split; [now apply N64_small |]. split; [lia |].
  assert (0 < 2 ^ (53 - Zdigits2 k)) by (apply Z.pow_pos_nonneg; lia).
  rewrite Z2Pos.id by nia.
  rewrite <- Z.mul_assoc, <- Z.pow_add_r by lia. do 2 f_equal. lia.
Qed.

Lemma N64_aligned (j : Z) :
  1 <= j < 2 ^ 53 -> binary_normalize prec emax (j * 2 ^ 52) (-52) false = N64 j.
Proof.
  intros Hj.
  pose proof (Zdigits2_below j 53 ltac:(lia) ltac:(lia)) as Hd.
  pose proof (Zdigits2_pos j ltac:(lia)) as Hd0.
  rewrite (N64_small j Hj).
  assert (Hq : 0 < j * 2 ^ 52) by lia.
  destruct (j * 2 ^ 52) as [| q | q] eqn:Eq; try lia.
  assert (Hdq : Z.pos (digits2_pos q) = Zdigits2 j + 52).
  { change (Z.pos (digits2_pos q)) with (Zdigits2 (Z.pos q)).
    rewrite <- Eq. apply Zdigits2_mul_pow2; lia. }
  cbn [binary_normalize]. rewrite binary_round_char. rewrite Hdq.
  replace (Z.min (-52) (fexp64 (Zdigits2 j + 52 + -52))) with (-52)
    by (unfold fexp64; lia).
  replace (-52 - -52) with 0 by lia. rewrite Z.pow_0_r, Z.mul_1_r.
  set (n := Zdigits2 j - 1).
  assert (Hn : fexp64 (Zdigits2 (Z.pos q) + -52) - -52 = n).
  { cbn [Zdigits2]. rewrite Hdq. unfold fexp64. lia. }
  assert (Hsplit : Z.pos q = j * 2 ^ (52 - n) * 2 ^ n).
  { rewrite <- Eq, <- Z.mul_assoc, <- Z.pow_add_r by lia. do 2 f_equal. lia. }
  assert (Hpow : 0 < 2 ^ n) by (apply Z.pow_pos_nonneg; lia).
  assert (Hpow' : 0 < 2 ^ (52 - n)) by (apply Z.pow_pos_nonneg; lia).
  assert (Hshift : shifted (Z.pos q) (-52) = (j * 2 ^ (53 - Zdigits2 j), Zdigits2 j - 53)).
  { unfold shifted. rewrite Hn.
    replace (53 - Zdigits2 j) with (52 - n) by lia.
    destruct (Z.ltb_spec 0 n).
    - f_equal; [| lia]. rewrite Hsplit. apply Z.div_mul. lia.
    - assert (n = 0) by lia. f_equal; [| lia].
      rewrite Hsplit. replace n with 0 by lia. rewrite Z.pow_0_r. lia. }
  set (M := j * 2 ^ (53 - Zdigits2 j)) in *.
  assert (HM : 0 < M) by (subst M; apply Z.mul_pos_pos; [lia | apply Z.pow_pos_nonneg; lia]).
  assert (HdM : Zdigits2 M = 53).
  { subst M. rewrite Zdigits2_mul_pow2 by lia. lia. }
  rewrite binary_round_aux_exact.
  - rewrite Hshift. cbn [fst snd].
    rewrite shifted_id by (rewrite HdM; unfold fexp64; lia). cbn [fst snd].
    apply finish_pos; lia.
  - lia.
  - cbv zeta. rewrite Hn. right. rewrite Hsplit. apply Z_mod_mult.
Qed.

Lemma SFsub_N64 (k : Z) :
  1 <= k <= 2 ^ 53 -> SFsub prec emax (N64 k) (N64 1) = N64 (k - 1).
Proof.
  intros Hk. destruct (N64_repr k Hk) as (mk & ek & -> & Hek & Hval).
  change (N64 1) with (S754_finite false 4503599627370496 (-52)).
  cbn [SFsub cond_Zopp].
  replace (Z.min ek (-52)) with (-52) by lia.
  destruct (shl_align_char mk ek (-52)) as [Ha Hae].
  rewrite Z.min_r in Hae by lia. rewrite Hae in Ha.
  replace (ek - -52) with (ek + 52) in Ha by lia. rewrite Hval in Ha.
  rewrite Ha.
  change (Z.pos (shl_align 4503599627370496 (-52) (-52)).1) with (2 ^ 52).
  replace (k * 2 ^ 52 - 2 ^ 52) with ((k - 1) * 2 ^ 52) by lia.
  destruct (Z.eq_dec k 1) as [-> | Hne]; [reflexivity |].
  apply N64_aligned. lia.
Qed.

End Integers.

Section Validity.

Lemma shifted_digits_eq (m e : Z) :
  0 <= m ->
  Zdigits2 (shifted m e).1 = Z.max 0 (Zdigits2 m - ((shifted m e).2 - e)).
Proof.
  intros Hm. pose proof (Zdigits2_nonneg m) as Hd. unfold shifted.
  destruct (Z.ltb_spec 0 (fexp64 (Zdigits2 m + e) - e)) as [Hn | Hn]; cbn [fst snd].
  - rewrite Zdigits2_div_pow2 by lia. lia.
  - lia.
Qed.

(** Rounding a left-aligned mantissa gives a float in canonical form. *)
Lemma binary_round_aux_valid (s : bool) (m e : Z) (l : location) :
  0 <= m -> e <= fexp64 (Zdigits2 m + e) ->
  valid_binary (binary_round_aux prec emax s m e l) = true.
Proof.
  intros Hm Hal. destruct (binary_round_aux_char s m e l Hm) as (m2 & Hm2 & ->).
  pose proof (shifted_nonneg m e Hm) as Hm1.
  pose proof (shifted_digits_eq m e Hm) as Hd1.
  pose proof (shifted_exp m e) as He1.
  pose proof (Zdigits2_nonneg m) as Hd0.
  set (m1 := (shifted m e).1) in *. set (e1 := (shifted m e).2) in *.
  assert (Hm2' : 0 <= m2) by lia.
  assert (Hd2 : Zdigits2 m1 <= Zdigits2 m2 <= Zdigits2 m1 + 1).
  { destruct Hm2 as [-> | ->]; [lia |].
    split; [apply Zdigits2_le; lia | now apply Zdigits2_succ]. }
  pose proof (shifted_nonneg m2 e1 Hm2') as Hm3.
  pose proof (shifted_digits_eq m2 e1 Hm2') as Hd3.
  pose proof (shifted_exp m2 e1) as He3.
  set (m3 := (shifted m2 e1).1) in *. set (e3 := (shifted m2 e1).2) in *.
  unfold finish. destruct m3 as [| p | p] eqn:E3; [reflexivity | | lia].
  destruct (Z.leb_spec e3 971) as [Hle | Hgt]; [| reflexivity].
  assert (Hpos : 0 < Zdigits2 (Z.pos p)) by (apply Zdigits2_pos; lia).
  cbn [valid_binary]. unfold bounded, canonical_mantissa. rewrite fexp_eq.
  change (Z.pos (digits2_pos p)) with (Zdigits2 (Z.pos p)).
  apply andb_true_intro. split.
  - apply Z.eqb_eq. unfold fexp64 in *. lia.
  - apply Z.leb_le. change (emax - prec) with 971. exact Hle.
Qed.

Lemma binary_round_valid (s : bool) (p : positive) (e : Z) :
  valid_binary (binary_round prec emax s p e) = true.
Proof.
  rewrite binary_round_char.
  set (ez := Z.min e (fexp64 (Z.pos (digits2_pos p) + e))).
  assert (Hez : ez <= e) by (subst ez; lia).
  apply binary_round_aux_valid.
  - apply Z.mul_nonneg_nonneg; [lia | apply Z.pow_nonneg; lia].
  - rewrite Zdigits2_mul_pow2 by lia. cbn [Zdigits2].
    replace (Z.pos (digits2_pos p) + (e - ez) + ez) with (Z.pos (digits2_pos p) + e) by lia.
    subst ez. lia.
Qed.

Lemma binary_normalize_valid (m e : Z) (szero : bool) :
  valid_binary (binary_normalize prec emax m e szero) = true.
Proof. destruct m; [reflexivity | apply binary_round_valid ..]. Qed.

End Validity.

Section Magnitude.

(** Rounding a positive value above the underflow threshold and below the
    overflow threshold gives a finite non-zero float of about the same
    magnitude. *)
Lemma binary_round_aux_finite_pos (s : bool) (m e : Z) (l : location) :
  0 < m -> e <= 971 -> -1073 <= Zdigits2 m + e <= 1023 ->
  exists p e',
    binary_round_aux prec emax s m e l = S754_finite s p e' /\
    Zdigits2 m + e <= Zdigits2 (Z.pos p) + e' <= Zdigits2 m + e + 1 /\
    e' <= Z.max e (Z.max (Zdigits2 m + e - 52) (-1074)).
Proof.
  intros Hm He Ht.
  destruct (binary_round_aux_char s m e l ltac:(lia)) as (m2 & Hm2 & ->).
  pose proof (shifted_nonneg m e ltac:(lia)) as Hm1.
  pose proof (shifted_digits_eq m e ltac:(lia)) as Hd1.
  pose proof (shifted_exp m e) as He1.
  pose proof (Zdigits2_pos m Hm) as Hd0.
  set (m1 := (shifted m e).1) in *. set (e1 := (shifted m e).2) in *.
  assert (Hm2' : 0 <= m2) by lia.
  assert (Hd2 : Zdigits2 m1 <= Zdigits2 m2 <= Zdigits2 m1 + 1).
  { destruct Hm2 as [-> | ->]; [lia |].
    split; [apply Zdigits2_le; lia | now apply Zdigits2_succ]. }
  pose proof (shifted_nonneg m2 e1 Hm2') as Hm3.
  pose proof (shifted_digits_eq m2 e1 Hm2') as Hd3.
  pose proof (shifted_exp m2 e1) as He3.
  set (m3 := (shifted m2 e1).1) in *. set (e3 := (shifted m2 e1).2) in *.
  assert (Hd3' : 0 < Zdigits2 m3) by (unfold fexp64 in *; lia).
  assert (Hm3' : m3 <> 0) by (intros E; rewrite E in Hd3'; cbn in Hd3'; lia).
  assert (He3' : e3 <= 971) by (unfold fexp64 in *; lia).
  exists (Z.to_pos m3), e3. rewrite Z2Pos.id by lia.
  split; [apply finish_pos; lia |]. unfold fexp64 in *. lia.
Qed.

Lemma N64_shape (d : Z) :
  0 < d -> Zdigits2 d <= 1023 ->
  exists m e,
    N64 d = S754_finite false m e /\
    Zdigits2 d <= Zdigits2 (Z.pos m) + e <= Zdigits2 d + 1 /\
    e <= Z.max 0 (Zdigits2 d - 52).
Proof.
  intros Hd Hdig. destruct d as [| p | p]; try lia.
  unfold N64. cbn [binary_normalize]. rewrite binary_round_char.
  cbn [Zdigits2] in Hdig. pose proof (Zdigits2_pos (Z.pos p) ltac:(lia)) as Hp.
  cbn [Zdigits2] in Hp.
  set (ez := Z.min 0 (fexp64 (Z.pos (digits2_pos p) + 0))).
  assert (Hez : ez <= 0) by (subst ez; lia).
  assert (HM : 0 < Z.pos p * 2 ^ (0 - ez)).
  { apply Z.mul_pos_pos; [lia | apply Z.pow_pos_nonneg; lia]. }
  assert (Hdig' : Zdigits2 (Z.pos p * 2 ^ (0 - ez)) + ez = Z.pos (digits2_pos p)).
  { rewrite Zdigits2_mul_pow2 by lia. cbn [Zdigits2]. lia. }
  destruct (binary_round_aux_finite_pos false (Z.pos p * 2 ^ (0 - ez)) ez loc_Exact)
    as (m & e & Hr & Hmag & Hexp); [lia | lia | lia |].
  rewrite Hdig' in Hmag, Hexp.
  exists m, e. split; [exact Hr |]. cbn [Zdigits2] in *. lia.
Qed.

Lemma N64_sign_neg (d : Z) : d < 0 -> has_sign true (N64 d).
Proof.
  intros Hd. destruct d as [| p | p]; try lia.
  unfold N64. cbn [binary_normalize]. apply binary_round_sign.
Qed.

Lemma Zdigits2_size_t (n : Z) : 0 < n <= SIZE_MAX -> Zdigits2 n <= 64.
Proof. intros H. apply Zdigits2_below; unfold SIZE_MAX in *; lia. Qed.

(** The conversion of any [size_t] is finite and not negative. *)
Lemma N64_size_t (n : Z) :
  0 <= n <= SIZE_MAX ->
  N64 n = S754_zero false \/ exists m e, N64 n = S754_finite false m e.
Proof.
  intros Hn. destruct (Z.eq_dec n 0) as [-> | Hne]; [left; reflexivity | right].
  pose proof (Zdigits2_size_t n ltac:(lia)).
  destruct (N64_shape n) as (m & e & Hr & _); [lia | lia |]. eauto.
Qed.

End Magnitude.

Section Conversions.

Lemma to_double64_spec (n : Z) : Prim2SF (TokenBucket64.to_double n) = N64 n.
Proof.
  unfold TokenBucket64.to_double. apply Prim2SF_SF2Prim.
  apply binary_normalize_valid.
Qed.

End Conversions.

Section Division.

Lemma SFdiv_core_char (mx : positive) (ex : Z) (my : positive) (ey : Z) :
  let e' := Z.min (fexp64 (Zdigits2 (Z.pos mx) + ex - (Zdigits2 (Z.pos my) + ey))) (ex - ey) in
  exists l,
    SFdiv_core_binary prec emax (Z.pos mx) ex (Z.pos my) ey
    = (Z.pos mx * 2 ^ (ex - ey - e') / Z.pos my, e', l).
Proof.
  cbv zeta. unfold SFdiv_core_binary. rewrite fexp_eq.
  set (e' := Z.min _ (ex - ey)).
  assert (Hs : 0 <= ex - ey - e') by (subst e'; lia).
  assert (Hm' : match ex - ey - e' with
                | Z0 => Z.pos mx
                | Z.pos _ => Z.shiftl (Z.pos mx) (ex - ey - e')
                | Z.neg _ => 0
                end = Z.pos mx * 2 ^ (ex - ey - e')).
  { destruct (ex - ey - e') as [| s | s] eqn:Es; [cbn; lia | | lia].
    apply Z.shiftl_mul_pow2. lia. }
  rewrite Hm'. unfold Z.div.
  destruct (Z.div_eucl _ (Z.pos my)) as [q r]. eexists. reflexivity.
Qed.

Lemma SFdiv_sign (sx : bool) (x : spec_float) (sy : bool) (my : positive) (ey : Z) :
  has_sign sx x -> has_sign (xorb sx sy) (SFdiv prec emax x (S754_finite sy my ey)).
Proof.
  destruct x as [s | s | | s mx ex]; cbn [has_sign SFdiv]; try (intros ->; reflexivity);
    [tauto |].
  intros ->. destruct (SFdiv_core_char mx ex my ey) as [l ->].
  apply binary_round_aux_sign. apply Z.div_pos; [| lia].
  apply Z.mul_nonneg_nonneg; [lia | apply Z.pow_nonneg; lia].
Qed.

(** A quotient of two finite floats whose magnitudes are not too far apart
    is finite and not zero. *)
Lemma SFdiv_finite_pos (sx : bool) (mx : positive) (ex : Z)
      (sy : bool) (my : positive) (ey : Z) :
  -1020 <= Zdigits2 (Z.pos mx) + ex - (Zdigits2 (Z.pos my) + ey) <= 1022 ->
  ex - ey <= 971 ->
  exists p e',
    SFdiv prec emax (S754_finite sx mx ex) (S754_finite sy my ey)
    = S754_finite (xorb sx sy) p e'.
Proof.
  intros Ht He. cbn [SFdiv].
  destruct (SFdiv_core_char mx ex my ey) as [l ->].
  set (dx := Zdigits2 (Z.pos mx)) in *. set (dy := Zdigits2 (Z.pos my)) in *.
  set (e' := Z.min (fexp64 (dx + ex - (dy + ey))) (ex - ey)).
  set (s := ex - ey - e').
  assert (Hdx : 0 < dx) by (apply Zdigits2_pos; lia).
  assert (Hdy : 0 < dy) by (apply Zdigits2_pos; lia).
  assert (Hs : 53 - dx + dy <= s) by (subst s e'; unfold fexp64; lia).
  assert (Hs0 : 0 <= s) by (subst s e'; lia).
  set (m' := Z.pos mx * 2 ^ s).
  assert (Hm' : 0 < m') by (subst m'; apply Z.mul_pos_pos; [lia | apply Z.pow_pos_nonneg; lia]).
  assert (Hdm' : Zdigits2 m' = dx + s) by (subst m'; apply Zdigits2_mul_pow2; lia).
  destruct (Zdigits2_bounds (Z.pos my) ltac:(lia)) as [Hylo Hyhi]. fold dy in Hylo, Hyhi.
  assert (Hpow1 : 0 < 2 ^ (dy - 1)) by (apply Z.pow_pos_nonneg; lia).
  assert (Hq0 : 0 <= m' / Z.pos my) by (apply Z.div_pos; lia).
  assert (Hlow : Zdigits2 (m' / 2 ^ dy) <= Zdigits2 (m' / Z.pos my)).
  { apply Zdigits2_le. split; [apply Z.div_pos; lia |].
    apply Z.div_le_compat_l; lia. }
  assert (Hupp : Zdigits2 (m' / Z.pos my) <= Zdigits2 (m' / 2 ^ (dy - 1))).
  { apply Zdigits2_le. split; [exact Hq0 |].
    apply Z.div_le_compat_l; lia. }
  rewrite Zdigits2_div_pow2 in Hlow by lia.
  rewrite Zdigits2_div_pow2 in Hupp by lia.
  assert (Hq : 0 < m' / Z.pos my).
  { destruct (Z.eq_dec (m' / Z.pos my) 0) as [E | E]; [| lia].
    rewrite E in Hlow. change (Zdigits2 0) with 0 in Hlow. lia. }
  destruct (binary_round_aux_finite_pos (xorb sx sy) (m' / Z.pos my) e' l)
    as (p & e'' & Hr & _); [exact Hq | subst e'; lia | subst s e'; unfold fexp64 in *; lia |].
  exists p, e''. exact Hr.
Qed.

Lemma seconds64_spec (d : Z) :
  Prim2SF (TokenBucket64.seconds d)
  = SFdiv prec emax (N64 d) (S754_finite false 8388608000000000 (-23)).
Proof.
  unfold TokenBucket64.seconds. rewrite FloatAxioms.div_spec, to_double64_spec. reflexivity.
Qed.

(** No time has passed: the test [timePassed > 0] fails. *)
Lemma seconds64_skip (d : Z) : d <= 0 -> (0 <? TokenBucket64.seconds d)%float = false.
Proof.
  intros Hd. destruct (Z.eq_dec d 0) as [-> | Hne]; [reflexivity |].
  rewrite FloatAxioms.ltb_spec, seconds64_spec. apply SFltb_zero_neg.
  apply (SFdiv_sign true _ false). apply N64_sign_neg. lia.
Qed.

(** Time has passed: [timePassed] is a finite positive number. *)
Lemma seconds64_pos (d : Z) :
  0 < d < 2 ^ 63 -> exists m e, Prim2SF (TokenBucket64.seconds d) = S754_finite false m e.
Proof.
  intros Hd. rewrite seconds64_spec.
  pose proof (Zdigits2_below d 63 ltac:(lia) ltac:(lia)) as Hdig.
  pose proof (Zdigits2_pos d ltac:(lia)) as Hdig0.
  destruct (N64_shape d) as (m & e & -> & Hmag & Hexp); [lia | lia |].
  assert (Hdy : Zdigits2 (Z.pos 8388608000000000) = 53) by (vm_compute; reflexivity).
  destruct (SFdiv_finite_pos false m e false 8388608000000000 (-23)) as (p & e' & Hr).
  - rewrite Hdy. lia.
  - lia.
  - exists p, e'. exact Hr.
Qed.

Lemma seconds64_fill (d : Z) :
  0 < d < 2 ^ 63 -> (0 <? TokenBucket64.seconds d)%float = true.
Proof.
  intros Hd. rewrite FloatAxioms.ltb_spec. destruct (seconds64_pos d Hd) as (m & e & ->). reflexivity.
Qed.

End Division.

Section Arithmetic.

Lemma valid_canonical (s : bool) (m : positive) (e : Z) :
  valid_binary (S754_finite s m e) = true ->
  fexp64 (Zdigits2 (Z.pos m) + e) = e /\ e <= 971.
Proof.
  cbn [valid_binary]. unfold bounded, canonical_mantissa. rewrite fexp_eq.
  intros H. apply andb_prop in H as [Hc Hb].
  apply Z.leb_le in Hb. change (emax - prec) with 971 in Hb.
  split; [| exact Hb]. now apply Z.eqb_eq in Hc.
Qed.

Lemma fexp64_mono (a b : Z) : a <= b -> fexp64 a <= fexp64 b.
Proof. unfold fexp64. lia. Qed.

Lemma SFmul_pos_nonneg (mx : positive) (ex : Z) (y : spec_float) :
  nonneg_sf y -> nonneg_sf (SFmul prec emax (S754_finite false mx ex) y).
Proof.
  destruct y as [s | [] | | [] my ey]; cbn [nonneg_sf SFmul xorb]; try tauto.
  intros _. apply has_sign_nonneg, binary_round_aux_sign. lia.
Qed.

Lemma SFadd_nonneg (x y : spec_float) :
  nonneg_sf x -> nonneg_sf y -> nonneg_sf (SFadd prec emax x y).
Proof.
  destruct x as [[] | [] | | [] mx ex], y as [[] | [] | | [] my ey];
    cbn [nonneg_sf SFadd]; try tauto.
  intros _ _. cbn [cond_Zopp Z.add binary_normalize].
  apply has_sign_nonneg, binary_round_sign.
Qed.

(** Rounding a value below a representable one does not exceed it. *)
Lemma binary_round_aux_below (M ez : Z) (mx : positive) (ex : Z) (l : location) :
  0 <= M -> ez <= ex -> ex <= 971 ->
  fexp64 (Zdigits2 (Z.pos mx) + ex) = ex ->
  M < Z.pos mx * 2 ^ (ex - ez) ->
  SFleb (binary_round_aux prec emax false M ez l) (S754_finite false mx ex) = true.
Proof.
  intros HM Hez Hex Hcan Hlt.
  destruct (binary_round_aux_char false M ez l HM) as (m2 & Hm2 & ->).
  pose proof (shifted_nonneg M ez HM) as Hm1.
  pose proof (shifted_exp M ez) as He1.
  destruct (shifted_floor M ez HM) as (Hfl & _ & Hee).
  set (m1 := (shifted M ez).1) in *. set (e1 := (shifted M ez).2) in *.
  assert (HdM : Zdigits2 M <= Zdigits2 (Z.pos mx) + (ex - ez)).
  { rewrite <- Zdigits2_mul_pow2 by lia. apply Zdigits2_le. lia. }
  assert (He1x : e1 <= ex).
  { pose proof (fexp64_mono (Zdigits2 M + ez) (Zdigits2 (Z.pos mx) + ex) ltac:(lia)). lia. }
  set (K := Z.pos mx * 2 ^ (ex - e1)).
  assert (HK : Z.pos mx * 2 ^ (ex - ez) = K * 2 ^ (e1 - ez)).
  { subst K. rewrite <- Z.mul_assoc, <- Z.pow_add_r by lia. do 2 f_equal. lia. }
  assert (HP : 0 < 2 ^ (e1 - ez)) by (apply Z.pow_pos_nonneg; lia).
  assert (Hm2K : 0 <= m2 <= K) by nia.
  assert (HdK : Zdigits2 K = Zdigits2 (Z.pos mx) + (ex - e1)).
  { subst K. apply Zdigits2_mul_pow2; lia. }
  assert (Hd2 : Zdigits2 m2 <= Zdigits2 K) by (apply Zdigits2_le; lia).
  pose proof (shifted_nonneg m2 e1 ltac:(lia)) as Hm3.
  pose proof (shifted_exp m2 e1) as He3.
  destruct (shifted_floor m2 e1 ltac:(lia)) as (Hfl3 & _ & Hee3).
  set (m3 := (shifted m2 e1).1) in *. set (e3 := (shifted m2 e1).2) in *.
  assert (He3x : e3 <= ex).
  { pose proof (fexp64_mono (Zdigits2 m2 + e1) (Zdigits2 (Z.pos mx) + ex) ltac:(lia)). lia. }
  unfold finish. destruct m3 as [| p | p]; [reflexivity | | lia].
  destruct (Z.leb_spec e3 971); [| lia].
  unfold SFleb. cbn [SFcompare]. rewrite ?compare_cont_Eq.
  destruct (Z.compare_spec e3 ex) as [Heq | Hlt3 | Hgt]; [| reflexivity | lia].
  subst e3. rewrite Heq in Hfl3. fold K in Hfl3.
  assert (HP3 : 0 < 2 ^ (ex - e1)) by (apply Z.pow_pos_nonneg; lia).
  assert (Hpm : Z.pos p <= Z.pos mx) by (subst K; nia).
  destruct (Pos.compare_spec p mx); (reflexivity || lia).
Qed.

(** On canonical floats the order of the machine is the order of the
    values. *)
Lemma SFleb_aligned_le (mx : positive) (ex : Z) (my : positive) (ey : Z) :
  fexp64 (Zdigits2 (Z.pos mx) + ex) = ex ->
  fexp64 (Zdigits2 (Z.pos my) + ey) = ey ->
  SFleb (S754_finite false my ey) (S754_finite false mx ex) = true ->
  Z.pos my * 2 ^ (ey - Z.min ex ey) <= Z.pos mx * 2 ^ (ex - Z.min ex ey).
Proof.
  intros Hcx Hcy. unfold SFleb. cbn [SFcompare]. rewrite ?compare_cont_Eq.
  destruct (Z.compare_spec ey ex) as [Heq | Hlt | Hgt]; [| | discriminate].
  - subst ey. rewrite Z.min_id, Z.sub_diag, Z.pow_0_r.
    destruct (Pos.compare_spec my mx); (discriminate || lia).
  - intros _. rewrite Z.min_r by lia. rewrite Z.sub_diag, Z.pow_0_r.
    pose proof (Zdigits2_bounds (Z.pos mx) ltac:(lia)) as [Hxlo _].
    pose proof (Zdigits2_bounds (Z.pos my) ltac:(lia)) as [_ Hyhi].
    assert (Hdx : Zdigits2 (Z.pos mx) = 53) by (unfold fexp64 in *; lia).
    assert (Hdy : Zdigits2 (Z.pos my) <= 53) by (unfold fexp64 in *; lia).
    rewrite Hdx in Hxlo.
    assert (Hy53 : 2 ^ Zdigits2 (Z.pos my) <= 2 ^ 53).
    { apply Z.pow_le_mono_r; lia. }
    assert (H2 : 2 ^ 1 <= 2 ^ (ex - ey)) by (apply Z.pow_le_mono_r; lia).
    change (2 ^ 1) with 2 in H2. change (53 - 1) with 52 in Hxlo.
    assert (H53 : 2 ^ 53 = 2 * 2 ^ 52) by reflexivity.
    nia.
Qed.

Lemma SFleb_of_values (mx : positive) (ex : Z) (my : positive) (ey c : Z) :
  fexp64 (Zdigits2 (Z.pos mx) + ex) = ex ->
  fexp64 (Zdigits2 (Z.pos my) + ey) = ey ->
  c <= ex -> c <= ey ->
  Z.pos my * 2 ^ (ey - c) <= Z.pos mx * 2 ^ (ex - c) ->
  SFleb (S754_finite false my ey) (S754_finite false mx ex) = true.
Proof.
  intros Hcx Hcy Hcex Hcey Hval.
  unfold SFleb. cbn [SFcompare]. rewrite ?compare_cont_Eq.
  destruct (Z.compare_spec ey ex) as [Heq | Hlt | Hgt]; [| reflexivity |].
  - subst ey. assert (0 < 2 ^ (ex - c)) by (apply Z.pow_pos_nonneg; lia).
    destruct (Pos.compare_spec my mx); (reflexivity || nia).
  - exfalso.
    pose proof (Zdigits2_bounds (Z.pos my) ltac:(lia)) as [Hylo _].
    pose proof (Zdigits2_bounds (Z.pos mx) ltac:(lia)) as [_ Hxhi].
    assert (Hdy : Zdigits2 (Z.pos my) = 53) by (unfold fexp64 in *; lia).
    assert (Hdx : Zdigits2 (Z.pos mx) <= 53) by (unfold fexp64 in *; lia).
    rewrite Hdy in Hylo. change (53 - 1) with 52 in Hylo.
    assert (Hx53 : 2 ^ Zdigits2 (Z.pos mx) <= 2 ^ 53) by (apply Z.pow_le_mono_r; lia).
    assert (Hsplit : 2 ^ (ey - c) = 2 ^ (ey - ex) * 2 ^ (ex - c)).
    { rewrite <- Z.pow_add_r by lia. f_equal. lia. }
    assert (H2 : 2 ^ 1 <= 2 ^ (ey - ex)) by (apply Z.pow_le_mono_r; lia).
    change (2 ^ 1) with 2 in H2.
    assert (HP : 0 < 2 ^ (ex - c)) by (apply Z.pow_pos_nonneg; lia).
    assert (H53 : 2 ^ 53 = 2 * 2 ^ 52) by reflexivity.
    rewrite Hsplit in Hval.
    assert (Z.pos mx < 2 * 2 ^ 52) by lia.
    assert (2 * 2 ^ 52 <= Z.pos my * 2 ^ (ey - ex)) by nia.
    nia.
Qed.

(** Taking away a finite amount that is not above the level leaves a level
    that is not negative and not above the old one. *)
Lemma SFsub_le (x y : spec_float) :
  valid_binary x = true -> valid_binary y = true ->
  nonneg_sf y -> finite_sf y -> SFleb y x = true ->
  nonneg_sf (SFsub prec emax x y) /\ SFleb (SFsub prec emax x y) x = true.
Proof.
  intros Hvx Hvy Hy Hfy Hle.
  destruct x as [[] | [] | | [] mx ex], y as [[] | [] | | [] my ey];
    cbn [nonneg_sf finite_sf] in Hy, Hfy; try tauto;
    try (cbn in Hle; discriminate);
    try (cbn; split; [exact I | reflexivity]);
    try (split; [exact I | apply SFleb_refl; discriminate]).
  destruct (valid_canonical _ _ _ Hvx) as [Hcx Hbx].
  destruct (valid_canonical _ _ _ Hvy) as [Hcy Hby].
  pose proof (SFleb_aligned_le mx ex my ey Hcx Hcy Hle) as Hval.
  cbn [SFsub cond_Zopp].
  destruct (shl_align_char mx ex (Z.min ex ey)) as [Ha Hae].
  destruct (shl_align_char my ey (Z.min ex ey)) as [Hb Hbe].
  rewrite Hae in Ha. rewrite Hbe in Hb.
  replace (Z.min ex (Z.min ex ey)) with (Z.min ex ey) in Ha by lia.
  replace (Z.min ey (Z.min ex ey)) with (Z.min ex ey) in Hb by lia.
  set (ez := Z.min ex ey) in *.
  set (a := Z.pos (shl_align mx ex ez).1) in *.
  set (b := Z.pos (shl_align my ey ez).1) in *.
  assert (Hbpos : 0 < b) by (subst b; lia).
  rewrite <- Ha, <- Hb in Hval.
  destruct (a - b) as [| v | v] eqn:Ev; [split; [exact I | reflexivity] | | lia].
  cbn [binary_normalize]. split; [apply has_sign_nonneg, binary_round_sign |].
  rewrite binary_round_char.
  set (ez' := Z.min ez (fexp64 (Z.pos (digits2_pos v) + ez))).
  assert (Hez' : ez' <= ez) by (subst ez'; lia).
  assert (Hezx : ez <= ex) by (subst ez; lia).
  apply binary_round_aux_below; try assumption.
  - apply Z.mul_nonneg_nonneg; [lia | apply Z.pow_nonneg; lia].
  - lia.
  - assert (HP : 0 < 2 ^ (ez - ez')) by (apply Z.pow_pos_nonneg; lia).
    replace (ex - ez') with ((ex - ez) + (ez - ez')) by lia.
    rewrite Z.pow_add_r by lia. rewrite Z.mul_assoc, <- Ha. nia.
Qed.

End Arithmetic.

(** * The quota cell in binary64 *)

Section Cell64.

Import TokenBucket64.

Implicit Types (b : TokenBucket64.t) (now n d : Z) (x y : float).

Lemma leb_zero_nonneg x : (0 <=? x)%float = true <-> nonneg_sf (Prim2SF x).
Proof. rewrite FloatAxioms.leb_spec. apply SFleb_zero_nonneg. Qed.

Lemma leb_refl64 x : Prim2SF x <> S754_nan -> (x <=? x)%float = true.
Proof. intros H. rewrite FloatAxioms.leb_spec. now apply SFleb_refl. Qed.

Lemma leb_trans64 x y z :
  (x <=? y)%float = true -> (y <=? z)%float = true -> (x <=? z)%float = true.
Proof. rewrite !FloatAxioms.leb_spec. apply SFleb_trans. Qed.

Lemma std_min64_cases x y : std_min x y = x \/ std_min x y = y.
Proof. unfold std_min. destruct (y <? x)%float; auto. Qed.

(** The clamp: the result is not above the bound, unless it is not a
    number. *)
Lemma std_min64_upper x y :
  Prim2SF x <> S754_nan -> Prim2SF y <> S754_nan -> (std_min x y <=? y)%float = true.
Proof.
  intros Hx Hy. unfold std_min. destruct (y <? x)%float eqn:E.
  - now apply leb_refl64.
  - rewrite FloatAxioms.ltb_spec in E. rewrite FloatAxioms.leb_spec.
    now apply SFleb_total.
Qed.

Lemma to_double_nonneg64 n :
  0 <= n <= SIZE_MAX ->
  nonneg_sf (Prim2SF (to_double n)) /\ finite_sf (Prim2SF (to_double n)).
Proof.
  intros Hn. rewrite to_double64_spec.
  destruct (N64_size_t n Hn) as [-> | (m & e & ->)]; split; exact I.
Qed.

Lemma in_range_capacity b :
  tokens_in_range b -> nonneg_sf (Prim2SF (to_double (bucketSize_ b))).
Proof.
  intros [Hlo Hhi]. apply leb_zero_nonneg. eapply leb_trans64; eassumption.
Qed.

(** The replenishment pass is skipped when no time has passed. *)
Lemma refillTokens64_skip now b : now <= lastRefill_ b -> refillTokens now b = b.
Proof.
  intros H. unfold refillTokens. rewrite seconds64_skip by lia. reflexivity.
Qed.

(** Otherwise it adds [elapsed * refillRate], clamped to the capacity. *)
Lemma refillTokens64_fill now b :
  lastRefill_ b < now -> in_int64 (now - lastRefill_ b) ->
  refillTokens now b =
    {| tokens_ := std_min (tokens_ b + seconds (now - lastRefill_ b) * refillRate_ b)%float
                          (to_double (bucketSize_ b));
       bucketSize_ := bucketSize_ b;
       refillRate_ := refillRate_ b;
       lastRefill_ := now;
       totalRequests_ := totalRequests_ b;
       acceptedRequests_ := acceptedRequests_ b |}.
Proof.
  intros H [_ Hhi]. unfold refillTokens. rewrite seconds64_fill by lia. reflexivity.
Qed.

Lemma refillTokens64_frame now b :
  bucketSize_ (refillTokens now b) = bucketSize_ b /\
  refillRate_ (refillTokens now b) = refillRate_ b /\
  totalRequests_ (refillTokens now b) = totalRequests_ b /\
  acceptedRequests_ (refillTokens now b) = acceptedRequests_ b.
Proof. unfold refillTokens. destruct (0 <? _)%float; cbn; auto. Qed.

Lemma refillTokens64_in_range now b :
  (0 <=? refillRate_ b)%float = true ->
  in_int64 (now - lastRefill_ b) ->
  tokens_in_range b -> tokens_in_range (refillTokens now b).
Proof.
  intros Hrate Hd Hinv.
  destruct (Z_lt_le_dec (lastRefill_ b) now) as [Hlate | Hearly];
    [| now rewrite refillTokens64_skip].
  rewrite (refillTokens64_fill now b Hlate Hd).
  pose proof (in_range_capacity b Hinv) as Hcap.
  destruct Hinv as [Hlo Hhi]. destruct Hd as [_ Hd].
  apply leb_zero_nonneg in Hlo, Hrate.
  destruct (seconds64_pos (now - lastRefill_ b) ltac:(lia)) as (m & e & Hsec).
  set (sum := (tokens_ b + seconds (now - lastRefill_ b) * refillRate_ b)%float).
  assert (Hsum : nonneg_sf (Prim2SF sum)).
  { subst sum. rewrite FloatAxioms.add_spec, FloatAxioms.mul_spec, Hsec.
    apply SFadd_nonneg; [exact Hlo | now apply SFmul_pos_nonneg]. }
  split; cbn [tokens_ bucketSize_].
  - apply leb_zero_nonneg. destruct (std_min64_cases sum (to_double (bucketSize_ b))) as [-> | ->];
      assumption.
  - apply std_min64_upper; now apply nonneg_not_nan.
Qed.

Lemma consume64_in_range now n b :
  (0 <=? refillRate_ b)%float = true ->
  in_int64 (now - lastRefill_ b) ->
  0 <= n <= SIZE_MAX ->
  tokens_in_range b -> tokens_in_range (consume now n b).2.
Proof.
  intros Hrate Hd Hn Hinv.
  destruct (refillTokens64_in_range now b Hrate Hd Hinv) as [Hlo Hhi].
  unfold consume. destruct (to_double n <=? _)%float eqn:E; cbn [snd tokens_in_range];
    [| split; assumption].
  destruct (to_double_nonneg64 n Hn) as [Hnn Hfin].
  rewrite FloatAxioms.leb_spec in E.
  destruct (SFsub_le (Prim2SF (tokens_ (refillTokens now b))) (Prim2SF (to_double n)))
    as [Hnon Hle]; try assumption; try apply Prim2SF_valid.
  split; cbn [tokens_ bucketSize_].
  - apply leb_zero_nonneg. now rewrite FloatAxioms.sub_spec.
  - apply leb_trans64 with (tokens_ (refillTokens now b)); [| exact Hhi].
    now rewrite FloatAxioms.leb_spec, FloatAxioms.sub_spec.
Qed.

Lemma new64_in_range now (capacity : Z) (rate : float) :
  0 <= capacity <= SIZE_MAX -> tokens_in_range (new now capacity rate).
Proof.
  intros H. destruct (to_double_nonneg64 capacity H) as [Hnn _].
  split; cbn; [now apply leb_zero_nonneg | now apply leb_refl64, nonneg_not_nan].
Qed.

Lemma reset64_in_range now b : tokens_in_range b -> tokens_in_range (reset now b).
Proof.
  intros Hinv. pose proof (in_range_capacity b Hinv) as Hcap.
  split; cbn; [now apply leb_zero_nonneg | now apply leb_refl64, nonneg_not_nan].
Qed.

End Cell64.

(** ** Integer levels *)

Section IntegerLevels.

Import TokenBucket64.

Implicit Types (b : TokenBucket64.t) (now n k : Z).

Lemma N64_canonical (k : Z) (m : positive) (e : Z) :
  N64 k = S754_finite false m e -> fexp64 (Zdigits2 (Z.pos m) + e) = e.
Proof.
  intros H. pose proof (binary_normalize_valid k 0 false) as Hv.
  fold (N64 k) in Hv. rewrite H in Hv. now apply valid_canonical in Hv.
Qed.

(** Up to [2^53] the conversion preserves the order of the integers. *)
Lemma N64_le (k n : Z) : 0 <= k <= n -> n <= 2 ^ 53 -> SFleb (N64 k) (N64 n) = true.
Proof.
  intros Hk Hn. destruct (Z.eq_dec k 0) as [-> | Hk0].
  { destruct (N64_size_t n) as [-> | (m & e & ->)]; [unfold SIZE_MAX; lia | reflexivity ..]. }
  destruct (N64_repr k ltac:(lia)) as (mk & ek & Ek & Hek & Hvk).
  destruct (N64_repr n ltac:(lia)) as (mn & en & En & Hen & Hvn).
  pose proof (N64_canonical _ _ _ Ek). pose proof (N64_canonical _ _ _ En).
  rewrite Ek, En. apply (SFleb_of_values mn en mk ek (-52)); try assumption.
  replace (ek - -52) with (ek + 52) by lia. replace (en - -52) with (en + 52) by lia.
  rewrite Hvk, Hvn. apply Z.mul_le_mono_nonneg_r; lia.
Qed.

Lemma N64_lt (k n : Z) : 0 <= k < n -> n <= 2 ^ 53 -> SFleb (N64 n) (N64 k) = false.
Proof.
  intros Hk Hn. destruct (Z.eq_dec k 0) as [-> | Hk0].
  { destruct (N64_repr n ltac:(lia)) as (mn & en & -> & _). reflexivity. }
  destruct (N64_repr k ltac:(lia)) as (mk & ek & Ek & Hek & Hvk).
  destruct (N64_repr n ltac:(lia)) as (mn & en & En & Hen & Hvn).
  pose proof (N64_canonical _ _ _ Ek) as Hck. pose proof (N64_canonical _ _ _ En) as Hcn.
  rewrite Ek, En. destruct (SFleb _ _) eqn:E; [exfalso | reflexivity].
  pose proof (SFleb_aligned_le mk ek mn en Hck Hcn E) as Hval.
  set (ez := Z.min ek en) in *.
  assert (HP : 0 < 2 ^ (ez + 52)) by (apply Z.pow_pos_nonneg; lia).
  assert (Hsk : 2 ^ (ek + 52) = 2 ^ (ek - ez) * 2 ^ (ez + 52)).
  { rewrite <- Z.pow_add_r by lia. f_equal. lia. }
  assert (Hsn : 2 ^ (en + 52) = 2 ^ (en - ez) * 2 ^ (ez + 52)).
  { rewrite <- Z.pow_add_r by lia. f_equal. lia. }
  rewrite Hsk in Hvk. rewrite Hsn in Hvn.
  assert (H52 : 0 < 2 ^ 52) by lia.
  assert (n * 2 ^ 52 <= k * 2 ^ 52) by nia.
  nia.
Qed.

(** The comparison of [consume] is exact on integers up to [2^53]. *)
Lemma to_double64_leb (n k : Z) :
  0 <= n <= 2 ^ 53 -> 0 <= k <= 2 ^ 53 ->
  (to_double n <=? to_double k)%float = (n <=? k).
Proof.
  intros Hn Hk. rewrite FloatAxioms.leb_spec, !to_double64_spec.
  destruct (Z.leb_spec n k); [apply N64_le | apply N64_lt]; lia.
Qed.

Lemma to_double64_pred (k : Z) :
  1 <= k <= 2 ^ 53 -> (to_double k - to_double 1)%float = to_double (k - 1).
Proof.
  intros Hk. apply Prim2SF_inj.
  rewrite FloatAxioms.sub_spec, !to_double64_spec. now apply SFsub_N64.
Qed.

(** With rate 0 the replenishment pass leaves an integer level where it
    is. *)
Lemma refillTokens64_rate0 now b (k : Z) :
  refillRate_ b = 0%float ->
  tokens_ b = to_double k ->
  0 <= k <= bucketSize_ b -> bucketSize_ b <= 2 ^ 53 ->
  in_int64 (now - lastRefill_ b) ->
  tokens_ (refillTokens now b) = to_double k.
Proof.
  intros Hrate Htok Hk Hcap Hd.
  destruct (Z_lt_le_dec (lastRefill_ b) now) as [Hlate | Hearly];
    [| now rewrite refillTokens64_skip].
  rewrite (refillTokens64_fill now b Hlate Hd). cbn [tokens_].
  destruct Hd as [_ Hd].
  destruct (seconds64_pos (now - lastRefill_ b) ltac:(lia)) as (m & e & Hsec).
  assert (Hsum : (tokens_ b + seconds (now - lastRefill_ b) * refillRate_ b)%float
                 = to_double k).
  { apply Prim2SF_inj.
    rewrite FloatAxioms.add_spec, FloatAxioms.mul_spec, Hsec, Hrate, Htok, to_double64_spec.
    change (Prim2SF 0) with (S754_zero false). cbn [SFmul xorb].
    destruct (N64_size_t k) as [-> | (mk & ek & ->)]; [unfold SIZE_MAX; lia | reflexivity ..]. }
  rewrite Hsum. unfold std_min.
  destruct (_ <? _)%float eqn:E; [| reflexivity].
  rewrite FloatAxioms.ltb_spec, !to_double64_spec in E. apply SFltb_SFleb in E.
  rewrite N64_le in E by lia. discriminate.
Qed.

Lemma consume_each64_app (l1 l2 : list Z) b :
  consume_each (l1 ++ l2) b =
    let '(oks1, b1) := consume_each l1 b in
    let '(oks2, b2) := consume_each l2 b1 in
    (oks1 ++ oks2, b2).
Proof.
  revert b. induction l1 as [| now l1 IH]; intros b; simpl.
  - now destruct (consume_each l2 b).
  - destruct (consume now 1 b) as [ok b1].
    rewrite IH. destruct (consume_each l1 b1) as [oks1 b2].
    now destruct (consume_each l2 b2).
Qed.

Lemma refillTokens64_lastRefill now b (t0 : Z) :
  t0 <= now < t0 + 2 ^ 63 -> t0 <= lastRefill_ b < t0 + 2 ^ 63 ->
  t0 <= lastRefill_ (refillTokens now b) < t0 + 2 ^ 63.
Proof.
  intros Hnow Hlast. unfold refillTokens. destruct (0 <? _)%float; cbn; assumption.
Qed.

(** A cell with rate 0 that holds [k] tokens accepts [k] requests in a
    row, at whatever clock readings, and is empty afterwards. *)
Lemma consume_each64_drain (t0 : Z) (nows : list Z) :
  forall b,
    refillRate_ b = 0%float ->
    tokens_ b = to_double (Z.of_nat (length nows)) ->
    Z.of_nat (length nows) <= bucketSize_ b -> bucketSize_ b <= 2 ^ 53 ->
    t0 <= lastRefill_ b < t0 + 2 ^ 63 ->
    Forall (fun now => t0 <= now < t0 + 2 ^ 63) nows ->
    let r := consume_each nows b in
    r.1 = replicate (length nows) true /\
    refillRate_ r.2 = 0%float /\ tokens_ r.2 = to_double 0 /\
    bucketSize_ r.2 = bucketSize_ b /\
    t0 <= lastRefill_ r.2 < t0 + 2 ^ 63.
Proof.
  induction nows as [| now rest IH]; intros b Hrate Htok Hk Hcap Hlast Hnows; cbv zeta.
  - cbn in *. auto.
  - apply Forall_cons in Hnows as [Hnow Hrest].
    cbn [length] in Htok, Hk. rewrite Nat2Z.inj_succ in Htok, Hk.
    assert (Hd : in_int64 (now - lastRefill_ b)) by (unfold in_int64; lia).
    pose proof (refillTokens64_rate0 now b _ Hrate Htok ltac:(lia) Hcap Hd) as Hkeep.
    destruct (refillTokens64_frame now b) as (Hsize & Hrate' & _).
    pose proof (refillTokens64_lastRefill now b t0 Hnow Hlast) as Hlast'.
    cbn [consume_each]. unfold consume. rewrite Hkeep.
    rewrite to_double64_leb by lia.
    destruct (Z.leb_spec 1 (Z.succ (Z.of_nat (length rest)))) as [_ | Hbad]; [| lia].
    rewrite to_double64_pred by lia.
    replace (Z.succ (Z.of_nat (length rest)) - 1) with (Z.of_nat (length rest)) by lia.
    match goal with |- context [consume_each rest ?b1] =>
      destruct (IH b1) as (Hoks & Hr & Hz & Hs & Hl) end;
      cbn [refillRate_ tokens_ bucketSize_ lastRefill_].
    + congruence.
    + reflexivity.
    + lia.
    + lia.
    + exact Hlast'.
    + exact Hrest.
    + cbn [bucketSize_] in Hs.
      destruct (consume_each rest _) as [oks b2].
      cbn [fst snd length replicate] in *. rewrite Hoks.
      repeat split; try assumption; lia.
Qed.

End IntegerLevels.

Section Saturation.

Import TokenBucket64.

(** At a level of [2^54] one token is below the rounding step: an accepted
    [consume(1)] leaves the level where it was. *)
Lemma consume64_saturated (b : TokenBucket64.t) :
  tokens_ b = to_double (2 ^ 54) -> lastRefill_ b = 0 ->
  (consume 0 1 b).1 = true /\
  tokens_ (consume 0 1 b).2 = to_double (2 ^ 54) /\
  lastRefill_ (consume 0 1 b).2 = 0.
Proof.
  intros Htok Hlast. rewrite (surjective_pairing (consume 0 1 b)).
  unfold consume. rewrite refillTokens64_skip by lia. rewrite Htok.
  assert (Hle : (to_double 1 <=? to_double (2 ^ 54))%float = true) by reflexivity.
  assert (Hsub : (to_double (2 ^ 54) - to_double 1)%float = to_double (2 ^ 54))
    by reflexivity.
  rewrite Hle, Hsub. cbn. auto.
Qed.

Lemma consume_each64_saturated (k : nat) :
  forall b : TokenBucket64.t,
    tokens_ b = to_double (2 ^ 54) -> lastRefill_ b = 0 ->
    (consume_each (replicate k 0) b).1 = replicate k true.
Proof.
  induction k as [| k IH]; intros b Htok Hlast; [reflexivity |].
  destruct (consume64_saturated b Htok Hlast) as (Hok & Htok' & Hlast').
  cbn [replicate consume_each].
  destruct (consume 0 1 b) as [ok b1]. cbn [fst snd] in *.
  specialize (IH b1 Htok' Hlast').
  destruct (consume_each (replicate k 0) b1) as [oks b2]. cbn [fst] in *.
  now rewrite Hok, IH.
Qed.

(** After the pass the level is at most the capacity, or not a number. *)
Lemma refillTokens64_upper (now : Z) (b : TokenBucket64.t) :
  (tokens_ b <=? to_double (bucketSize_ b))%float = true ->
  Prim2SF (tokens_ (refillTokens now b)) = S754_nan \/
  (tokens_ (refillTokens now b) <=? to_double (bucketSize_ b))%float = true.
Proof.
  intros Hhi. unfold refillTokens. destruct (0 <? _)%float; [| now right].
  cbn [tokens_]. unfold std_min.
  assert (Hcap : Prim2SF (to_double (bucketSize_ b)) <> S754_nan).
  { rewrite FloatAxioms.leb_spec in Hhi. now apply SFleb_not_nan in Hhi. }
  destruct (_ <? _)%float eqn:E; [right; now apply leb_refl64 |].
  set (sum := (tokens_ b + _)%float) in *.
  destruct (Prim2SF sum) eqn:Es; [right | right | now left | right];
    rewrite FloatAxioms.ltb_spec in E; rewrite FloatAxioms.leb_spec;
    (apply SFleb_total; [rewrite Es; discriminate | exact Hcap | exact E]).
Qed.

End Saturation.

(** C1, the claim as stated fails on the machine's doubles.  A cell whose
    level is exactly [2^53] accepts [consume(2^53 + 1)], although the level is
    below the request; and a cell of capacity [2^54] and rate 0 accepts every
    [consume(1)], however many there are, because subtracting one token leaves
    its level unchanged: no call is ever rejected. *)
Theorem consume_rounding_counterexample :
  (let b := TokenBucket64.new 0 (2 ^ 53) 0 in
   TokenBucket64.exact (TokenBucket64.tokens_ (TokenBucket64.refillTokens 0 b))
   = Some (inject_Z (2 ^ 53)) /\
   (inject_Z (2 ^ 53) < inject_Z (2 ^ 53 + 1))%Q /\
   (TokenBucket64.consume 0 (2 ^ 53 + 1) b).1 = true) /\
  (let b := TokenBucket64.new 0 (2 ^ 54) 0 in
   TokenBucket64.tokens_ (TokenBucket64.consume 0 1 b).2 = TokenBucket64.tokens_ b /\
   forall k : nat,
     (TokenBucket64.consume_each (replicate k 0) b).1 = replicate k true).
Proof.
  split; cbv zeta.
  - split; [| split]; vm_compute; reflexivity.
  - split; [vm_compute; reflexivity |].
    intros k. now apply consume_each64_saturated.
Qed.

(** C1, amended.  In binary64, [consume(n)], after the replenishment pass,
    increments [totalRequests] by exactly 1 (an [uint64_t] increment); it
    compares the level with [n] converted to [double]; if the level is not
    below, it subtracts the converted [n] (rounding the difference),
    increments [acceptedRequests] and accepts; otherwise it rejects and leaves
    the level as it is.  On integers up to [2^53] the comparison is the exact
    one.  Consequently a cell of capacity [C <= 2^53] and refill rate 0
    accepts [C] calls of [consume(1)], at whatever clock readings within the
    range of the clock, and rejects the next one. *)
Theorem consume64_decision :
  (forall (now n : Z) (b : TokenBucket64.t),
     let b1 := TokenBucket64.refillTokens now b in
     let r := TokenBucket64.consume now n b in
     TokenBucket64.totalRequests_ r.2 = wrap64 (TokenBucket64.totalRequests_ b + 1) /\
     (0 <= TokenBucket64.totalRequests_ b < SIZE_MAX ->
        TokenBucket64.totalRequests_ r.2 = TokenBucket64.totalRequests_ b + 1) /\
     ((TokenBucket64.to_double n <=? TokenBucket64.tokens_ b1)%float = true ->
        r.1 = true /\
        TokenBucket64.tokens_ r.2
        = (TokenBucket64.tokens_ b1 - TokenBucket64.to_double n)%float /\
        TokenBucket64.acceptedRequests_ r.2
        = wrap64 (TokenBucket64.acceptedRequests_ b + 1)) /\
     ((TokenBucket64.to_double n <=? TokenBucket64.tokens_ b1)%float = false ->
        r.1 = false /\
        TokenBucket64.tokens_ r.2 = TokenBucket64.tokens_ b1 /\
        TokenBucket64.acceptedRequests_ r.2 = TokenBucket64.acceptedRequests_ b)) /\
  (forall n k : Z,
     0 <= n <= 2 ^ 53 -> 0 <= k <= 2 ^ 53 ->
     (TokenBucket64.to_double n <=? TokenBucket64.to_double k)%float = (n <=? k)) /\
  (forall (C : nat) (t0 : Z) (nows : list Z) (last : Z),
     Z.of_nat C <= 2 ^ 53 ->
     length nows = C ->
     Forall (fun now => t0 <= now < t0 + 2 ^ 63) (nows ++ [last]) ->
     (TokenBucket64.consume_each (nows ++ [last])
        (TokenBucket64.new t0 (Z.of_nat C) 0)).1
     = replicate C true ++ [false]).
Proof.
  split; [| split].
  - intros now n b b1 r. subst b1 r.
    destruct (refillTokens64_frame now b) as (_ & _ & Htot & Hacc).
    assert (Htotal : TokenBucket64.totalRequests_ (TokenBucket64.consume now n b).2
                     = wrap64 (TokenBucket64.totalRequests_ b + 1)).
    { unfold TokenBucket64.consume. destruct (_ <=? _)%float; cbn; now rewrite Htot. }
    split; [exact Htotal |]. split.
    { intros Hsmall. rewrite Htotal. apply wrap64_small. unfold SIZE_MAX in *. lia. }
    split; intros H; unfold TokenBucket64.consume; rewrite H; cbn; now rewrite Hacc.
  - apply to_double64_leb.
  - intros C t0 nows last HC Hlen Hnows. subst C.
    apply Forall_app in Hnows as [Hnows Hlast].
    apply Forall_cons in Hlast as [Hlast _].
    rewrite consume_each64_app.
    destruct (consume_each64_drain t0 nows
                (TokenBucket64.new t0 (Z.of_nat (length nows)) 0))
      as (Hoks & Hrate & Hzero & Hsize & Hrefill);
      try reflexivity; cbn [TokenBucket64.new TokenBucket64.bucketSize_
                             TokenBucket64.lastRefill_]; try lia; try assumption.
    destruct (TokenBucket64.consume_each nows _) as [oks b1].
    cbn [fst snd TokenBucket64.new TokenBucket64.bucketSize_] in *. subst oks.
    cbn [TokenBucket64.consume_each].
    assert (Hd : TokenBucket64.in_int64 (last - TokenBucket64.lastRefill_ b1))
      by (unfold TokenBucket64.in_int64; lia).
    pose proof (refillTokens64_rate0 last b1 0 Hrate Hzero ltac:(lia) ltac:(lia) Hd) as Hkeep.
    unfold TokenBucket64.consume. rewrite Hkeep.
    rewrite to_double64_leb by lia. reflexivity.
Qed.

(** The first three and the fourth verdict of a cell of capacity 3. *)
Lemma consume64_decision_witness :
  (TokenBucket64.consume_each [5; 5; 7; 9] (TokenBucket64.new 5 3 0)).1
  = [true; true; true; false].
Proof.
  refine (proj2 (proj2 consume64_decision) 3%nat 5 [5; 5; 7] 9 _ eq_refl _).
  - cbn. lia.
  - repeat (apply Forall_cons_2; [lia |]). apply Forall_nil_2.
Defined.

(** C2, the claim as stated fails.  Nothing in the program keeps the refill
    rate positive: a cell built with rate -1 is within its range when it is
    created and has the level -5 after a snapshot taken ten seconds later.
    And the level of a new cell is the capacity converted to [double], which
    can exceed the capacity: a cell of capacity [2^53 + 3] starts at the level
    [2^53 + 4]. *)
Theorem tokens_in_range_counterexample :
  (let b := TokenBucket64.new 0 5 (-1) in
   TokenBucket64.tokens_in_range b /\
   TokenBucket64.exact
     (TokenBucket64.tokens_ (TokenBucket64.getStatistics 10000000000 b).2)
   = Some (-5)%Q /\
   ~ TokenBucket64.tokens_in_range (TokenBucket64.getStatistics 10000000000 b).2) /\
  TokenBucket64.exact (TokenBucket64.tokens_ (TokenBucket64.new 0 (2 ^ 53 + 3) 10))
  = Some (inject_Z (2 ^ 53 + 4)).
Proof.
  split; [cbv zeta; split; [| split] |].
  - split; vm_compute; reflexivity.
  - vm_compute. reflexivity.
  - intros [Hlo _]. vm_compute in Hlo. discriminate.
  - vm_compute. reflexivity.
Qed.

(** C2, amended.  In binary64, a cell whose refill rate is not negative (and
    is a number) and whose level lies between 0 and the capacity converted to
    [double] keeps it there across [consume], [getStatistics] and [reset], as
    long as the clock readings differ from the last refill by less than the
    range of the clock; a freshly constructed cell starts there.  The
    replenishment pass adds [elapsed * refillRate], clamped to the converted
    capacity, only when time has passed; otherwise it leaves the cell exactly
    as it is. *)
Theorem tokens_in_range64_preserved (b : TokenBucket64.t) :
  (0 <=? TokenBucket64.refillRate_ b)%float = true ->
  TokenBucket64.tokens_in_range b ->
  (forall now n,
     TokenBucket64.in_int64 (now - TokenBucket64.lastRefill_ b) ->
     0 <= n <= SIZE_MAX ->
     TokenBucket64.tokens_in_range (TokenBucket64.consume now n b).2) /\
  (forall now,
     TokenBucket64.in_int64 (now - TokenBucket64.lastRefill_ b) ->
     TokenBucket64.tokens_in_range (TokenBucket64.getStatistics now b).2) /\
  (forall now, TokenBucket64.tokens_in_range (TokenBucket64.reset now b)) /\
  (forall now (capacity : Z) (rate : float),
     0 <= capacity <= SIZE_MAX ->
     TokenBucket64.tokens_in_range (TokenBucket64.new now capacity rate)) /\
  (forall now,
     now <= TokenBucket64.lastRefill_ b -> TokenBucket64.refillTokens now b = b) /\
  (forall now,
     TokenBucket64.lastRefill_ b < now ->
     TokenBucket64.in_int64 (now - TokenBucket64.lastRefill_ b) ->
     TokenBucket64.tokens_ (TokenBucket64.refillTokens now b) =
       TokenBucket64.std_min
         (TokenBucket64.tokens_ b +
          TokenBucket64.seconds (now - TokenBucket64.lastRefill_ b)
          * TokenBucket64.refillRate_ b)%float
         (TokenBucket64.to_double (TokenBucket64.bucketSize_ b)) /\
     TokenBucket64.lastRefill_ (TokenBucket64.refillTokens now b) = now).
Proof.
  intros Hrate Hinv.
  split; [| split; [| split; [| split; [| split]]]].
  - intros now n Hd Hn. now apply consume64_in_range.
  - intros now Hd. now apply refillTokens64_in_range.
  - intros now. now apply reset64_in_range.
  - intros now capacity rate. apply new64_in_range.
  - intros now. apply refillTokens64_skip.
  - intros now Hlate Hd. now rewrite refillTokens64_fill.
Qed.

Lemma tokens_in_range64_preserved_witness :
  TokenBucket64.tokens_in_range
    (TokenBucket64.consume 2000000000 1 (TokenBucket64.new 0 5 0.5)).2.
Proof.
  refine (proj1 (tokens_in_range64_preserved (TokenBucket64.new 0 5 0.5) _ _)
            2000000000 1 _ _).
  - vm_compute. reflexivity.
  - split; vm_compute; reflexivity.
  - unfold TokenBucket64.in_int64. cbn. lia.
  - unfold SIZE_MAX. lia.
Defined.

(** X6. A request for more tokens than the capacity holds is never
    accepted: on a cell whose level is at most its capacity, [consume(n)]
    rejects and takes no token whenever the capacity, as a [double], is below
    [n], as a [double] - whatever the time passed and whatever the refill
    rate, even one that is not a number.  Up to [2^53] that is the case
    exactly when [bucketSize < n]. *)
Theorem consume64_oversize (now n : Z) (b : TokenBucket64.t) :
  (TokenBucket64.tokens_ b <=? TokenBucket64.to_double (TokenBucket64.bucketSize_ b))%float
  = true ->
  (TokenBucket64.to_double (TokenBucket64.bucketSize_ b) <? TokenBucket64.to_double n)%float
  = true \/
  (0 <= TokenBucket64.bucketSize_ b < n /\ n <= 2 ^ 53) ->
  (TokenBucket64.consume now n b).1 = false /\
  TokenBucket64.tokens_ (TokenBucket64.consume now n b).2
  = TokenBucket64.tokens_ (TokenBucket64.refillTokens now b).
Proof.
  intros Hhi Hbig.
  assert (Hbig' : SFleb (Prim2SF (TokenBucket64.to_double n))
                    (Prim2SF (TokenBucket64.to_double (TokenBucket64.bucketSize_ b)))
                  = false).
  { destruct Hbig as [Hlt | (Hlo & Hn)].
    - rewrite FloatAxioms.ltb_spec in Hlt. now apply SFltb_SFleb.
    - rewrite !to_double64_spec. apply N64_lt; lia. }
  assert (Hrej : (TokenBucket64.to_double n
                  <=? TokenBucket64.tokens_ (TokenBucket64.refillTokens now b))%float
                 = false).
  { destruct (refillTokens64_upper now b Hhi) as [Hnan | Hle].
    - rewrite FloatAxioms.leb_spec, Hnan. unfold SFleb.
      now destruct (Prim2SF (TokenBucket64.to_double n)) as [| | | [] ? ?].
    - destruct (TokenBucket64.to_double n
                <=? TokenBucket64.tokens_ (TokenBucket64.refillTokens now b))%float eqn:E;
        [| reflexivity].
      rewrite FloatAxioms.leb_spec in E, Hle.
      rewrite (SFleb_trans _ _ _ E Hle) in Hbig'. discriminate. }
  unfold TokenBucket64.consume. rewrite Hrej. split; reflexivity.
Qed.

Lemma consume64_oversize_witness :
  (TokenBucket64.consume 1000000000000 6 (TokenBucket64.new 0 5 0.5)).1 = false.
Proof.
  refine (proj1 (consume64_oversize 1000000000000 6 (TokenBucket64.new 0 5 0.5) _ _)).
  - vm_compute. reflexivity.
  - left. vm_compute. reflexivity.
Defined.

(** * Further properties of the quota cell in binary64 *)

(** X1. Replenishment is lazy and idempotent, but not path-independent: a
    pass at a reading that is not later than the one before it changes
    nothing, while a pass at a later reading can leave a level that differs
    from the level the single pass leaves.  The default cell, emptied at tick
    0, holds exactly one token after a pass at 0.1 s, and less than one after
    passes at 8000 ns and at 0.1 s. *)
Theorem refillTokens64_idempotent :
  (forall (t1 t2 : Z) (b : TokenBucket64.t),
     TokenBucket64.in_int64 (t1 - TokenBucket64.lastRefill_ b) ->
     t2 <= t1 ->
     TokenBucket64.refillTokens t2 (TokenBucket64.refillTokens t1 b)
     = TokenBucket64.refillTokens t1 b) /\
  TokenBucket64.tokens_ (TokenBucket64.refillTokens 100000000 Cells64.drained)
  = TokenBucket64.to_double 1 /\
  (TokenBucket64.to_double 1
   <=? TokenBucket64.tokens_
         (TokenBucket64.refillTokens 100000000
            (TokenBucket64.refillTokens 8000 Cells64.drained)))%float
  = false.
Proof.
  split; [| split; vm_compute; reflexivity].
  intros t1 t2 b Hd Hle.
  destruct (Z_lt_le_dec (TokenBucket64.lastRefill_ b) t1) as [Hlate | Hearly].
  - rewrite (refillTokens64_fill t1 b Hlate Hd).
    apply refillTokens64_skip. cbn. exact Hle.
  - rewrite (refillTokens64_skip t1 b Hearly).
    apply refillTokens64_skip. lia.
Qed.

Lemma refillTokens64_idempotent_witness :
  TokenBucket64.refillTokens 3000 (TokenBucket64.refillTokens 8000 Cells64.drained)
  = TokenBucket64.refillTokens 8000 Cells64.drained.
Proof.
  refine (proj1 refillTokens64_idempotent 8000 3000 Cells64.drained _ _).
  - split; vm_compute; [discriminate | reflexivity].
  - lia.
Defined.

(** X2. A snapshot is not transparent: it forces a replenishment pass, and
    the rounding of that pass can change what a later [consume] decides.  The
    default cell, emptied at tick 0, accepts [consume(1)] at 0.1 s; after a
    [getStatistics] at 8000 ns it rejects the same call. *)
Theorem getStatistics64_observable :
  (TokenBucket64.consume 100000000 1 Cells64.drained).1 = true /\
  (TokenBucket64.consume 100000000 1
     (TokenBucket64.getStatistics 8000 Cells64.drained).2).1 = false.
Proof. split; vm_compute; reflexivity. Qed.


